(** * kdedisplayprofile: saving and loading KDE display profiles

    A shallow embedding of [SaveProfileCmd.Run] and [LoadProfileCmd.Run]
    (the two commands of the program) together with the library routines
    they call: Go's [slices.SortFunc] (pattern-defeating quicksort, generated
    file [zsortanyfunc.go]) and [lo.Associate] / [lo.Filter] of samber/lo.

    - Go [int] is a 64-bit two's complement integer: modelled as [Z], the
      wrap-around of the one arithmetic operation performed on it (the
      subtraction in the priority comparator) written out.
    - Go [float64] is IEEE 754 binary64: modelled by Rocq's primitive [float].
    - Go slices are lists; indexed reads and writes use stdpp's list lookup
      and insert. The sorting routines never index outside the slice: a
      second version of them, in which an index out of range is a panic,
      is shown to return the same slices ([checked_SortFunc]).
    - [fmt.Sprintf("%f", x)], which renders the scale of a Screen, is
      modelled on the exact value of [x]; the other verbs of the argument
      list ([%s], [%d]) lose nothing and are kept as structure.
    - Go [map[string]V] is [gmap string V]; the order in which [range]
      visits the keys of a map is unspecified and is an explicit parameter.
    - Querying and calling [kscreen-doctor] and reading and writing the
      profile file are left out: a command is modelled from the decoded
      inventory (and profile) to what it writes or passes on.

    The file has the definitions first: the routines of [slices] and [lo],
    the data model, the two commands, the notions the properties are stated
    with, and sample inventories. The facts follow: the sorting routines
    permute, terminate and sort; then the save path, the order of the
    extracted Screens, the load path, and saving followed by loading.
    The last parts return to the sort and to the two commands with
    further facts: what the sort does to input that is in order already,
    what the commands read and what they ignore, which mode a Screen
    gets, and when a saved profile loads again. *)

From Stdlib Require Import ZArith Floats DecimalString.
From stdpp Require Import gmap strings list fin_maps sorting.

Set Warnings "-inexact-float,-clear-no-such-hyp".
Set Default Proof Using "Type".

Local Open Scope Z_scope.

(** ** Machine integers *)

(** Two's complement wrap-around of Go's 64-bit [int]. *)
Definition wrap_int (z : Z) : Z := (z + 2 ^ 63) `mod` 2 ^ 64 - 2 ^ 63.

Definition in_int (z : Z) : Prop := - 2 ^ 63 ≤ z < 2 ^ 63.

(** Conversion [int(f)] of a [float64]: truncation towards zero. When the
    truncated value does not fit an [int] (or [f] is a NaN or an infinity)
    the Go specification leaves the result to the implementation; amd64
    yields the "integer indefinite" value [-2^63], which is what is
    modelled here. *)
Definition float64_to_int (f : float) : Z :=
  match Prim2SF f with
  | S754_zero _ => 0
  | S754_finite s m e =>
      let v := if bool_decide (0 ≤ e) then Z.pos m * 2 ^ e
               else Z.pos m `div` 2 ^ (- e) in
      let v := if s then - v else v in
      if bool_decide (- 2 ^ 63 ≤ v < 2 ^ 63) then v else - 2 ^ 63
  | S754_infinity _ | S754_nan => - 2 ^ 63
  end.

(** ** [fmt.Sprintf] with the verb [%f] *)

Module fmt.
(** [n] decimal digits of [z], the most significant first. *)
Fixpoint decimal_digits (n : nat) (z : Z) : string :=
  match n with
  | O => ""
  | S n' =>
      String (Ascii.ascii_of_nat
                (48 + Z.to_nat ((z `div` 10 ^ Z.of_nat n') `mod` 10)))
             (decimal_digits n' z)
  end.

(** [num / den] rounded to the nearest integer, a half to the even one. *)
Definition round_half_even (num den : Z) : Z :=
  let q := num `div` den in
  let r := num `mod` den in
  if bool_decide (2 * r < den) then q
  else if bool_decide (den < 2 * r) then q + 1
  else if Z.even q then q else q + 1.

(** [fmt.Sprintf("%f", f)] for a [float64]: the exact value of [f], rounded
    to six decimal places (a half to the even digit), with a minus sign
    whenever the sign bit is set; [NaN], [+Inf] and [-Inf] otherwise. *)
Definition Sprintf_f (f : float) : string :=
  match Prim2SF f with
  | S754_nan => "NaN"
  | S754_infinity s => if s then "-Inf" else "+Inf"
  | S754_zero s => (if s then "-" else "") +:+ "0.000000"
  | S754_finite s m e =>
      let micro :=
        if bool_decide (0 ≤ e) then Z.pos m * 2 ^ e * 10 ^ 6
        else round_half_even (Z.pos m * 10 ^ 6) (2 ^ (- e)) in
      (if s then "-" else "")
      +:+ NilZero.string_of_uint (N.to_uint (Z.to_N (micro `div` 10 ^ 6)))
      +:+ "." +:+ decimal_digits 6 (micro `mod` 10 ^ 6)
  end.
Arguments Sprintf_f : simpl never.
End fmt.

Local Close Scope Z_scope.

(** ** [slices.SortFunc]: pattern-defeating quicksort *)

Module slices.
Section pdqsort.
Context {E : Type} (cmp : E → E → Z).

(** [cmp(data[i], data[j]) < 0]. An index outside the slice, where Go
    panics, reads as "not less"; [checked.less] below makes the panic
    explicit. *)
Definition less (data : list E) (i j : nat) : bool :=
  match data !! i, data !! j with
  | Some x, Some y => bool_decide (cmp x y < 0)%Z
  | _, _ => false
  end.

(** [data[i], data[j] = data[j], data[i]]. An index outside the slice,
    where Go panics, leaves the slice as it is; see [checked.swap]. *)
Definition swap (data : list E) (i j : nat) : list E :=
  match data !! i, data !! j with
  | Some x, Some y => <[j:=x]> (<[i:=y]> data)
  | _, _ => data
  end.

(** [for j := i; j > a && cmp(data[j], data[j-1]) < 0; j--] *)
Fixpoint insertion_inner (data : list E) (a j : nat) : list E :=
  match j with
  | O => data
  | S j' =>
      if bool_decide (a < j) && less data j j'
      then insertion_inner (swap data j j') a j'
      else data
  end.

(** [for i := a + 1; i < b; i++], with [n = b - i] iterations left. *)
Fixpoint insertion_outer (data : list E) (a i n : nat) : list E :=
  match n with
  | O => data
  | S n' => insertion_outer (insertion_inner data a i) a (S i) n'
  end.

Definition insertionSortCmpFunc (data : list E) (a b : nat) : list E :=
  insertion_outer data a (a + 1) (b - (a + 1)).

(** The unbounded [for] loop of [siftDownCmpFunc]; [root] grows at every
    round, the fuel bounds the number of rounds. *)
Fixpoint siftDown_loop (fuel : nat) (data : list E) (root hi first : nat)
    : option (list E) :=
  match fuel with
  | O => None
  | S fuel' =>
      let child := 2 * root + 1 in
      if bool_decide (hi ≤ child) then Some data else
      let child :=
        if bool_decide (child + 1 < hi)
           && less data (first + child) (first + child + 1)
        then child + 1 else child in
      if negb (less data (first + root) (first + child)) then Some data else
      siftDown_loop fuel' (swap data (first + root) (first + child))
                    child hi first
  end.

Definition siftDownCmpFunc (data : list E) (lo hi first : nat)
    : option (list E) :=
  siftDown_loop (S hi) data lo hi first.

(** [for i := (hi - 1) / 2; i >= 0; i--] *)
Fixpoint heap_build (data : list E) (hi first i : nat) : option (list E) :=
  data ← siftDownCmpFunc data i hi first;
  match i with
  | O => Some data
  | S i' => heap_build data hi first i'
  end.

(** [for i := hi - 1; i >= 0; i--], entered with [n = hi]. *)
Fixpoint heap_pop (data : list E) (first n : nat) : option (list E) :=
  match n with
  | O => Some data
  | S i =>
      data ← siftDownCmpFunc (swap data first (first + i)) 0 i first;
      heap_pop data first i
  end.

Definition heapSortCmpFunc (data : list E) (a b : nat) : option (list E) :=
  let first := a in
  let hi := b - a in
  data ← heap_build data hi first ((hi - 1) / 2);
  heap_pop data first hi.

(** [for i <= j && p(i) { i++ }], with [n = j + 1 - i]. *)
Fixpoint scan_up (p : nat → bool) (i n : nat) : nat :=
  match n with
  | O => i
  | S n' => if p i then scan_up p (S i) n' else i
  end.

(** [for i <= j && p(j) { j-- }], with [n = j + 1 - i]. *)
Fixpoint scan_down (p : nat → bool) (j n : nat) : nat :=
  match n with
  | O => j
  | S n' => if p j then scan_down p (pred j) n' else j
  end.

(** The final [for] loop of [partitionCmpFunc]; returns the data and [j]. *)
Fixpoint partition_loop (fuel : nat) (data : list E) (a i j : nat)
    : option (list E * nat) :=
  match fuel with
  | O => None
  | S fuel' =>
      let i' := scan_up (λ i, less data i a) i (S j - i) in
      let j' := scan_down (λ j, negb (less data j a)) j (S j - i') in
      if bool_decide (j' < i') then Some (data, j')
      else partition_loop fuel' (swap data i' j') a (S i') (pred j')
  end.

Definition partitionCmpFunc (data : list E) (a b pivot : nat)
    : option (list E * nat * bool) :=
  let data := swap data a pivot in
  let i := a + 1 in
  let j := b - 1 in
  let i := scan_up (λ i, less data i a) i (S j - i) in
  let j := scan_down (λ j, negb (less data j a)) j (S j - i) in
  if bool_decide (j < i) then Some (swap data j a, j, true)
  else
    let data := swap data i j in
    '(data, j) ← partition_loop (S (b - a)) data a (S i) (pred j);
    Some (swap data j a, j, false).

Fixpoint partitionEqual_loop (fuel : nat) (data : list E) (a i j : nat)
    : option (list E * nat) :=
  match fuel with
  | O => None
  | S fuel' =>
      let i' := scan_up (λ i, negb (less data a i)) i (S j - i) in
      let j' := scan_down (λ j, less data a j) j (S j - i') in
      if bool_decide (j' < i') then Some (data, i')
      else partitionEqual_loop fuel' (swap data i' j') a (S i') (pred j')
  end.

Definition partitionEqualCmpFunc (data : list E) (a b pivot : nat)
    : option (list E * nat) :=
  let data := swap data a pivot in
  partitionEqual_loop (S (b - a)) data a (a + 1) (b - 1).

(** [for j := i - 1; j >= 1; j--] of [partialInsertionSortCmpFunc]. *)
Fixpoint shift_left (data : list E) (j : nat) : list E :=
  match j with
  | O => data
  | S j' =>
      if negb (less data j j') then data
      else shift_left (swap data j j') j'
  end.

(** [for j := i + 1; j < b; j++], with [n = b - j]. *)
Fixpoint shift_right (data : list E) (j n : nat) : list E :=
  match n with
  | O => data
  | S n' =>
      if negb (less data j (j - 1)) then data
      else shift_right (swap data j (j - 1)) (S j) n'
  end.

Definition shortestShifting : nat := 50.
Definition maxSteps : nat := 5.

(** [for j := 0; j < maxSteps; j++], with [steps = maxSteps - j]. *)
Fixpoint partialInsertion_loop (steps : nat) (data : list E) (a b i : nat)
    : list E * bool :=
  match steps with
  | O => (data, false)
  | S steps' =>
      let i := scan_up (λ i, negb (less data i (i - 1))) i (b - i) in
      if bool_decide (i = b) then (data, true) else
      if bool_decide (b - a < shortestShifting) then (data, false) else
      let data := swap data i (i - 1) in
      let data :=
        if bool_decide (2 ≤ i - a) then shift_left data (i - 1) else data in
      let data :=
        if bool_decide (2 ≤ b - i)
        then shift_right data (i + 1) (b - (i + 1)) else data in
      partialInsertion_loop steps' data a b i
  end.

Definition partialInsertionSortCmpFunc (data : list E) (a b : nat)
    : list E * bool :=
  partialInsertion_loop maxSteps data a b (a + 1).

(** [xorshift.Next] on a [uint64]. *)
Definition xorshift_Next (r : Z) : Z :=
  let mask := (2 ^ 64 - 1)%Z in
  let r := Z.lxor r (Z.land (Z.shiftl r 13) mask) in
  let r := Z.lxor r (Z.shiftr r 7) in
  Z.lxor r (Z.land (Z.shiftl r 17) mask).

(** [bits.Len(uint(n))] *)
Definition bits_Len (n : nat) : nat :=
  match n with
  | O => 0
  | S _ => S (Nat.log2 n)
  end.

Definition nextPowerOfTwo (length : nat) : Z :=
  Z.shiftl 1 (Z.of_nat (bits_Len length)).

(** [for i := 0; i < 3; i++], with [n = 3 - i]. *)
Fixpoint breakPatterns_loop (n : nat) (data : list E)
    (a length idx i : nat) (random modulus : Z) : list E :=
  match n with
  | O => data
  | S n' =>
      let random := xorshift_Next random in
      let other := Z.to_nat (Z.land random (modulus - 1)) in
      let other :=
        if bool_decide (length ≤ other) then other - length else other in
      breakPatterns_loop n' (swap data (idx + i) (a + other))
                         a length idx (S i) random modulus
  end.

Definition breakPatternsCmpFunc (data : list E) (a b : nat) : list E :=
  let length := b - a in
  if bool_decide (8 ≤ length) then
    breakPatterns_loop 3 data a length (a + (length / 4) * 2 - 1) 0
                       (Z.of_nat length) (nextPowerOfTwo length)
  else data.

Inductive sortedHint := unknownHint | increasingHint | decreasingHint.

Definition order2CmpFunc (data : list E) (a b swaps : nat)
    : nat * nat * nat :=
  if less data b a then (b, a, S swaps) else (a, b, swaps).

Definition medianCmpFunc (data : list E) (a b c swaps : nat) : nat * nat :=
  let '(a, b, swaps) := order2CmpFunc data a b swaps in
  let '(b, c, swaps) := order2CmpFunc data b c swaps in
  let '(a, b, swaps) := order2CmpFunc data a b swaps in
  (b, swaps).

Definition medianAdjacentCmpFunc (data : list E) (a swaps : nat)
    : nat * nat :=
  medianCmpFunc data (a - 1) a (a + 1) swaps.

Definition shortestNinther : nat := 50.
Definition maxSwaps : nat := 4 * 3.

Definition choosePivotCmpFunc (data : list E) (a b : nat)
    : nat * sortedHint :=
  let l := b - a in
  let swaps := 0 in
  let i := a + l / 4 * 1 in
  let j := a + l / 4 * 2 in
  let k := a + l / 4 * 3 in
  let '(j, swaps) :=
    if bool_decide (8 ≤ l) then
      let '(i, j, k, swaps) :=
        if bool_decide (shortestNinther ≤ l) then
          let '(i, swaps) := medianAdjacentCmpFunc data i swaps in
          let '(j, swaps) := medianAdjacentCmpFunc data j swaps in
          let '(k, swaps) := medianAdjacentCmpFunc data k swaps in
          (i, j, k, swaps)
        else (i, j, k, swaps) in
      medianCmpFunc data i j k swaps
    else (j, swaps) in
  if bool_decide (swaps = 0) then (j, increasingHint)
  else if bool_decide (swaps = maxSwaps) then (j, decreasingHint)
  else (j, unknownHint).

(** [for i < j { swap; i++; j-- }], with [d = j - i]. *)
Fixpoint reverseRange_loop (data : list E) (i d : nat) : list E :=
  match d with
  | O => data
  | S O => swap data i (i + 1)
  | S (S d') => reverseRange_loop (swap data i (i + d)) (S i) d'
  end.

Definition reverseRangeCmpFunc (data : list E) (a b : nat) : list E :=
  reverseRange_loop data a (b - 1 - a).

Definition maxInsertion : nat := 12.

(** [pdqsortCmpFunc]: one round of its [for] loop per unit of fuel; the
    two flags are the loop's local variables. A recursive call starts
    with both flags set. *)
Fixpoint pdqsort_loop (fuel : nat) (data : list E) (a b limit : nat)
    (wasBalanced wasPartitioned : bool) : option (list E) :=
  match fuel with
  | O => None
  | S fuel' =>
      let length := b - a in
      if bool_decide (length ≤ maxInsertion)
      then Some (insertionSortCmpFunc data a b)
      else if bool_decide (limit = 0) then heapSortCmpFunc data a b
      else
        let '(data, limit) :=
          if negb wasBalanced
          then (breakPatternsCmpFunc data a b, limit - 1)
          else (data, limit) in
        let '(pivot, hint) := choosePivotCmpFunc data a b in
        let '(data, pivot, hint) :=
          match hint with
          | decreasingHint =>
              (reverseRangeCmpFunc data a b, (b - 1) - (pivot - a),
               increasingHint)
          | _ => (data, pivot, hint)
          end in
        let '(data, sorted) :=
          match hint with
          | increasingHint =>
              if wasBalanced && wasPartitioned
              then partialInsertionSortCmpFunc data a b
              else (data, false)
          | _ => (data, false)
          end in
        if sorted then Some data else
        if bool_decide (0 < a) && negb (less data (a - 1) pivot) then
          '(data, mid) ← partitionEqualCmpFunc data a b pivot;
          pdqsort_loop fuel' data mid b limit wasBalanced wasPartitioned
        else
          '(data, mid, alreadyPartitioned) ←
            partitionCmpFunc data a b pivot;
          let leftLen := mid - a in
          let rightLen := b - mid in
          let balanceThreshold := length / 8 in
          if bool_decide (leftLen < rightLen) then
            data ← pdqsort_loop fuel' data a mid limit true true;
            pdqsort_loop fuel' data (mid + 1) b limit
              (bool_decide (balanceThreshold ≤ leftLen)) alreadyPartitioned
          else
            data ← pdqsort_loop fuel' data (mid + 1) b limit true true;
            pdqsort_loop fuel' data a mid limit
              (bool_decide (balanceThreshold ≤ rightLen)) alreadyPartitioned
  end.

Definition pdqsortCmpFunc (data : list E) (a b limit : nat)
    : option (list E) :=
  pdqsort_loop (S (b - a)) data a b limit true true.

(** [SortFunc] as it runs; [None] would mean that some loop above ran
    out of fuel, which [SortFunc_run_total] excludes. *)
Definition SortFunc_run (x : list E) : option (list E) :=
  let n := length x in
  pdqsortCmpFunc x 0 n (bits_Len n).

Definition SortFunc (x : list E) : list E := default x (SortFunc_run x).

End pdqsort.

(** ** The same routines with Go's index checks

    [less] and [swap] above answer an index outside the slice without
    complaint, where Go panics. The routines are written out once more
    with the check made explicit: [None] stands for the panic (or, in a
    loop that carries fuel, for the fuel running out). That they never
    return [None] on a range of the slice, and that they compute what the
    routines above compute, is shown among the facts. *)

Module checked.
Section pdqsort.
Context {E : Type} (cmp : E → E → Z).

(** [cmp(data[i], data[j]) < 0] *)
Definition less (data : list E) (i j : nat) : option bool :=
  x ← data !! i; y ← data !! j; Some (bool_decide (cmp x y < 0)%Z).

(** [data[i], data[j] = data[j], data[i]] *)
Definition swap (data : list E) (i j : nat) : option (list E) :=
  x ← data !! i; y ← data !! j; Some (<[j:=x]> (<[i:=y]> data)).

Fixpoint insertion_inner (data : list E) (a j : nat) : option (list E) :=
  match j with
  | O => Some data
  | S j' =>
      if bool_decide (a < j) then
        lt ← less data j j';
        if lt : bool
        then data ← swap data j j'; insertion_inner data a j'
        else Some data
      else Some data
  end.

Fixpoint insertion_outer (data : list E) (a i n : nat) : option (list E) :=
  match n with
  | O => Some data
  | S n' => data ← insertion_inner data a i; insertion_outer data a (S i) n'
  end.

Definition insertionSortCmpFunc (data : list E) (a b : nat)
    : option (list E) :=
  insertion_outer data a (a + 1) (b - (a + 1)).

Fixpoint siftDown_loop (fuel : nat) (data : list E) (root hi first : nat)
    : option (list E) :=
  match fuel with
  | O => None
  | S fuel' =>
      let child := 2 * root + 1 in
      if bool_decide (hi ≤ child) then Some data else
      lt ← (if bool_decide (child + 1 < hi)
            then less data (first + child) (first + child + 1)
            else Some false);
      let child := if lt : bool then child + 1 else child in
      lt ← less data (first + root) (first + child);
      if negb lt then Some data else
      data ← swap data (first + root) (first + child);
      siftDown_loop fuel' data child hi first
  end.

Definition siftDownCmpFunc (data : list E) (lo hi first : nat)
    : option (list E) :=
  siftDown_loop (S hi) data lo hi first.

Fixpoint heap_build (data : list E) (hi first i : nat) : option (list E) :=
  data ← siftDownCmpFunc data i hi first;
  match i with
  | O => Some data
  | S i' => heap_build data hi first i'
  end.

Fixpoint heap_pop (data : list E) (first n : nat) : option (list E) :=
  match n with
  | O => Some data
  | S i =>
      data ← swap data first (first + i);
      data ← siftDownCmpFunc data 0 i first;
      heap_pop data first i
  end.

Definition heapSortCmpFunc (data : list E) (a b : nat) : option (list E) :=
  let first := a in
  let hi := b - a in
  data ← heap_build data hi first ((hi - 1) / 2);
  heap_pop data first hi.

Fixpoint scan_up (p : nat → option bool) (i n : nat) : option nat :=
  match n with
  | O => Some i
  | S n' => c ← p i; if c : bool then scan_up p (S i) n' else Some i
  end.

Fixpoint scan_down (p : nat → option bool) (j n : nat) : option nat :=
  match n with
  | O => Some j
  | S n' => c ← p j; if c : bool then scan_down p (pred j) n' else Some j
  end.

Fixpoint partition_loop (fuel : nat) (data : list E) (a i j : nat)
    : option (list E * nat) :=
  match fuel with
  | O => None
  | S fuel' =>
      i' ← scan_up (λ i, less data i a) i (S j - i);
      j' ← scan_down (λ j, negb <$> less data j a) j (S j - i');
      if bool_decide (j' < i') then Some (data, j')
      else data ← swap data i' j';
           partition_loop fuel' data a (S i') (pred j')
  end.

Definition partitionCmpFunc (data : list E) (a b pivot : nat)
    : option (list E * nat * bool) :=
  data ← swap data a pivot;
  let i := a + 1 in
  let j := b - 1 in
  i ← scan_up (λ i, less data i a) i (S j - i);
  j ← scan_down (λ j, negb <$> less data j a) j (S j - i);
  if bool_decide (j < i)
  then data ← swap data j a; Some (data, j, true)
  else
    data ← swap data i j;
    '(data, j) ← partition_loop (S (b - a)) data a (S i) (pred j);
    data ← swap data j a;
    Some (data, j, false).

Fixpoint partitionEqual_loop (fuel : nat) (data : list E) (a i j : nat)
    : option (list E * nat) :=
  match fuel with
  | O => None
  | S fuel' =>
      i' ← scan_up (λ i, negb <$> less data a i) i (S j - i);
      j' ← scan_down (λ j, less data a j) j (S j - i');
      if bool_decide (j' < i') then Some (data, i')
      else data ← swap data i' j';
           partitionEqual_loop fuel' data a (S i') (pred j')
  end.

Definition partitionEqualCmpFunc (data : list E) (a b pivot : nat)
    : option (list E * nat) :=
  data ← swap data a pivot;
  partitionEqual_loop (S (b - a)) data a (a + 1) (b - 1).

Fixpoint shift_left (data : list E) (j : nat) : option (list E) :=
  match j with
  | O => Some data
  | S j' =>
      lt ← less data j j';
      if negb lt then Some data
      else data ← swap data j j'; shift_left data j'
  end.

Fixpoint shift_right (data : list E) (j n : nat) : option (list E) :=
  match n with
  | O => Some data
  | S n' =>
      lt ← less data j (j - 1);
      if negb lt then Some data
      else data ← swap data j (j - 1); shift_right data (S j) n'
  end.

Fixpoint partialInsertion_loop (steps : nat) (data : list E) (a b i : nat)
    : option (list E * bool) :=
  match steps with
  | O => Some (data, false)
  | S steps' =>
      i ← scan_up (λ i, negb <$> less data i (i - 1)) i (b - i);
      if bool_decide (i = b) then Some (data, true) else
      if bool_decide (b - a < shortestShifting) then Some (data, false) else
      data ← swap data i (i - 1);
      data ← (if bool_decide (2 ≤ i - a)
              then shift_left data (i - 1) else Some data);
      data ← (if bool_decide (2 ≤ b - i)
              then shift_right data (i + 1) (b - (i + 1)) else Some data);
      partialInsertion_loop steps' data a b i
  end.

Definition partialInsertionSortCmpFunc (data : list E) (a b : nat)
    : option (list E * bool) :=
  partialInsertion_loop maxSteps data a b (a + 1).

Fixpoint breakPatterns_loop (n : nat) (data : list E)
    (a length idx i : nat) (random modulus : Z) : option (list E) :=
  match n with
  | O => Some data
  | S n' =>
      let random := xorshift_Next random in
      let other := Z.to_nat (Z.land random (modulus - 1)) in
      let other :=
        if bool_decide (length ≤ other) then other - length else other in
      data ← swap data (idx + i) (a + other);
      breakPatterns_loop n' data a length idx (S i) random modulus
  end.

Definition breakPatternsCmpFunc (data : list E) (a b : nat)
    : option (list E) :=
  let length := b - a in
  if bool_decide (8 ≤ length) then
    breakPatterns_loop 3 data a length (a + (length / 4) * 2 - 1) 0
                       (Z.of_nat length) (nextPowerOfTwo length)
  else Some data.

Definition order2CmpFunc (data : list E) (a b swaps : nat)
    : option (nat * nat * nat) :=
  lt ← less data b a;
  Some (if lt : bool then (b, a, S swaps) else (a, b, swaps)).

Definition medianCmpFunc (data : list E) (a b c swaps : nat)
    : option (nat * nat) :=
  '(a, b, swaps) ← order2CmpFunc data a b swaps;
  '(b, c, swaps) ← order2CmpFunc data b c swaps;
  '(a, b, swaps) ← order2CmpFunc data a b swaps;
  Some (b, swaps).

Definition medianAdjacentCmpFunc (data : list E) (a swaps : nat)
    : option (nat * nat) :=
  medianCmpFunc data (a - 1) a (a + 1) swaps.

Definition choosePivotCmpFunc (data : list E) (a b : nat)
    : option (nat * sortedHint) :=
  let l := b - a in
  let swaps := 0 in
  let i := a + l / 4 * 1 in
  let j := a + l / 4 * 2 in
  let k := a + l / 4 * 3 in
  '(j, swaps) ←
    (if bool_decide (8 ≤ l) then
       '(i, j, k, swaps) ←
         (if bool_decide (shortestNinther ≤ l) then
            '(i, swaps) ← medianAdjacentCmpFunc data i swaps;
            '(j, swaps) ← medianAdjacentCmpFunc data j swaps;
            '(k, swaps) ← medianAdjacentCmpFunc data k swaps;
            Some (i, j, k, swaps)
          else Some (i, j, k, swaps));
       medianCmpFunc data i j k swaps
     else Some (j, swaps));
  Some (if bool_decide (swaps = 0) then (j, increasingHint)
        else if bool_decide (swaps = maxSwaps) then (j, decreasingHint)
        else (j, unknownHint)).

Fixpoint reverseRange_loop (data : list E) (i d : nat) : option (list E) :=
  match d with
  | O => Some data
  | S O => swap data i (i + 1)
  | S (S d') => data ← swap data i (i + d); reverseRange_loop data (S i) d'
  end.

Definition reverseRangeCmpFunc (data : list E) (a b : nat)
    : option (list E) :=
  reverseRange_loop data a (b - 1 - a).

Fixpoint pdqsort_loop (fuel : nat) (data : list E) (a b limit : nat)
    (wasBalanced wasPartitioned : bool) : option (list E) :=
  match fuel with
  | O => None
  | S fuel' =>
      let length := b - a in
      if bool_decide (length ≤ maxInsertion)
      then insertionSortCmpFunc data a b
      else if bool_decide (limit = 0) then heapSortCmpFunc data a b
      else
        '(data, limit) ←
          (if negb wasBalanced
           then data ← breakPatternsCmpFunc data a b; Some (data, limit - 1)
           else Some (data, limit));
        '(pivot, hint) ← choosePivotCmpFunc data a b;
        '(data, pivot, hint) ←
          match hint with
          | decreasingHint =>
              data ← reverseRangeCmpFunc data a b;
              Some (data, (b - 1) - (pivot - a), increasingHint)
          | _ => Some (data, pivot, hint)
          end;
        '(data, sorted) ←
          match hint with
          | increasingHint =>
              if wasBalanced && wasPartitioned
              then partialInsertionSortCmpFunc data a b
              else Some (data, false)
          | _ => Some (data, false)
          end;
        if sorted : bool then Some data else
        equal ← (if bool_decide (0 < a)
                 then negb <$> less data (a - 1) pivot else Some false);
        if equal : bool then
          '(data, mid) ← partitionEqualCmpFunc data a b pivot;
          pdqsort_loop fuel' data mid b limit wasBalanced wasPartitioned
        else
          '(data, mid, alreadyPartitioned) ←
            partitionCmpFunc data a b pivot;
          let leftLen := mid - a in
          let rightLen := b - mid in
          let balanceThreshold := length / 8 in
          if bool_decide (leftLen < rightLen) then
            data ← pdqsort_loop fuel' data a mid limit true true;
            pdqsort_loop fuel' data (mid + 1) b limit
              (bool_decide (balanceThreshold ≤ leftLen)) alreadyPartitioned
          else
            data ← pdqsort_loop fuel' data (mid + 1) b limit true true;
            pdqsort_loop fuel' data a mid limit
              (bool_decide (balanceThreshold ≤ rightLen)) alreadyPartitioned
  end.

Definition pdqsortCmpFunc (data : list E) (a b limit : nat)
    : option (list E) :=
  pdqsort_loop (S (b - a)) data a b limit true true.

(** [SortFunc] with the index checks. *)
Definition SortFunc (x : list E) : option (list E) :=
  let n := length x in
  pdqsortCmpFunc x 0 n (bits_Len n).

End pdqsort.
End checked.
End slices.

(** ** samber/lo *)

Module lo.
(** [lo.Associate]: the pairs are stored one after the other, so that of
    two items with the same key the later one stays. *)
Definition Associate {T V : Type} (collection : list T)
    (transform : T → string * V) : gmap string V :=
  foldl (λ result item, <[(transform item).1 := (transform item).2]> result)
        ∅ collection.

(** [lo.Filter]: the items satisfying the predicate, in their order. *)
Definition Filter {T : Type} (collection : list T) (predicate : T → bool)
    : list T :=
  List.filter predicate collection.
End lo.

(** ** Data model *)

Record Size := mkSize { Height : Z; Width : Z }.
Record Position := mkPosition { X : Z; Y : Z }.

(** [==] on the struct [Size]: both fields are compared. *)
Definition Size_eqb (s1 s2 : Size) : bool :=
  bool_decide (Height s1 = Height s2) && bool_decide (Width s1 = Width s2).

Module Mode.
Record t := mk {
  Id : string;
  Name : string;
  RefreshRate : float;
  Size : Size
}.
End Mode.

Module Output.
Record t := mk {
  Name : string;
  CurrentModeId : string;
  Enabled : bool;
  Size : Size;
  Pos : Position;
  Scale : float;
  Modes : list Mode.t;
  Priority : Z
}.
End Output.

Record KScreenDoctorResult := mkResult { Outputs : list Output.t }.

Module Screen.
Record t := mk {
  Name : string;
  Size : Size;
  Position : Position;
  RefreshRate : float;
  Scale : float
}.
End Screen.

Record Profile := mkProfile { Screens : list Screen.t }.

(** The errors the two commands return on their own account. Go builds each
    with [fmt.Errorf]; the constructor keeps the interpolated output name.
    [IndexPanic] stands for the run-time panic of [potentialModes[0]] on an
    empty slice. *)
Inductive error :=
  | IntegrityError (output : string)
  | MissingOutputError (output : string)
  | NoMatchingModeError (output : string)
  | IndexPanic.

Definition error_message (e : error) : string :=
  match e with
  | IntegrityError n => "failed to determine refreshrate for output " +:+ n
  | MissingOutputError n => "profile references missing output " +:+ n
  | NoMatchingModeError n =>
      "output " +:+ n +:+ " doesn't contain a matching mode"
  | IndexPanic => "index out of range [0] with length 0"
  end.

Inductive result (A : Type) :=
  | Ok (a : A)
  | Err (e : error).
Arguments Ok {A} a.
Arguments Err {A} e.

(** One argument of the final [kscreen-doctor] call. Each is rendered by
    [fmt.Sprintf]: ["output.%s.disable"], ["output.%s.enable"],
    ["output.%s.mode.%s"], ["output.%s.position.%d,%d"] and
    ["output.%s.scale.%s"]. The scale is a text already, the one that
    [fmt.Sprintf("%f", desiredScreen.Scale)] made of the number; the two
    coordinates are printed in full by [%d,%d] and stay numbers here. *)
Inductive Directive :=
  | Disable (output : string)
  | Enable (output : string)
  | SetMode (output mode : string)
  | SetPosition (output : string) (position : Position)
  | SetScale (output : string) (scale : string).

(** ** [SaveProfileCmd.Run] *)

(** The comparator handed to [slices.SortFunc]: [a.Priority - b.Priority]
    in 64-bit arithmetic. *)
Definition priority_cmp (a b : Output.t) : Z :=
  wrap_int (Output.Priority a - Output.Priority b).

(** The inner loop over [output.Modes]: the refresh rate of the first mode
    whose [Id] is [id], or [rate] unchanged when there is none. *)
Fixpoint current_refresh (modes : list Mode.t) (id : string) (rate : float)
    : float :=
  match modes with
  | [] => rate
  | mode :: rest =>
      if bool_decide (Mode.Id mode = id) then Mode.RefreshRate mode
      else current_refresh rest id rate
  end.

Definition screen_of (output : Output.t) : Screen.t :=
  {| Screen.Name := Output.Name output;
     Screen.Size := Output.Size output;
     Screen.Position := Output.Pos output;
     Screen.Scale := Output.Scale output;
     Screen.RefreshRate :=
       current_refresh (Output.Modes output) (Output.CurrentModeId output) 0 |}.

(** The loop over the sorted outputs. *)
Fixpoint save_loop (outputs : list Output.t) (profile : Profile)
    : result Profile :=
  match outputs with
  | [] => Ok profile
  | output :: rest =>
      if negb (Output.Enabled output) then save_loop rest profile else
      let screen := screen_of output in
      if (Screen.RefreshRate screen =? 0)%float
      then Err (IntegrityError (Output.Name output))
      else save_loop rest {| Screens := Screens profile ++ [screen] |}
  end.

(** [SaveProfileCmd.Run] from the decoded inventory to the profile that is
    serialised and written. *)
Definition SaveProfileCmd_Run (setup : KScreenDoctorResult) : result Profile :=
  save_loop (slices.SortFunc priority_cmp (Outputs setup)) {| Screens := [] |}.

(** ** [LoadProfileCmd.Run] *)

Record targetOutputProperties := mkTarget {
  name : string;
  mode : string;
  position : Position;
  scale : string
}.

(** The comparator of the second [slices.SortFunc] call. *)
Definition refresh_cmp (desiredScreen : Screen.t) (a b : Mode.t) : Z :=
  let diffA := abs (Screen.RefreshRate desiredScreen - Mode.RefreshRate a) in
  let diffB := abs (Screen.RefreshRate desiredScreen - Mode.RefreshRate b) in
  float64_to_int (diffA - diffB).

Definition potentialModes (output : Output.t) (desiredScreen : Screen.t)
    : list Mode.t :=
  lo.Filter (Output.Modes output)
    (λ mode, Size_eqb (Mode.Size mode) (Screen.Size desiredScreen)).

(** The loop over [profile.Screens]. *)
Fixpoint load_loop (outputByName : gmap string Output.t)
    (screens : list Screen.t)
    (targetOutputs : list targetOutputProperties)
    (targetOutputNames : gmap string bool)
    : result (list targetOutputProperties * gmap string bool) :=
  match screens with
  | [] => Ok (targetOutputs, targetOutputNames)
  | desiredScreen :: rest =>
      match outputByName !! Screen.Name desiredScreen with
      | None => Err (MissingOutputError (Screen.Name desiredScreen))
      | Some output =>
          let potential := potentialModes output desiredScreen in
          if bool_decide (length potential = 0)
          then Err (NoMatchingModeError (Screen.Name desiredScreen))
          else
            let potential :=
              slices.SortFunc (refresh_cmp desiredScreen) potential in
            match potential !! 0 with
            | None => Err IndexPanic
            | Some best =>
                let targetOutput :=
                  {| name := Screen.Name desiredScreen;
                     mode := Mode.Name best;
                     position := Screen.Position desiredScreen;
                     scale := fmt.Sprintf_f (Screen.Scale desiredScreen) |} in
                load_loop outputByName rest
                  (targetOutputs ++ [targetOutput])
                  (<[name targetOutput := true]> targetOutputNames)
            end
      end
  end.

(** [keys] is an order in which [range] can visit the keys of [m]. *)
Definition range_order {V : Type} (m : gmap string V) (keys : list string)
    : Prop :=
  keys ≡ₚ (map_to_list m).*1.

(** The loop [for outputName := range outputByName], the keys visited in
    the order [keys]; a missing key of [targetOutputNames] reads [false]. *)
Definition disabledOutputs (keys : list string)
    (targetOutputNames : gmap string bool) : list string :=
  List.filter
    (λ outputName, negb (default false (targetOutputNames !! outputName)))
    keys.

Definition enable_args (output : targetOutputProperties) : list Directive :=
  [ Enable (name output);
    SetMode (name output) (mode output);
    SetPosition (name output) (position output);
    SetScale (name output) (scale output) ].

Definition outputByName (currentScreen : KScreenDoctorResult)
    : gmap string Output.t :=
  lo.Associate (Outputs currentScreen) (λ output, (Output.Name output, output)).

(** [LoadProfileCmd.Run] from the decoded profile and the decoded inventory
    to the argument list of the [kscreen-doctor] call; [keys] is the order
    in which the run visits the keys of [outputByName]. *)
Definition LoadProfileCmd_Run (keys : list string) (profile : Profile)
    (currentScreen : KScreenDoctorResult) : result (list Directive) :=
  match load_loop (outputByName currentScreen) (Screens profile) [] ∅ with
  | Err e => Err e
  | Ok (targetOutputs, targetOutputNames) =>
      Ok ((Disable <$> disabledOutputs keys targetOutputNames)
          ++ (targetOutputs ≫= enable_args))
  end.

(** ** Notions used to state the properties *)

(** An enabled output for which the save loop finds no usable refresh rate:
    no mode carries [CurrentModeId], or the one that does reports 0 Hz. *)
Definition undetermined (output : Output.t) : bool :=
  Output.Enabled output && (Screen.RefreshRate (screen_of output) =? 0)%float.

(** The body of the loop over [profile.Screens] for one Screen. *)
Definition resolveScreen (outputByName : gmap string Output.t)
    (desiredScreen : Screen.t) : result targetOutputProperties :=
  match outputByName !! Screen.Name desiredScreen with
  | None => Err (MissingOutputError (Screen.Name desiredScreen))
  | Some output =>
      let potential := potentialModes output desiredScreen in
      if bool_decide (length potential = 0)
      then Err (NoMatchingModeError (Screen.Name desiredScreen))
      else
        match slices.SortFunc (refresh_cmp desiredScreen) potential !! 0 with
        | None => Err IndexPanic
        | Some best =>
            Ok {| name := Screen.Name desiredScreen;
                  mode := Mode.Name best;
                  position := Screen.Position desiredScreen;
                  scale := fmt.Sprintf_f (Screen.Scale desiredScreen) |}
        end
  end.

(** A Screen resolves: its name is a key of the lookup and the output found
    there has a mode of the Screen's size. *)
Definition resolves (outputByName : gmap string Output.t)
    (desiredScreen : Screen.t) : Prop :=
  ∃ output, outputByName !! Screen.Name desiredScreen = Some output
            ∧ potentialModes output desiredScreen ≠ [].

Definition is_disable (d : Directive) : bool :=
  match d with Disable _ => true | _ => false end.

(** The output a directive addresses. *)
Definition directive_output (d : Directive) : string :=
  match d with
  | Disable n | Enable n | SetMode n _ | SetPosition n _ | SetScale n _ => n
  end.

Definition output_names (setup : KScreenDoctorResult) : list string :=
  Output.Name <$> Outputs setup.

Definition screen_names (profile : Profile) : list string :=
  Screen.Name <$> Screens profile.

(** The mode an output currently runs: the first one carrying
    [CurrentModeId]. *)
Definition current_mode (output : Output.t) : option Mode.t :=
  List.find (λ mode, bool_decide (Mode.Id mode = Output.CurrentModeId output))
            (Output.Modes output).

(** Stable sorting by ascending priority, as the specification words it:
    each output goes behind all outputs placed so far whose priority is not
    greater than its own. *)
Fixpoint insert_by_priority (output : Output.t) (sorted : list Output.t)
    : list Output.t :=
  match sorted with
  | [] => [output]
  | o :: rest =>
      if bool_decide (Output.Priority output < Output.Priority o)%Z
      then output :: sorted
      else o :: insert_by_priority output rest
  end.

Definition stable_sort_by_priority (outputs : list Output.t) : list Output.t :=
  foldl (λ sorted output, insert_by_priority output sorted) [] outputs.

(** The insertion step of [insertion_inner] seen on the reversed prefix:
    [x] moves past every predecessor it compares less than. *)
Fixpoint insert_rev {E : Type} (cmp : E → E → Z) (x : E) (rpre : list E)
    : list E :=
  match rpre with
  | [] => [x]
  | y :: r =>
      if bool_decide (cmp x y < 0)%Z then y :: insert_rev cmp x r
      else x :: rpre
  end.

(** The update [targetOutputNames[targetOutput.name] = true]. *)
Definition mark (names : gmap string bool) (t : targetOutputProperties)
    : gmap string bool :=
  <[name t := true]> names.

(** On the elements of [l] the comparator says "less" exactly when the key
    is smaller. *)
Definition agrees {E : Type} (cmp : E → E → Z) (key : E → Z) (l : list E)
    : Prop :=
  ∀ x y, x ∈ l → y ∈ l → (cmp x y < 0)%Z ↔ (key x < key y)%Z.

(** The Screens of [profile] are those of the enabled outputs of [setup],
    in ascending order of priority, outputs of equal priority in the order
    of the inventory. *)
Definition stably_ordered (setup : KScreenDoctorResult) (profile : Profile)
    : Prop :=
  ∃ sorted,
    StronglySorted (λ a b, Output.Priority a ≤ Output.Priority b)%Z sorted
    ∧ (∀ prio, filter (λ o, Output.Priority o = prio) sorted
               = filter (λ o, Output.Priority o = prio) (Outputs setup))
    ∧ Screens profile
        = screen_of <$> filter (λ o, Output.Enabled o = true) sorted.

(** The Screens of [profile] are those of the enabled outputs of [setup],
    in ascending order of priority. *)
Definition ordered_by_priority (setup : KScreenDoctorResult)
    (profile : Profile) : Prop :=
  ∃ sorted,
    sorted ≡ₚ Outputs setup
    ∧ StronglySorted (λ a b, Output.Priority a ≤ Output.Priority b)%Z sorted
    ∧ Screens profile
        = screen_of <$> filter (λ o, Output.Enabled o = true) sorted.

(** No difference of two priorities of the inventory overflows an [int]. *)
Definition priorities_in_range (setup : KScreenDoctorResult) : Prop :=
  ∀ a b, a ∈ Outputs setup → b ∈ Outputs setup →
         in_int (Output.Priority a - Output.Priority b).

(** ** Directives that restate the current state *)

(** The mode named [md] is the one [output] currently runs. *)
Definition is_current_mode (output : Output.t) (md : string) : Prop :=
  ∃ cur, current_mode output = Some cur ∧ md = Mode.Name cur.

(** The mode named [md] is a mode of [output] of the size [output]
    currently has. *)
Definition has_current_size (output : Output.t) (md : string) : Prop :=
  ∃ best, best ∈ Output.Modes output
          ∧ Mode.Size best = Output.Size output ∧ md = Mode.Name best.




(** ** Notions used to state that a slice is sorted *)

(** The key of [data[i]]. *)
Definition kat {E : Type} (key : E → Z) (data : list E) (i : nat) : Z :=
  from_option key 0%Z (data !! i).

(** [data[a:b]] is in ascending order of key. *)
Definition sorted_range {E : Type} (key : E → Z) (data : list E) (a b : nat)
    : Prop :=
  ∀ i j, a ≤ i → i ≤ j → j < b → (kat key data i ≤ kat key data j)%Z.

(** [r] is [data] with the elements of [data[a:b]] rearranged. *)
Definition same_range {E : Type} (a b : nat) (data r : list E) : Prop :=
  r ≡ₚ data ∧ ∀ k, k < a ∨ b ≤ k → r !! k = data !! k.

(** When [data[a:b]] does not start the slice, the element before it is
    not greater than any element of it. *)
Definition bounded_below {E : Type} (key : E → Z) (data : list E) (a b : nat)
    : Prop :=
  0 < a → ∀ k, a ≤ k → k < b → (kat key data (a - 1) ≤ kat key data k)%Z.

(** In the heap of [hi] elements stored from [data[first]] on, node [x]
    is not smaller than its children. *)
Definition heap_at {E : Type} (key : E → Z) (data : list E)
    (first hi x : nat) : Prop :=
  ∀ c, c = 2 * x + 1 ∨ c = 2 * x + 2 → c < hi →
       (kat key data (first + c) ≤ kat key data (first + x))%Z.

(** ** Sample inventories and profiles *)

Module Sample.
Definition fhd : Size := {| Height := 1080; Width := 1920 |}.
Definition uhd : Size := {| Height := 2160; Width := 3840 |}.
Definition origin : Position := {| X := 0; Y := 0 |}.

Definition m599 : Mode.t := Mode.mk "1" "1920x1080@59.9" 59.9 fhd.
Definition m60 : Mode.t := Mode.mk "2" "1920x1080@60" 60.0 fhd.
Definition m75 : Mode.t := Mode.mk "3" "1920x1080@75" 75.0 fhd.

(** Output [A] is enabled and runs the 60 Hz mode; [B] and [C] are
    disabled, and [C] names a current mode it does not have. *)
Definition outA : Output.t :=
  Output.mk "A" "2" true fhd origin 1.0 [m599; m60; m75] 1.
Definition outB : Output.t :=
  Output.mk "B" "2" false fhd {| X := 1920; Y := 0 |} 1.0 [m60] 2.
Definition outC : Output.t :=
  Output.mk "C" "9" false fhd origin 1.0 [m60] 3.

Definition setupABC : KScreenDoctorResult :=
  {| Outputs := [outA; outB; outC] |}.

Definition screenA : Screen.t := Screen.mk "A" fhd origin 60.0 1.0.
Definition profileA : Profile := {| Screens := [screenA] |}.

(** An order in which the three keys may be visited. *)
Definition keysABC : list string := ["C"; "A"; "B"].

(** Screens that cannot be resolved against [setupABC]. *)
Definition screenX1 : Screen.t := Screen.mk "X1" fhd origin 60.0 1.0.
Definition screenX2 : Screen.t := Screen.mk "X2" fhd origin 60.0 1.0.
Definition screenA_uhd : Screen.t := Screen.mk "A" uhd origin 60.0 1.0.
Definition screenB_uhd : Screen.t := Screen.mk "B" uhd origin 60.0 1.0.

(** What loading [profileA] into [setupABC] passes to [kscreen-doctor]. *)
Definition argsA : list Directive :=
  [ Disable "C"; Disable "B";
    Enable "A"; SetMode "A" "1920x1080@59.9";
    SetPosition "A" origin; SetScale "A" "1.000000" ].

(** Enabled outputs whose current mode is not among their modes. *)
Definition outP : Output.t :=
  Output.mk "P" "7" true fhd origin 1.0 [m60] 0.
Definition outQ : Output.t :=
  Output.mk "Q" "7" true fhd origin 1.0 [m60] 1.
Definition setupPQ : KScreenDoctorResult := {| Outputs := [outP; outQ] |}.
Definition setupAQ : KScreenDoctorResult := {| Outputs := [outA; outQ] |}.

Definition out (n : string) (priority : Z) : Output.t :=
  Output.mk n "2" true fhd origin 1.0 [m60] priority.

(** Thirteen enabled outputs: twelve of priority 1, then one of
    priority 0. *)
Definition setup13 : KScreenDoctorResult :=
  {| Outputs := [ out "o0" 1; out "o1" 1; out "o2" 1; out "o3" 1;
                  out "o4" 1; out "o5" 1; out "o6" 1; out "o7" 1;
                  out "o8" 1; out "o9" 1; out "o10" 1; out "o11" 1;
                  out "o12" 0 ] |}.

(** What [SaveProfileCmd_Run] makes of it. *)
Definition profile13 : Profile :=
  {| Screens := screen_of <$>
       [ out "o12" 0; out "o6" 1; out "o2" 1; out "o3" 1; out "o4" 1;
         out "o5" 1; out "o0" 1; out "o7" 1; out "o8" 1; out "o9" 1;
         out "o10" 1; out "o11" 1; out "o1" 1 ] |}.

(** Two enabled outputs whose priorities are more than [2^63] apart. *)
Definition setupWrap : KScreenDoctorResult :=
  {| Outputs := [ out "low" (- 2 ^ 62 - 1); out "high" (2 ^ 62) ] |}.

Definition profileWrap : Profile :=
  {| Screens := screen_of <$>
       [ out "high" (2 ^ 62); out "low" (- 2 ^ 62 - 1) ] |}.

Definition profileABC : Profile := {| Screens := [screen_of outA] |}.


(** An enabled output whose current mode is listed with 0 Hz. *)
Definition mZero : Mode.t := Mode.mk "1" "1920x1080@0" 0.0 fhd.
Definition outZ : Output.t :=
  Output.mk "Z" "1" true fhd origin 1.0 [mZero] 1.
Definition setupZ : KScreenDoctorResult := {| Outputs := [outZ] |}.

(** The outputs of [setupABC], listed in another order. *)
Definition setupCAB : KScreenDoctorResult :=
  {| Outputs := [outC; outA; outB] |}.

(** An output with the name and the modes of [o] and nothing else in
    common with it. *)
Definition elsewhere (o : Output.t) : Output.t :=
  Output.mk (Output.Name o) "none" (negb (Output.Enabled o)) uhd
            {| X := 100; Y := 200 |} 2.0 (Output.Modes o)
            (- Output.Priority o).
Definition setupABC_elsewhere : KScreenDoctorResult :=
  {| Outputs := elsewhere <$> Outputs setupABC |}.

(** Two live outputs named [A]; the second offers 75 Hz only. *)
Definition outA2 : Output.t :=
  Output.mk "A" "3" true fhd origin 1.0 [m75] 2.
Definition setupAA : KScreenDoctorResult := {| Outputs := [outA; outA2] |}.

(** A Screen for [A] that asks for 75 Hz. *)
Definition screenA_75 : Screen.t := Screen.mk "A" fhd origin 75.0 1.0.
Definition profileA_75 : Profile := {| Screens := [screenA_75] |}.
Definition argsA_75 : list Directive :=
  [ Disable "C"; Disable "B";
    Enable "A"; SetMode "A" "1920x1080@75";
    SetPosition "A" origin; SetScale "A" "1.000000" ].

(** The distance of a mode to 60 Hz, in whole Hz. *)
Definition whole_distance_to_60 (md : Mode.t) : Z :=
  float64_to_int (abs (60.0 - Mode.RefreshRate md)).

(** Four enabled outputs, listed out of order and with ties. *)
Definition setupTies : KScreenDoctorResult :=
  {| Outputs := [ out "t0" 2; out "t1" 1; out "t2" 2; out "t3" 1 ] |}.
Definition profileTies : Profile :=
  {| Screens := screen_of <$>
       [ out "t1" 1; out "t3" 1; out "t0" 2; out "t2" 2 ] |}.

(** Three enabled outputs of different priorities, in two orders. *)
Definition setup312 : KScreenDoctorResult :=
  {| Outputs := [ out "p3" 3; out "p1" 1; out "p2" 2 ] |}.
Definition setup231 : KScreenDoctorResult :=
  {| Outputs := [ out "p2" 2; out "p3" 3; out "p1" 1 ] |}.

End Sample.

Import slices.

(** * Facts about the sorting routines *)

Section pdqsort_facts.
Context {E : Type} (cmp : E → E → Z).
Implicit Types (data : list E) (a b i j n fuel : nat).

Lemma insert_Permutation_delete data i (x y : E) :
  data !! i = Some x → <[i:=y]> data ≡ₚ y :: delete i data.
Proof.
  revert i. induction data as [|z data IH]; intros [|i] Hi; simplify_eq/=.
  - done.
  - rewrite (IH i Hi). apply Permutation_swap.
Qed.

Lemma swap_Permutation data i j : swap data i j ≡ₚ data.
Proof.
  unfold swap.
  destruct (data !! i) as [x|] eqn:Hi; [|done].
  destruct (data !! j) as [y|] eqn:Hj; [|done].
  destruct (decide (i = j)) as [->|Hne].
  - simplify_eq. by rewrite list_insert_insert_eq, list_insert_id.
  - assert (<[i:=y]> data !! j = Some y) as Hj'
      by (by rewrite list_lookup_insert_ne).
    rewrite (insert_Permutation_delete _ _ _ x Hj').
    assert (delete j (<[i:=y]> data) ≡ₚ delete i data) as ->.
    { apply (Permutation_cons_inv (a:=y)).
      etrans; [symmetry; by apply delete_Permutation|].
      by apply insert_Permutation_delete with x. }
    symmetry. by apply delete_Permutation.
Qed.

Lemma swap_length data i j : length (swap data i j) = length data.
Proof. apply Permutation_length, swap_Permutation. Qed.

(** ** Every routine permutes the slice *)

Local Ltac perm_swap IH :=
  first [ done
        | etrans; [apply IH | apply swap_Permutation]
        | etrans; [eapply IH; eassumption | apply swap_Permutation] ].

Lemma insertion_inner_Permutation data a j :
  insertion_inner cmp data a j ≡ₚ data.
Proof.
  revert data. induction j as [|j IH]; intros data; simpl; [done|].
  case_match; perm_swap IH.
Qed.

Lemma insertion_outer_Permutation data a i n :
  insertion_outer cmp data a i n ≡ₚ data.
Proof.
  revert data i. induction n as [|n IH]; intros data i; simpl; [done|].
  etrans; [apply IH | apply insertion_inner_Permutation].
Qed.

Lemma insertionSortCmpFunc_Permutation data a b :
  insertionSortCmpFunc cmp data a b ≡ₚ data.
Proof. apply insertion_outer_Permutation. Qed.

Lemma siftDown_loop_Permutation fuel data root hi first r :
  siftDown_loop cmp fuel data root hi first = Some r → r ≡ₚ data.
Proof.
  revert data root. induction fuel as [|fuel IH]; intros data root; simpl;
    [done|].
  repeat case_match; intros; simplify_eq; perm_swap IH.
Qed.

Lemma siftDownCmpFunc_Permutation data lo hi first r :
  siftDownCmpFunc cmp data lo hi first = Some r → r ≡ₚ data.
Proof. apply siftDown_loop_Permutation. Qed.

Lemma heap_build_Permutation data hi first i r :
  heap_build cmp data hi first i = Some r → r ≡ₚ data.
Proof.
  revert data. induction i as [|i IH]; intros data; simpl;
    destruct (siftDownCmpFunc _ _ _ _ _) as [d|] eqn:Hd; simpl; try done;
    apply siftDownCmpFunc_Permutation in Hd; intros; simplify_eq; [done|].
  etrans; [by eapply IH | done].
Qed.

Lemma heap_pop_Permutation data first n r :
  heap_pop cmp data first n = Some r → r ≡ₚ data.
Proof.
  revert data. induction n as [|n IH]; intros data; simpl;
    [by intros; simplify_eq|].
  destruct (siftDownCmpFunc _ _ _ _ _) as [d|] eqn:Hd; simpl; [|done].
  apply siftDownCmpFunc_Permutation in Hd. intros Hr%IH.
  by rewrite Hr, Hd, swap_Permutation.
Qed.

Lemma heapSortCmpFunc_Permutation data a b r :
  heapSortCmpFunc cmp data a b = Some r → r ≡ₚ data.
Proof.
  unfold heapSortCmpFunc.
  destruct (heap_build _ _ _ _ _) as [d|] eqn:Hd; simpl; [|done].
  intros Hr%heap_pop_Permutation. apply heap_build_Permutation in Hd.
  by rewrite Hr.
Qed.

Lemma partition_loop_Permutation fuel data a i j r m :
  partition_loop cmp fuel data a i j = Some (r, m) → r ≡ₚ data.
Proof.
  revert data i j. induction fuel as [|fuel IH]; intros data i j; simpl;
    [done|].
  case_bool_decide; intros; simplify_eq; perm_swap IH.
Qed.

Lemma partitionCmpFunc_Permutation data a b pivot r m p :
  partitionCmpFunc cmp data a b pivot = Some (r, m, p) → r ≡ₚ data.
Proof.
  unfold partitionCmpFunc. case_bool_decide.
  - intros; simplify_eq. by rewrite !swap_Permutation.
  - destruct (partition_loop _ _ _ _ _ _) as [[d k]|] eqn:Hd; simpl; [|done].
    apply partition_loop_Permutation in Hd. intros; simplify_eq.
    by rewrite swap_Permutation, Hd, !swap_Permutation.
Qed.

Lemma partitionEqual_loop_Permutation fuel data a i j r m :
  partitionEqual_loop cmp fuel data a i j = Some (r, m) → r ≡ₚ data.
Proof.
  revert data i j. induction fuel as [|fuel IH]; intros data i j; simpl;
    [done|].
  case_bool_decide; intros; simplify_eq; perm_swap IH.
Qed.

Lemma partitionEqualCmpFunc_Permutation data a b pivot r m :
  partitionEqualCmpFunc cmp data a b pivot = Some (r, m) → r ≡ₚ data.
Proof.
  intros Hr%partitionEqual_loop_Permutation. by rewrite Hr, swap_Permutation.
Qed.

Lemma shift_left_Permutation data j : shift_left cmp data j ≡ₚ data.
Proof.
  revert data. induction j as [|j IH]; intros data; simpl; [done|].
  case_match; perm_swap IH.
Qed.

Lemma shift_right_Permutation data j n : shift_right cmp data j n ≡ₚ data.
Proof.
  revert data j. induction n as [|n IH]; intros data j; simpl; [done|].
  case_match; perm_swap IH.
Qed.

Lemma partialInsertion_loop_Permutation steps data a b i :
  (partialInsertion_loop cmp steps data a b i).1 ≡ₚ data.
Proof.
  revert data i. induction steps as [|steps IH]; intros data i; simpl;
    [done|].
  repeat case_bool_decide; simpl; try done; rewrite IH;
    rewrite ?shift_right_Permutation, ?shift_left_Permutation;
    apply swap_Permutation.
Qed.

Lemma breakPatterns_loop_Permutation n data a len idx i random modulus :
  breakPatterns_loop n data a len idx i random modulus ≡ₚ data.
Proof.
  revert data i random. induction n as [|n IH]; intros data i random; simpl;
    [done|].
  perm_swap IH.
Qed.

Lemma breakPatternsCmpFunc_Permutation data a b :
  breakPatternsCmpFunc data a b ≡ₚ data.
Proof.
  unfold breakPatternsCmpFunc. case_bool_decide; [|done].
  apply breakPatterns_loop_Permutation.
Qed.

Lemma reverseRange_loop_Permutation data i d :
  reverseRange_loop data i d ≡ₚ data.
Proof.
  revert data i. induction d as [d IH] using lt_wf_ind; intros data i.
  destruct d as [|[|d]]; simpl; [done|apply swap_Permutation|].
  rewrite IH by lia. apply swap_Permutation.
Qed.

Lemma reverseRangeCmpFunc_Permutation data a b :
  reverseRangeCmpFunc data a b ≡ₚ data.
Proof. apply reverseRange_loop_Permutation. Qed.

Lemma pdqsort_loop_Permutation fuel data a b limit wb wp r :
  pdqsort_loop cmp fuel data a b limit wb wp = Some r → r ≡ₚ data.
Proof.
  revert data a b limit wb wp r.
  induction fuel as [|fuel IH]; intros data a b limit wb wp r; simpl;
    [done|].
  case_bool_decide.
  { intros; simplify_eq. apply insertionSortCmpFunc_Permutation. }
  case_bool_decide; [apply heapSortCmpFunc_Permutation|].
  set (d1 := if negb wb then _ else _).
  assert (d1.1 ≡ₚ data) as Hd1.
  { unfold d1. destruct wb; simpl; [done|].
    apply breakPatternsCmpFunc_Permutation. }
  destruct d1 as [data1 limit1]; simpl in Hd1.
  destruct (choosePivotCmpFunc _ _ _ _) as [pivot hint].
  set (d2 := match hint with decreasingHint => _ | _ => _ end).
  assert (d2.1.1 ≡ₚ data) as Hd2.
  { unfold d2. destruct hint; simpl; try done.
    by rewrite reverseRangeCmpFunc_Permutation. }
  destruct d2 as [[data2 pivot2] hint2]; simpl in Hd2.
  set (d3 := match hint2 with increasingHint => _ | _ => _ end).
  assert (d3.1 ≡ₚ data) as Hd3.
  { unfold d3. destruct hint2; simpl; try done.
    destruct (wb && wp); simpl; [|done].
    etrans; [apply partialInsertion_loop_Permutation|done]. }
  destruct d3 as [data3 [|]]; simpl in Hd3; [by intros; simplify_eq|].
  case_match.
  - destruct (partitionEqualCmpFunc _ _ _ _ _) as [[d mid]|] eqn:Hp;
      simpl; [|done].
    apply partitionEqualCmpFunc_Permutation in Hp.
    intros Hr%IH. by rewrite Hr, Hp.
  - destruct (partitionCmpFunc _ _ _ _ _) as [[[d mid] ap]|] eqn:Hp;
      simpl; [|done].
    apply partitionCmpFunc_Permutation in Hp.
    destruct (bool_decide (mid - a < b - mid));
      (destruct (pdqsort_loop _ _ _ _ _ _ _ _) as [d'|] eqn:Hq; simpl;
         [|done]);
      apply IH in Hq; intros Hr%IH; by rewrite Hr, Hq, Hp.
Qed.

Lemma SortFunc_run_Permutation x r : SortFunc_run cmp x = Some r → r ≡ₚ x.
Proof. apply pdqsort_loop_Permutation. Qed.
End pdqsort_facts.

Section pdqsort_total.
Context {E : Type} (cmp : E → E → Z).
Implicit Types (data : list E) (a b i j n fuel : nat).

(** ** No loop runs out of fuel *)

Local Arguments siftDownCmpFunc : simpl never.

Lemma scan_up_ge p i n : i ≤ scan_up p i n.
Proof.
  revert i. induction n as [|n IH]; intros i; simpl; [done|].
  case_match; [|done]. specialize (IH (S i)). lia.
Qed.

Lemma scan_down_le p j n : scan_down p j n ≤ j.
Proof.
  revert j. induction n as [|n IH]; intros j; simpl; [done|].
  case_match; [|done]. specialize (IH (pred j)). lia.
Qed.

Lemma scan_down_ge p j n : j - n ≤ scan_down p j n.
Proof.
  revert j. induction n as [|n IH]; intros j; simpl; [lia|].
  case_match; [|lia]. specialize (IH (pred j)). lia.
Qed.

Lemma siftDown_loop_total fuel data root hi first :
  0 < fuel → hi < fuel + root →
  is_Some (siftDown_loop cmp fuel data root hi first).
Proof.
  revert data root. induction fuel as [|fuel IH]; intros data root ??;
    simpl; [lia|].
  case_bool_decide; [done|].
  case_match; [done|].
  apply IH; case_match; try case_bool_decide; simpl in *; lia.
Qed.

Lemma siftDownCmpFunc_total data lo hi first :
  is_Some (siftDownCmpFunc cmp data lo hi first).
Proof. apply siftDown_loop_total; lia. Qed.

Lemma heap_build_total data hi first i :
  is_Some (heap_build cmp data hi first i).
Proof.
  revert data. induction i as [|i IH]; intros data; simpl.
  - by destruct (siftDownCmpFunc_total data 0 hi first) as [d ->].
  - destruct (siftDownCmpFunc_total data (S i) hi first) as [d ->]; simpl.
    apply IH.
Qed.

Lemma heap_pop_total data first n : is_Some (heap_pop cmp data first n).
Proof.
  revert data. induction n as [|n IH]; intros data; simpl; [done|].
  destruct (siftDownCmpFunc_total (swap data first (first + n)) 0 n first)
    as [d ->]; simpl. apply IH.
Qed.

Lemma heapSortCmpFunc_total data a b :
  is_Some (heapSortCmpFunc cmp data a b).
Proof.
  unfold heapSortCmpFunc.
  destruct (heap_build_total data (b - a) a ((b - a - 1) / 2)) as [d ->].
  apply heap_pop_total.
Qed.

Lemma partition_loop_total fuel data a i j :
  S j - i < fuel → is_Some (partition_loop cmp fuel data a i j).
Proof.
  revert data i j. induction fuel as [|fuel IH]; intros data i j ?; simpl;
    [lia|].
  set (i' := scan_up _ _ _). set (j' := scan_down _ _ _).
  pose proof (scan_up_ge (λ i, less cmp data i a) i (S j - i)).
  pose proof (scan_down_le (λ j, negb (less cmp data j a)) j (S j - i')).
  case_bool_decide; [done|]. apply IH. fold i' j' in H0, H1. lia.
Qed.

Lemma partition_loop_bounds fuel data a i j r m :
  partition_loop cmp fuel data a i j = Some (r, m) →
  a < i → a ≤ j → a ≤ m ≤ j.
Proof.
  revert data i j. induction fuel as [|fuel IH]; intros data i j; simpl;
    [done|].
  set (i' := scan_up _ _ _). set (j' := scan_down _ _ _).
  pose proof (scan_up_ge (λ i, less cmp data i a) i (S j - i)) as Hi.
  pose proof (scan_down_le (λ j, negb (less cmp data j a)) j (S j - i'))
    as Hj.
  pose proof (scan_down_ge (λ j, negb (less cmp data j a)) j (S j - i'))
    as Hj'.
  fold i' in Hi. fold j' in Hj, Hj'.
  case_bool_decide.
  - intros; simplify_eq. lia.
  - intros Hr ??. apply IH in Hr; lia.
Qed.

Lemma partitionCmpFunc_total data a b pivot :
  is_Some (partitionCmpFunc cmp data a b pivot).
Proof.
  unfold partitionCmpFunc.
  set (d := swap data a pivot).
  set (i := scan_up _ _ _). set (j := scan_down _ _ _).
  pose proof (scan_up_ge (λ i, less cmp d i a) (a + 1) (S (b - 1) - (a + 1)))
    as Hi.
  pose proof (scan_down_le (λ j, negb (less cmp d j a)) (b - 1)
                (S (b - 1) - i)) as Hj.
  fold i in Hi. fold j in Hj.
  case_bool_decide; [done|].
  destruct (partition_loop_total (S (b - a)) (swap d i j) a (S i) (pred j))
    as [[d' m] ->]; [lia|done].
Qed.

Lemma partitionCmpFunc_bounds data a b pivot r m p :
  partitionCmpFunc cmp data a b pivot = Some (r, m, p) →
  a < b → a ≤ m < b.
Proof.
  unfold partitionCmpFunc.
  set (d := swap data a pivot).
  set (i := scan_up _ _ _). set (j := scan_down _ _ _).
  pose proof (scan_up_ge (λ i, less cmp d i a) (a + 1) (S (b - 1) - (a + 1)))
    as Hi.
  pose proof (scan_down_le (λ j, negb (less cmp d j a)) (b - 1)
                (S (b - 1) - i)) as Hj.
  pose proof (scan_down_ge (λ j, negb (less cmp d j a)) (b - 1)
                (S (b - 1) - i)) as Hj'.
  fold i in Hi. fold j in Hj, Hj'.
  case_bool_decide.
  - intros; simplify_eq. lia.
  - destruct (partition_loop _ _ _ _ _ _) as [[d' k]|] eqn:Hd; simpl;
      [|done].
    intros; simplify_eq. apply partition_loop_bounds in Hd; lia.
Qed.

Lemma partitionEqual_loop_total fuel data a i j :
  S j - i < fuel → is_Some (partitionEqual_loop cmp fuel data a i j).
Proof.
  revert data i j. induction fuel as [|fuel IH]; intros data i j ?; simpl;
    [lia|].
  set (i' := scan_up _ _ _). set (j' := scan_down _ _ _).
  pose proof (scan_up_ge (λ i, negb (less cmp data a i)) i (S j - i)).
  pose proof (scan_down_le (λ j, less cmp data a j) j (S j - i')).
  case_bool_decide; [done|]. apply IH. fold i' j' in H0, H1. lia.
Qed.

Lemma partitionEqual_loop_bounds fuel data a i j r m :
  partitionEqual_loop cmp fuel data a i j = Some (r, m) → i ≤ m.
Proof.
  revert data i j. induction fuel as [|fuel IH]; intros data i j; simpl;
    [done|].
  set (i' := scan_up _ _ _). set (j' := scan_down _ _ _).
  pose proof (scan_up_ge (λ i, negb (less cmp data a i)) i (S j - i)) as Hi.
  fold i' in Hi.
  case_bool_decide.
  - intros; simplify_eq. lia.
  - intros Hr%IH. lia.
Qed.

Lemma partitionEqualCmpFunc_total data a b pivot :
  is_Some (partitionEqualCmpFunc cmp data a b pivot).
Proof. apply partitionEqual_loop_total. lia. Qed.

Lemma partitionEqualCmpFunc_bounds data a b pivot r m :
  partitionEqualCmpFunc cmp data a b pivot = Some (r, m) → a < m.
Proof. intros Hr%partitionEqual_loop_bounds. lia. Qed.

Lemma pdqsort_loop_total fuel data a b limit wb wp :
  b - a < fuel → is_Some (pdqsort_loop cmp fuel data a b limit wb wp).
Proof.
  revert data a b limit wb wp.
  induction fuel as [|fuel IH]; intros data a b limit wb wp Hfuel; simpl;
    [lia|].
  case_bool_decide as Hlen; [done|]. unfold maxInsertion in Hlen.
  case_bool_decide; [apply heapSortCmpFunc_total|].
  destruct (if negb wb then _ else _) as [data1 limit1].
  destruct (choosePivotCmpFunc _ _ _ _) as [pivot hint].
  destruct (match hint with decreasingHint => _ | _ => _ end)
    as [[data2 pivot2] hint2].
  destruct (match hint2 with increasingHint => _ | _ => _ end)
    as [data3 [|]]; [done|].
  case_match.
  - destruct (partitionEqualCmpFunc_total data3 a b pivot2) as [[d mid] Hp].
    rewrite Hp; simpl. apply partitionEqualCmpFunc_bounds in Hp.
    apply IH. lia.
  - destruct (partitionCmpFunc_total data3 a b pivot2) as [[[d mid] ap] Hp].
    rewrite Hp; simpl. apply partitionCmpFunc_bounds in Hp; [|lia].
    destruct (bool_decide (mid - a < b - mid)).
    + destruct (IH d a mid limit1 true true) as [d' ->]; [lia|]; simpl.
      apply IH. lia.
    + destruct (IH d (mid + 1) b limit1 true true) as [d' ->]; [lia|]; simpl.
      apply IH. lia.
Qed.

Lemma SortFunc_run_total x : SortFunc_run cmp x = Some (SortFunc cmp x).
Proof.
  unfold SortFunc.
  destruct (pdqsort_loop_total (S (length x - 0)) x 0 (length x)
              (bits_Len (length x)) true true) as [r Hr]; [lia|].
  unfold SortFunc_run, pdqsortCmpFunc. by rewrite Hr.
Qed.

Lemma SortFunc_Permutation x : SortFunc cmp x ≡ₚ x.
Proof. apply (SortFunc_run_Permutation cmp), SortFunc_run_total. Qed.

Lemma SortFunc_length x : length (SortFunc cmp x) = length x.
Proof. apply Permutation_length, SortFunc_Permutation. Qed.

Lemma SortFunc_small x :
  length x ≤ maxInsertion →
  SortFunc cmp x = insertionSortCmpFunc cmp x 0 (length x).
Proof.
  intros Hlen. unfold SortFunc, SortFunc_run, pdqsortCmpFunc. simpl.
  rewrite Nat.sub_0_r. by rewrite bool_decide_eq_true_2.
Qed.
End pdqsort_total.

(** * Short slices: insertion sort *)

Section insertion_sort.
Context {E : Type} (cmp : E → E → Z).
Implicit Types (data l : list E) (x y : E).

Lemma swap_adjacent l1 x y l2 :
  swap (l1 ++ y :: x :: l2) (S (length l1)) (length l1) = l1 ++ x :: y :: l2.
Proof.
  unfold swap.
  rewrite (lookup_app_r l1) by lia.
  replace (S (length l1) - length l1) with 1 by lia. simpl.
  rewrite list_lookup_middle by done.
  rewrite (insert_app_r_alt l1) by lia.
  replace (S (length l1) - length l1) with 1 by lia. simpl.
  rewrite (insert_app_r_alt l1) by lia. by rewrite Nat.sub_diag.
Qed.

Lemma less_adjacent l1 x y l2 :
  less cmp (l1 ++ y :: x :: l2) (S (length l1)) (length l1)
  = bool_decide (cmp x y < 0)%Z.
Proof.
  unfold less.
  rewrite (lookup_app_r l1) by lia.
  replace (S (length l1) - length l1) with 1 by lia. simpl.
  by rewrite list_lookup_middle.
Qed.

(** The inner loop moves [data[j]] into the prefix before it. *)
Lemma insertion_inner_insert_rev rpre x post :
  insertion_inner cmp (reverse rpre ++ x :: post) 0 (length rpre)
  = reverse (insert_rev cmp x rpre) ++ post.
Proof.
  revert post. induction rpre as [|y r IH]; intros post; simpl; [done|].
  rewrite reverse_cons, <- app_assoc. simpl.
  pose proof (less_adjacent (reverse r) x y post) as Hl.
  pose proof (swap_adjacent (reverse r) x y post) as Hs.
  rewrite length_reverse in Hl, Hs. rewrite Hl, Hs.
  case_bool_decide.
  - rewrite IH, reverse_cons, <- app_assoc. done.
  - by rewrite !reverse_cons, <- !app_assoc.
Qed.

Lemma insert_rev_length x l : length (insert_rev cmp x l) = S (length l).
Proof.
  induction l as [|y l IH]; simpl; [done|].
  case_bool_decide; simpl; by rewrite ?IH.
Qed.

Lemma insertion_outer_foldl rpre rest :
  insertion_outer cmp (reverse rpre ++ rest) 0 (length rpre) (length rest)
  = reverse (foldl (λ acc x, insert_rev cmp x acc) rpre rest).
Proof.
  revert rpre. induction rest as [|x rest IH]; intros rpre; simpl.
  { by rewrite app_nil_r. }
  rewrite insertion_inner_insert_rev.
  rewrite <- (insert_rev_length x rpre). apply IH.
Qed.

(** Insertion sort of a whole slice, as a fold. *)
Lemma insertionSortCmpFunc_foldl data :
  insertionSortCmpFunc cmp data 0 (length data)
  = reverse (foldl (λ acc x, insert_rev cmp x acc) [] data).
Proof.
  unfold insertionSortCmpFunc. destruct data as [|x rest]; [done|].
  simpl. rewrite Nat.sub_0_r.
  apply (insertion_outer_foldl [x] rest).
Qed.

(** ** Order and stability, for a comparator that agrees with a key *)

Context (key : E → Z).

Local Abbreviation agrees := (agrees cmp key).

Lemma insert_rev_Permutation x l : insert_rev cmp x l ≡ₚ x :: l.
Proof.
  induction l as [|y l IH]; simpl; [done|].
  case_bool_decide; [|done]. rewrite IH. apply Permutation_swap.
Qed.

Lemma insert_rev_sorted x l :
  agrees (x :: l) →
  StronglySorted (λ a b, key b ≤ key a)%Z l →
  StronglySorted (λ a b, key b ≤ key a)%Z (insert_rev cmp x l).
Proof.
  intros Hag Hs. induction Hs as [|y l Hs IH Hy]; simpl.
  { repeat constructor. }
  assert (agrees (x :: l)) as Hag'.
  { intros a b Ha Hb. apply Hag; set_solver. }
  case_bool_decide as Hlt.
  - apply Hag in Hlt; [|set_solver..].
    constructor; [by apply IH|].
    rewrite insert_rev_Permutation. constructor; [lia|done].
  - assert (¬ (key x < key y)%Z) as Hge.
    { intros Hk. apply Hlt. apply Hag; [set_solver..|done]. }
    constructor; [by constructor|].
    constructor; [lia|]. eapply Forall_impl; [exact Hy|].
    intros b Hb. simpl in Hb. lia.
Qed.

Lemma insert_rev_filter x l (p : Z) :
  agrees (x :: l) →
  filter (λ a, key a = p) (insert_rev cmp x l)
  = filter (λ a, key a = p) (x :: l).
Proof.
  intros Hag. induction l as [|y l IH]; simpl; [done|].
  assert (agrees (x :: l)) as Hag'.
  { intros a b Ha Hb. apply Hag; set_solver. }
  case_bool_decide as Hlt; [|done].
  apply Hag in Hlt; [|set_solver..].
  rewrite (filter_cons _ y), IH by done.
  rewrite (filter_cons _ x), (filter_cons _ x), (filter_cons _ y).
  repeat case_decide; try done. lia.
Qed.

Lemma foldl_insert_rev_Permutation acc rest :
  foldl (λ acc x, insert_rev cmp x acc) acc rest ≡ₚ rest ++ acc.
Proof.
  revert acc. induction rest as [|x rest IH]; intros acc; simpl; [done|].
  rewrite IH, insert_rev_Permutation. by rewrite Permutation_middle.
Qed.

Lemma foldl_insert_rev_sorted acc rest :
  agrees (rest ++ acc) →
  StronglySorted (λ a b, key b ≤ key a)%Z acc →
  StronglySorted (λ a b, key b ≤ key a)%Z
    (foldl (λ acc x, insert_rev cmp x acc) acc rest).
Proof.
  revert acc. induction rest as [|x rest IH]; intros acc Hag Hs; simpl;
    [done|].
  apply IH.
  - intros a b Ha Hb. apply Hag.
    + rewrite insert_rev_Permutation in Ha. set_solver.
    + rewrite insert_rev_Permutation in Hb. set_solver.
  - apply insert_rev_sorted; [|done].
    intros a b Ha Hb. apply Hag; set_solver.
Qed.

Lemma foldl_insert_rev_filter acc rest (p : Z) :
  agrees (rest ++ acc) →
  filter (λ a, key a = p) (foldl (λ acc x, insert_rev cmp x acc) acc rest)
  = reverse (filter (λ a, key a = p) rest) ++ filter (λ a, key a = p) acc.
Proof.
  revert acc. induction rest as [|x rest IH]; intros acc Hag; simpl; [done|].
  rewrite IH.
  - rewrite insert_rev_filter by (intros a b Ha Hb; apply Hag; set_solver).
    rewrite !(filter_cons _ x). case_decide; [|done].
    by rewrite reverse_cons, <- app_assoc.
  - intros a b Ha Hb. apply Hag.
    + rewrite insert_rev_Permutation in Ha. set_solver.
    + rewrite insert_rev_Permutation in Hb. set_solver.
Qed.

Lemma StronglySorted_reverse (R : relation E) l :
  StronglySorted R l → StronglySorted (flip R) (reverse l).
Proof.
  induction 1 as [|x l Hs IH Hx]; [constructor|].
  rewrite reverse_cons. apply StronglySorted_app; split_and!.
  - intros a b Ha Hb. apply list_elem_of_singleton in Hb as ->.
    rewrite elem_of_reverse in Ha. rewrite Forall_forall in Hx.
    by apply Hx.
  - done.
  - repeat constructor.
Qed.

(** A slice of at most [maxInsertion] elements is sorted by key, and
    elements of equal key keep their order. *)
Lemma SortFunc_small_sorted data :
  length data ≤ maxInsertion → agrees data →
  StronglySorted (λ a b, key a ≤ key b)%Z (SortFunc cmp data).
Proof.
  intros Hlen Hag. rewrite SortFunc_small, insertionSortCmpFunc_foldl by done.
  apply (StronglySorted_reverse (λ a b, key b ≤ key a)%Z).
  apply foldl_insert_rev_sorted; [by rewrite app_nil_r|constructor].
Qed.

Lemma SortFunc_small_stable data (p : Z) :
  length data ≤ maxInsertion → agrees data →
  filter (λ a, key a = p) (SortFunc cmp data)
  = filter (λ a, key a = p) data.
Proof.
  intros Hlen Hag. rewrite SortFunc_small, insertionSortCmpFunc_foldl by done.
  rewrite filter_reverse, foldl_insert_rev_filter
    by (by rewrite app_nil_r).
  by rewrite app_nil_r, reverse_involutive.
Qed.
End insertion_sort.

(** * Slices of any length: pattern-defeating quicksort *)

Section slice_ranges.
Context {E : Type} (cmp : E → E → Z) (key : E → Z).
Implicit Types (data r : list E) (a b i j k : nat).

Local Abbreviation K := (kat key).
Local Abbreviation agrees := (agrees cmp key).

Lemma same_range_refl a b data : same_range a b data data.
Proof. by split. Qed.

Lemma same_range_trans a b data r r' :
  same_range a b data r → same_range a b r r' → same_range a b data r'.
Proof.
  intros [Hp Hf] [Hp' Hf']. split; [by rewrite Hp'|].
  intros k Hk. by rewrite Hf', Hf.
Qed.

Lemma same_range_mono a b a' b' data r :
  a' ≤ a → b ≤ b' → same_range a b data r → same_range a' b' data r.
Proof. intros ?? [Hp Hf]. split; [done|]. intros k Hk. apply Hf. lia. Qed.

Lemma same_range_length a b data r :
  same_range a b data r → length r = length data.
Proof. intros [Hp _]. by apply Permutation_length. Qed.

Lemma same_range_agrees a b data r :
  same_range a b data r → agrees data → agrees r.
Proof.
  intros [Hp _] Hag x y Hx Hy. rewrite Hp in Hx, Hy. by apply Hag.
Qed.

Lemma same_range_kat a b data r k :
  same_range a b data r → k < a ∨ b ≤ k → K r k = K data k.
Proof. intros [_ Hf] Hk. unfold kat. by rewrite Hf. Qed.

Lemma swap_lookup_ne data i j k :
  k ≠ i → k ≠ j → swap data i j !! k = data !! k.
Proof.
  intros Hi Hj. unfold swap.
  destruct (data !! i) as [x|]; [|done].
  destruct (data !! j) as [y|]; [|done].
  by rewrite !list_lookup_insert_ne.
Qed.

Lemma swap_same_range a b data i j :
  a ≤ i < b → a ≤ j < b → same_range a b data (swap data i j).
Proof.
  intros Hi Hj. split; [apply swap_Permutation|].
  intros k Hk. apply swap_lookup_ne; lia.
Qed.

Lemma kat_swap data i j k :
  i < length data → j < length data →
  K (swap data i j) k
  = if decide (k = i) then K data j
    else if decide (k = j) then K data i else K data k.
Proof.
  intros Hi Hj. unfold kat, swap.
  destruct (lookup_lt_is_Some_2 _ _ Hi) as [x Hx].
  destruct (lookup_lt_is_Some_2 _ _ Hj) as [y Hy].
  rewrite Hx, Hy. repeat case_decide; subst.
  - destruct (decide (i = j)) as [->|Hne].
    + rewrite list_lookup_insert_eq by (by rewrite length_insert). congruence.
    + rewrite list_lookup_insert_ne, list_lookup_insert_eq by done. done.
  - by rewrite list_lookup_insert_eq by (by rewrite length_insert).
  - by rewrite !list_lookup_insert_ne.
Qed.

Lemma less_kat data i j :
  agrees data → i < length data → j < length data →
  less cmp data i j = bool_decide (K data i < K data j)%Z.
Proof.
  intros Hag Hi Hj. unfold less, kat.
  destruct (lookup_lt_is_Some_2 _ _ Hi) as [x Hx].
  destruct (lookup_lt_is_Some_2 _ _ Hj) as [y Hy].
  rewrite Hx, Hy. simpl. apply bool_decide_ext, Hag.
  - by eapply list_elem_of_lookup_2.
  - by eapply list_elem_of_lookup_2.
Qed.

(** What holds of every key in the range before holds of every key in it
    afterwards. *)
Lemma same_range_Forall (P : Z → Prop) a b data r :
  same_range a b data r → a ≤ b → b ≤ length data →
  (∀ i, a ≤ i → i < b → P (K data i)) →
  ∀ i, a ≤ i → i < b → P (K r i).
Proof.
  intros [Hp Hf] Hab Hb HP.
  assert (length r = length data) as Hlen by (by apply Permutation_length).
  assert (take a r = take a data) as Htake.
  { apply list_eq. intros k. destruct (decide (k < a)).
    - rewrite !lookup_take_lt by done. apply Hf. lia.
    - by rewrite !lookup_take_ge by lia. }
  assert (drop b r = drop b data) as Hdrop.
  { apply list_eq. intros k. rewrite !lookup_drop. apply Hf. lia. }
  assert (∀ l : list E, l = take a l ++ take (b - a) (drop a l) ++ drop b l)
    as Hsplit.
  { intros l. rewrite <- (take_drop a l) at 1. f_equal.
    rewrite <- (take_drop (b - a) (drop a l)) at 1. f_equal.
    rewrite drop_drop. f_equal. lia. }
  assert (take (b - a) (drop a r) ≡ₚ take (b - a) (drop a data)) as Hmid.
  { rewrite (Hsplit r), (Hsplit data), Htake, Hdrop in Hp at 1.
    apply Permutation_app_inv_l in Hp.
    by apply Permutation_app_inv_r in Hp. }
  intros i Hi Hib. unfold kat.
  destruct (lookup_lt_is_Some_2 r i) as [x Hx]; [lia|]. rewrite Hx. simpl.
  assert (x ∈ take (b - a) (drop a r)) as Hin.
  { apply list_elem_of_lookup. exists (i - a).
    rewrite lookup_take_lt, lookup_drop by lia.
    by replace (a + (i - a)) with i by lia. }
  rewrite Hmid in Hin. apply list_elem_of_lookup in Hin as [k Hk].
  apply lookup_take_Some in Hk as [Hk Hlt]. rewrite lookup_drop in Hk.
  specialize (HP (a + k)). unfold kat in HP. rewrite Hk in HP.
  apply HP; lia.
Qed.
End slice_ranges.

Section insertion_range.
Context {E : Type} (cmp : E → E → Z) (key : E → Z).
Implicit Types (data r : list E) (a b i j k : nat).

Local Abbreviation K := (kat key).
Local Abbreviation agrees := (agrees cmp key).

(** The inner loop: [data[a:i+1]] is sorted but for position [j], whose
    element is smaller than all behind it. *)
Lemma insertion_inner_sorted a i j data :
  a ≤ j → j ≤ i → i < length data → agrees data →
  (∀ k l, a ≤ k → k < l → l ≤ i → k ≠ j → l ≠ j → (K data k ≤ K data l)%Z) →
  (∀ l, j < l → l ≤ i → (K data j < K data l)%Z) →
  same_range a (S i) data (insertion_inner cmp data a j)
  ∧ sorted_range key (insertion_inner cmp data a j) a (S i).
Proof.
  revert data. induction j as [|j IH]; intros data Haj Hji Hi Hag H1 H2; simpl.
  - split; [apply same_range_refl|]. intros k l Hk Hkl Hl.
    destruct (decide (k = l)) as [->|]; [lia|].
    destruct (decide (k = 0)) as [->|]; [apply Z.lt_le_incl, H2; lia|].
    apply H1; lia.
  - destruct (bool_decide (a < S j) && less cmp data (S j) j) eqn:Hc.
    + apply andb_true_iff in Hc as [Ha%bool_decide_eq_true Hless].
      rewrite (less_kat cmp key) in Hless by (done || lia).
      apply bool_decide_eq_true in Hless.
      assert (same_range a (S i) data (swap data (S j) j)) as Hsw
        by (apply swap_same_range; lia).
      destruct (IH (swap data (S j) j)) as [Hsr Hso].
      * lia.
      * lia.
      * rewrite swap_length. lia.
      * by eapply same_range_agrees.
      * intros k l Hk Hkl Hl Hkj Hlj. rewrite !(kat_swap key) by lia.
        pose proof (H1 k l). pose proof (H1 j l). pose proof (H1 k j).
        repeat case_decide; lia.
      * intros l Hjl Hl. rewrite !(kat_swap key) by lia.
        pose proof (H2 l). repeat case_decide; lia.
      * split; [by eapply same_range_trans|done].
    + split; [apply same_range_refl|]. intros k l Hk Hkl Hl.
      assert (a = S j ∨ (K data j ≤ K data (S j))%Z) as Hstop.
      { apply andb_false_iff in Hc as [Ha%bool_decide_eq_false|Hless];
          [left; lia|right].
        rewrite (less_kat cmp key) in Hless by (done || lia).
        apply bool_decide_eq_false in Hless. lia. }
      pose proof (H1 k l). pose proof (H1 k j). pose proof (H2 l).
      destruct (decide (k = l)) as [->|]; [lia|].
      destruct Hstop; [destruct (decide (k = S j)); subst; lia|].
      destruct (decide (l = S j)); destruct (decide (k = S j));
        destruct (decide (k = j)); subst; lia.
Qed.

Lemma insertion_outer_sorted a b n i data :
  a < i → i + n = b → b ≤ length data → agrees data →
  sorted_range key data a i →
  same_range a b data (insertion_outer cmp data a i n)
  ∧ sorted_range key (insertion_outer cmp data a i n) a b.
Proof.
  revert data i. induction n as [|n IH]; intros data i Hai Hin Hb Hag Hs;
    simpl.
  { replace b with i by lia. split; [apply same_range_refl|done]. }
  destruct (insertion_inner_sorted a i i data) as [Hsr Hso];
    [lia..|done| |intros; lia|].
  { intros k l ?????. apply Hs; lia. }
  destruct (IH (insertion_inner cmp data a i) (S i)) as [Hsr' Hso'];
    [lia|lia| |by eapply same_range_agrees|done|].
  { by rewrite (same_range_length _ _ _ _ Hsr). }
  split; [|done]. eapply same_range_trans; [|exact Hsr'].
  eapply same_range_mono; [| |exact Hsr]; lia.
Qed.

Lemma insertionSortCmpFunc_sorted a b data :
  b ≤ length data → agrees data →
  same_range a b data (insertionSortCmpFunc cmp data a b)
  ∧ sorted_range key (insertionSortCmpFunc cmp data a b) a b.
Proof.
  intros Hb Hag. unfold insertionSortCmpFunc.
  destruct (decide (a + 1 ≤ b)) as [Hab|Hab].
  - apply insertion_outer_sorted; [lia..|done|].
    intros k l ???. replace l with k by lia. lia.
  - replace (b - (a + 1)) with 0 by lia. simpl.
    split; [apply same_range_refl|]. intros k l ???. lia.
Qed.
End insertion_range.

Section scans.
Implicit Types (p : nat → bool) (i j k n : nat).

Lemma scan_up_spec p i n :
  i ≤ scan_up p i n ∧ scan_up p i n ≤ i + n
  ∧ (∀ k, i ≤ k → k < scan_up p i n → p k = true)
  ∧ (scan_up p i n < i + n → p (scan_up p i n) = false).
Proof.
  revert i. induction n as [|n IH]; intros i; simpl.
  { split_and!; [lia..|intros; lia|intros; lia]. }
  destruct (p i) eqn:Hp.
  - destruct (IH (S i)) as (H1 & H2 & H3 & H4). split_and!; [lia..| |].
    + intros k Hk Hlt. destruct (decide (k = i)) as [->|]; [done|].
      apply H3; lia.
    + intros Hlt. apply H4. lia.
  - split_and!; [lia..|intros; lia|done].
Qed.

Lemma scan_down_spec p j n :
  n ≤ j →
  scan_down p j n ≤ j ∧ j ≤ scan_down p j n + n
  ∧ (∀ k, scan_down p j n < k → k ≤ j → p k = true)
  ∧ (j < scan_down p j n + n → p (scan_down p j n) = false).
Proof.
  revert j. induction n as [|n IH]; intros j Hn; simpl.
  { split_and!; [lia..|intros; lia|intros; lia]. }
  destruct (p j) eqn:Hp.
  - destruct (IH (pred j)) as (H1 & H2 & H3 & H4); [lia|].
    split_and!; [lia..| |].
    + intros k Hk Hlt. destruct (decide (k = j)) as [->|]; [done|].
      apply H3; lia.
    + intros Hlt. apply H4. lia.
  - split_and!; [lia..|intros; lia|done].
Qed.
End scans.

Section partition.
Context {E : Type} (cmp : E → E → Z) (key : E → Z).
Implicit Types (data r d : list E) (a b i j k m : nat).

Local Abbreviation K := (kat key).
Local Abbreviation agrees := (agrees cmp key).

Lemma partition_loop_spec fuel data a b i j r m :
  partition_loop cmp fuel data a i j = Some (r, m) →
  a < i → i ≤ S j → j < b → b ≤ length data → agrees data →
  (∀ k, a < k → k < i → (K data k < K data a)%Z) →
  (∀ k, j < k → k < b → (K data a ≤ K data k)%Z) →
  same_range (S a) b data r ∧ a ≤ m ∧ m < b
  ∧ (∀ k, a < k → k ≤ m → (K r k < K r a)%Z)
  ∧ (∀ k, m < k → k < b → (K r a ≤ K r k)%Z).
Proof.
  revert data i j. induction fuel as [|fuel IH];
    intros data i j Hrun Hai Hij Hjb Hb Hag Hlo Hhi; simpl in Hrun; [done|].
  set (i' := scan_up (λ i, less cmp data i a) i (S j - i)) in *.
  destruct (scan_up_spec (λ i, less cmp data i a) i (S j - i))
    as (Hi1 & Hi2 & Hi3 & Hi4). fold i' in Hi1, Hi2, Hi3, Hi4.
  set (j' := scan_down (λ j, negb (less cmp data j a)) j (S j - i')) in *.
  destruct (scan_down_spec (λ j, negb (less cmp data j a)) j (S j - i'))
    as (Hj1 & Hj2 & Hj3 & Hj4); [lia|]. fold j' in Hj1, Hj2, Hj3, Hj4.
  assert (∀ k, a < k → k < i' → (K data k < K data a)%Z) as Hlo'.
  { intros k Hk Hki. destruct (decide (k < i)); [by apply Hlo|].
    specialize (Hi3 k). rewrite (less_kat cmp key) in Hi3 by (done || lia).
    rewrite bool_decide_eq_true in Hi3. apply Hi3; lia. }
  assert (∀ k, j' < k → k < b → (K data a ≤ K data k)%Z) as Hhi'.
  { intros k Hk Hkb. destruct (decide (j < k)); [by apply Hhi|].
    specialize (Hj3 k). rewrite (less_kat cmp key) in Hj3 by (done || lia).
    rewrite negb_true_iff, bool_decide_eq_false in Hj3.
    apply Z.le_ngt. apply Hj3; lia. }
  case_bool_decide as Hcross.
  - simplify_eq. split_and!; [apply same_range_refl|lia|lia| |].
    + intros k Hk Hkm. apply Hlo'; lia.
    + done.
  - assert (K data a ≤ K data i')%Z as Hpi.
    { rewrite (less_kat cmp key) in Hi4 by (done || lia).
      rewrite bool_decide_eq_false in Hi4. apply Z.le_ngt, Hi4. lia. }
    assert (K data j' < K data a)%Z as Hpj.
    { rewrite (less_kat cmp key) in Hj4 by (done || lia).
      rewrite negb_false_iff, bool_decide_eq_true in Hj4. apply Hj4. lia. }
    assert (i' < j') as Hlt.
    { destruct (decide (i' = j')) as [Heq|]; [|lia]. rewrite Heq in Hpi. lia. }
    assert (same_range (S a) b data (swap data i' j')) as Hsw
      by (apply swap_same_range; lia).
    apply IH in Hrun as (Hsr & Hm1 & Hm2 & Hr1 & Hr2).
    + split_and!; [by eapply same_range_trans|done..].
    + lia.
    + lia.
    + lia.
    + by rewrite swap_length.
    + by eapply same_range_agrees.
    + intros k Hk Hki. rewrite !(kat_swap key) by lia.
      pose proof (Hlo' k). repeat case_decide; lia.
    + intros k Hk Hkb. rewrite !(kat_swap key) by lia.
      pose proof (Hhi' k). repeat case_decide; lia.
Qed.

Lemma partitionCmpFunc_loop data a b pivot r m fl :
  partitionCmpFunc cmp data a b pivot = Some (r, m, fl) →
  ∃ d, partition_loop cmp (S (S (b - a))) (swap data a pivot) a (a + 1) (b - 1)
         = Some (d, m)
       ∧ r = swap d m a.
Proof.
  unfold partitionCmpFunc.
  change (partition_loop cmp (S (S (b - a))) (swap data a pivot) a (a + 1) (b - 1))
    with (let i' := scan_up (λ i, less cmp (swap data a pivot) i a) (a + 1)
                      (S (b - 1) - (a + 1)) in
          let j' := scan_down (λ j, negb (less cmp (swap data a pivot) j a))
                      (b - 1) (S (b - 1) - i') in
          if bool_decide (j' < i') then Some (swap data a pivot, j')
          else partition_loop cmp (S (b - a))
                 (swap (swap data a pivot) i' j') a (S i') (pred j')).
  cbv zeta. case_bool_decide.
  - intros [= <- <- <-]. eexists. split; reflexivity.
  - destruct (partition_loop _ _ _ _ _ _) as [[d k]|]; simpl; [|done].
    intros [= <- <- <-]. eexists. split; reflexivity.
Qed.

(** One partition: the pivot ends at [m], smaller keys before it, the
    others behind it. *)
Lemma partitionCmpFunc_spec data a b pivot r m fl :
  partitionCmpFunc cmp data a b pivot = Some (r, m, fl) →
  a ≤ pivot → pivot < b → b ≤ length data → agrees data →
  same_range a b data r ∧ a ≤ m ∧ m < b
  ∧ (∀ k, a ≤ k → k < m → (K r k < K r m)%Z)
  ∧ (∀ k, m < k → k < b → (K r m ≤ K r k)%Z).
Proof.
  intros (d & Hloop & ->)%partitionCmpFunc_loop Hap Hpb Hb Hag.
  assert (same_range a b data (swap data a pivot)) as Hsw
    by (apply swap_same_range; lia).
  apply (partition_loop_spec _ _ a b) in Hloop
    as (Hsr & Hm1 & Hm2 & Hr1 & Hr2);
    [|lia|lia|lia|by rewrite swap_length|by eapply same_range_agrees
     |intros; lia|intros; lia].
  assert (length d = length data) as Hlen.
  { rewrite (same_range_length _ _ _ _ Hsr). apply swap_length. }
  split_and!; [|done..| |].
  - eapply same_range_trans; [exact Hsw|].
    eapply same_range_trans;
      [eapply same_range_mono; [| |exact Hsr]; lia|].
    apply swap_same_range; lia.
  - intros k Hk Hkm. rewrite !(kat_swap key) by lia.
    pose proof (Hr1 k). pose proof (Hr1 m). repeat case_decide; lia.
  - intros k Hk Hkb. rewrite !(kat_swap key) by lia.
    pose proof (Hr2 k). repeat case_decide; lia.
Qed.
End partition.

Section partition_equal.
Context {E : Type} (cmp : E → E → Z) (key : E → Z).
Implicit Types (data r d : list E) (a b i j k m : nat).

Local Abbreviation K := (kat key).
Local Abbreviation agrees := (agrees cmp key).

Lemma partitionEqual_loop_spec fuel data a b i j r m :
  partitionEqual_loop cmp fuel data a i j = Some (r, m) →
  a < i → i ≤ S j → j < b → b ≤ length data → agrees data →
  (∀ k, a < k → k < i → (K data k ≤ K data a)%Z) →
  (∀ k, j < k → k < b → (K data a < K data k)%Z) →
  same_range (S a) b data r ∧ a < m ∧ m ≤ b
  ∧ (∀ k, a < k → k < m → (K r k ≤ K r a)%Z)
  ∧ (∀ k, m ≤ k → k < b → (K r a < K r k)%Z).
Proof.
  revert data i j. induction fuel as [|fuel IH];
    intros data i j Hrun Hai Hij Hjb Hb Hag Hlo Hhi; simpl in Hrun; [done|].
  set (i' := scan_up (λ i, negb (less cmp data a i)) i (S j - i)) in *.
  destruct (scan_up_spec (λ i, negb (less cmp data a i)) i (S j - i))
    as (Hi1 & Hi2 & Hi3 & Hi4). fold i' in Hi1, Hi2, Hi3, Hi4.
  set (j' := scan_down (λ j, less cmp data a j) j (S j - i')) in *.
  destruct (scan_down_spec (λ j, less cmp data a j) j (S j - i'))
    as (Hj1 & Hj2 & Hj3 & Hj4); [lia|]. fold j' in Hj1, Hj2, Hj3, Hj4.
  assert (∀ k, a < k → k < i' → (K data k ≤ K data a)%Z) as Hlo'.
  { intros k Hk Hki. destruct (decide (k < i)); [by apply Hlo|].
    specialize (Hi3 k). rewrite (less_kat cmp key) in Hi3 by (done || lia).
    rewrite negb_true_iff, bool_decide_eq_false in Hi3.
    apply Z.le_ngt. apply Hi3; lia. }
  assert (∀ k, j' < k → k < b → (K data a < K data k)%Z) as Hhi'.
  { intros k Hk Hkb. destruct (decide (j < k)); [by apply Hhi|].
    specialize (Hj3 k). rewrite (less_kat cmp key) in Hj3 by (done || lia).
    rewrite bool_decide_eq_true in Hj3. apply Hj3; lia. }
  case_bool_decide as Hcross.
  - simplify_eq. split_and!; [apply same_range_refl|lia|lia|done|].
    intros k Hk Hkb. apply Hhi'; lia.
  - assert (K data a < K data i')%Z as Hpi.
    { rewrite (less_kat cmp key) in Hi4 by (done || lia).
      rewrite negb_false_iff, bool_decide_eq_true in Hi4. apply Hi4. lia. }
    assert (K data j' ≤ K data a)%Z as Hpj.
    { rewrite (less_kat cmp key) in Hj4 by (done || lia).
      rewrite bool_decide_eq_false in Hj4. apply Z.le_ngt, Hj4. lia. }
    assert (i' < j') as Hlt.
    { destruct (decide (i' = j')) as [Heq|]; [|lia]. rewrite Heq in Hpi. lia. }
    assert (same_range (S a) b data (swap data i' j')) as Hsw
      by (apply swap_same_range; lia).
    apply IH in Hrun as (Hsr & Hm1 & Hm2 & Hr1 & Hr2).
    + split_and!; [by eapply same_range_trans|done..].
    + lia.
    + lia.
    + lia.
    + by rewrite swap_length.
    + by eapply same_range_agrees.
    + intros k Hk Hki. rewrite !(kat_swap key) by lia.
      pose proof (Hlo' k). repeat case_decide; lia.
    + intros k Hk Hkb. rewrite !(kat_swap key) by lia.
      pose proof (Hhi' k). repeat case_decide; lia.
Qed.

(** Partition around a pivot that is a minimum of the range: the keys
    not above the pivot come first, the greater ones from [m] on. *)
Lemma partitionEqualCmpFunc_spec data a b pivot r m :
  partitionEqualCmpFunc cmp data a b pivot = Some (r, m) →
  a ≤ pivot → pivot < b → b ≤ length data → agrees data →
  same_range a b data r ∧ a < m ∧ m ≤ b
  ∧ K r a = K data pivot
  ∧ (∀ k, a ≤ k → k < m → (K r k ≤ K data pivot)%Z)
  ∧ (∀ k, m ≤ k → k < b → (K data pivot < K r k)%Z).
Proof.
  unfold partitionEqualCmpFunc. intros Hloop Hap Hpb Hb Hag.
  assert (same_range a b data (swap data a pivot)) as Hsw
    by (apply swap_same_range; lia).
  apply (partitionEqual_loop_spec _ _ a b) in Hloop
    as (Hsr & Hm1 & Hm2 & Hr1 & Hr2);
    [|lia|lia|lia|by rewrite swap_length|by eapply same_range_agrees
     |intros; lia|intros; lia].
  assert (K r a = K data pivot) as Hra.
  { rewrite (same_range_kat key _ _ _ _ _ Hsr) by lia.
    rewrite (kat_swap key) by lia. by rewrite decide_True. }
  split_and!; [|done..| |].
  - eapply same_range_trans; [exact Hsw|].
    eapply same_range_mono; [| |exact Hsr]; lia.
  - intros k Hk Hkm. destruct (decide (k = a)) as [->|]; [lia|].
    rewrite <- Hra. apply Hr1; lia.
  - intros k Hk Hkb. rewrite <- Hra. by apply Hr2.
Qed.
End partition_equal.

Section pdqsort_helpers.
Context {E : Type} (cmp : E → E → Z) (key : E → Z).
Implicit Types (data r d : list E) (a b i j k m : nat).

Local Abbreviation K := (kat key).
Local Abbreviation agrees := (agrees cmp key).

Lemma sorted_range_adjacent data a b :
  sorted_range key data a b ↔
  ∀ k, a < k → k < b → (K data (k - 1) ≤ K data k)%Z.
Proof.
  split.
  - intros Hs k Hk Hkb. apply Hs; lia.
  - intros Hadj i j Hi Hij Hj. induction Hij as [|j Hij IH]; [lia|].
    etrans; [apply IH; lia|]. specialize (Hadj (S j)).
    replace (S j - 1) with j in Hadj by lia. apply Hadj; lia.
Qed.

Lemma sorted_range_frame data r a b c :
  sorted_range key data a c → (∀ k, k < c → r !! k = data !! k) →
  sorted_range key r a c.
Proof.
  intros Hs Hf i j Hi Hij Hj. unfold kat. rewrite !Hf by lia. by apply Hs.
Qed.

Lemma bounded_below_same_range data r a b :
  same_range a b data r → a ≤ b → b ≤ length data →
  bounded_below key data a b → bounded_below key r a b.
Proof.
  intros Hsr Hab Hb Hbb Ha.
  rewrite (same_range_kat key _ _ _ _ _ Hsr) by lia.
  apply (same_range_Forall key (λ z, K data (a - 1) ≤ z)%Z a b data r);
    [done..|]. intros k Hk Hkb. apply Hbb; lia.
Qed.

(** ** [reverseRangeCmpFunc] and [breakPatternsCmpFunc] stay in range *)

Lemma reverseRange_loop_same_range a b (n : nat) data i :
  a ≤ i → i + n < b → same_range a b data (reverseRange_loop data i n).
Proof.
  revert data i. induction n as [n IH] using lt_wf_ind; intros data i Hi Hn.
  destruct n as [|[|n]]; simpl.
  - apply same_range_refl.
  - apply swap_same_range; lia.
  - apply same_range_trans with (swap data i (i + S (S n)));
      [apply swap_same_range; lia|apply IH; lia].
Qed.

Lemma reverseRangeCmpFunc_same_range a b data :
  same_range a b data (reverseRangeCmpFunc data a b).
Proof.
  unfold reverseRangeCmpFunc. destruct (decide (a < b)).
  - apply reverseRange_loop_same_range; lia.
  - replace (b - 1 - a) with 0 by lia. apply same_range_refl.
Qed.

Lemma nextPowerOfTwo_bound n : 0 < n → (nextPowerOfTwo n ≤ 2 * Z.of_nat n)%Z.
Proof.
  intros Hn. unfold nextPowerOfTwo, bits_Len. destruct n as [|n]; [lia|].
  rewrite Z.shiftl_1_l.
  destruct (Nat.log2_spec (S n)) as [Hlo _]; [lia|].
  rewrite Nat2Z.inj_succ, Z.pow_succ_r by lia.
  assert (2 ^ Z.of_nat (Nat.log2 (S n)) = Z.of_nat (2 ^ Nat.log2 (S n)))%Z
    as -> by (by rewrite Nat2Z.inj_pow).
  lia.
Qed.

Lemma breakPatterns_loop_same_range n a b data len idx i random modulus :
  a ≤ idx + i → idx + i + n ≤ b → len = b - a → 0 < len →
  (∃ e, (0 ≤ e)%Z ∧ modulus = (2 ^ e)%Z) → (modulus ≤ 2 * Z.of_nat len)%Z →
  same_range a b data
    (breakPatterns_loop n data a len idx i random modulus).
Proof.
  revert data i random. induction n as [|n IH];
    intros data i random Hlo Hhi -> Hlen (e & He & ->) Hmod; simpl.
  { apply same_range_refl. }
  set (random' := xorshift_Next random).
  assert (0 ≤ Z.land random' (2 ^ e - 1) < 2 ^ e)%Z as Hland.
  { replace (2 ^ e - 1)%Z with (Z.ones e) by (rewrite Z.ones_equiv; lia).
    rewrite Z.land_ones by done. apply Z.mod_pos_bound. lia. }
  eapply same_range_trans; [apply swap_same_range|apply IH]; try lia.
  - case_bool_decide; lia.
  - by exists e.
Qed.

Lemma breakPatternsCmpFunc_same_range a b data :
  same_range a b data (breakPatternsCmpFunc data a b).
Proof.
  unfold breakPatternsCmpFunc. case_bool_decide as Hlen;
    [|apply same_range_refl].
  assert (2 ≤ (b - a) / 4) by (apply Nat.div_le_lower_bound; lia).
  assert ((b - a) / 4 * 4 ≤ b - a)
    by (rewrite Nat.mul_comm; apply Nat.Div0.mul_div_le).
  apply breakPatterns_loop_same_range; try lia.
  - exists (Z.of_nat (bits_Len (b - a))). split; [lia|].
    unfold nextPowerOfTwo. by rewrite Z.shiftl_1_l.
  - apply nextPowerOfTwo_bound. lia.
Qed.

(** ** [choosePivotCmpFunc] picks an index of the range *)

Lemma medianCmpFunc_cases data a b c swaps :
  (medianCmpFunc cmp data a b c swaps).1 = a
  ∨ (medianCmpFunc cmp data a b c swaps).1 = b
  ∨ (medianCmpFunc cmp data a b c swaps).1 = c.
Proof.
  unfold medianCmpFunc, order2CmpFunc.
  repeat case_match; simplify_eq; simpl; auto.
Qed.

Lemma choosePivotCmpFunc_bounds data a b :
  8 ≤ b - a →
  a ≤ (choosePivotCmpFunc cmp data a b).1
  ∧ (choosePivotCmpFunc cmp data a b).1 < b.
Proof.
  intros Hlen. unfold choosePivotCmpFunc.
  assert (2 ≤ (b - a) / 4) by (apply Nat.div_le_lower_bound; lia).
  assert ((b - a) / 4 * 4 ≤ b - a)
    by (rewrite Nat.mul_comm; apply Nat.Div0.mul_div_le).
  set (q := (b - a) / 4) in *.
  rewrite bool_decide_eq_true_2 by done.
  assert (∀ jr : nat * nat, a + q - 1 ≤ jr.1 → jr.1 ≤ a + q * 3 + 1 →
            a ≤ (let '(j, swaps) := jr in
                 if bool_decide (swaps = 0) then (j, increasingHint)
                 else if bool_decide (swaps = maxSwaps) then (j, decreasingHint)
                 else (j, unknownHint)).1
            ∧ (let '(j, swaps) := jr in
                 if bool_decide (swaps = 0) then (j, increasingHint)
                 else if bool_decide (swaps = maxSwaps) then (j, decreasingHint)
                 else (j, unknownHint)).1 < b) as Hfin.
  { intros [j s] ??; simpl in *. repeat case_bool_decide; simpl; lia. }
  apply Hfin; clear Hfin.
  - case_bool_decide.
    + unfold medianAdjacentCmpFunc.
      pose proof (medianCmpFunc_cases data (a + q * 1 - 1) (a + q * 1)
                    (a + q * 1 + 1) 0) as Hm1.
      destruct (medianCmpFunc cmp data (a + q * 1 - 1) _ _ 0) as [i s1].
      pose proof (medianCmpFunc_cases data (a + q * 2 - 1) (a + q * 2)
                    (a + q * 2 + 1) s1) as Hm2.
      destruct (medianCmpFunc cmp data (a + q * 2 - 1) _ _ s1) as [j s2].
      pose proof (medianCmpFunc_cases data (a + q * 3 - 1) (a + q * 3)
                    (a + q * 3 + 1) s2) as Hm3.
      destruct (medianCmpFunc cmp data (a + q * 3 - 1) _ _ s2) as [k s3].
      pose proof (medianCmpFunc_cases data i j k s3). simpl in *. lia.
    + pose proof (medianCmpFunc_cases data (a + q * 1) (a + q * 2)
                    (a + q * 3) 0). lia.
  - case_bool_decide.
    + unfold medianAdjacentCmpFunc.
      pose proof (medianCmpFunc_cases data (a + q * 1 - 1) (a + q * 1)
                    (a + q * 1 + 1) 0) as Hm1.
      destruct (medianCmpFunc cmp data (a + q * 1 - 1) _ _ 0) as [i s1].
      pose proof (medianCmpFunc_cases data (a + q * 2 - 1) (a + q * 2)
                    (a + q * 2 + 1) s1) as Hm2.
      destruct (medianCmpFunc cmp data (a + q * 2 - 1) _ _ s1) as [j s2].
      pose proof (medianCmpFunc_cases data (a + q * 3 - 1) (a + q * 3)
                    (a + q * 3 + 1) s2) as Hm3.
      destruct (medianCmpFunc cmp data (a + q * 3 - 1) _ _ s2) as [k s3].
      pose proof (medianCmpFunc_cases data i j k s3). simpl in *. lia.
    + pose proof (medianCmpFunc_cases data (a + q * 1) (a + q * 2)
                    (a + q * 3) 0). lia.
Qed.
End pdqsort_helpers.

Section partial_insertion.
Context {E : Type} (cmp : E → E → Z) (key : E → Z).
Implicit Types (data r d : list E) (a b i j k m : nat).

Local Abbreviation K := (kat key).
Local Abbreviation agrees := (agrees cmp key).

(** The loop that shifts the smaller element to the left runs down to
    index 1; the element before the range stops it at [a]. *)
Lemma shift_left_insertion_inner a b j data :
  a ≤ j → j < b → b ≤ length data → agrees data →
  bounded_below key data a b →
  shift_left cmp data j = insertion_inner cmp data a j.
Proof.
  revert data. induction j as [|j IH]; intros data Haj Hjb Hb Hag Hbb; simpl;
    [done|].
  rewrite (less_kat cmp key) by (done || lia).
  destruct (decide (a < S j)) as [Ha|Ha].
  - rewrite (bool_decide_eq_true_2 (a < S j)) by done. simpl.
    case_bool_decide as Hlt; simpl; [|done].
    assert (same_range a b data (swap data (S j) j)) as Hsw
      by (apply swap_same_range; lia).
    apply IH; [lia|lia|by rewrite swap_length|by eapply same_range_agrees|].
    eapply bounded_below_same_range; [exact Hsw|lia|done..].
  - rewrite (bool_decide_eq_false_2 (a < S j)) by done. simpl.
    assert (a = S j) as -> by lia.
    rewrite bool_decide_eq_false_2; [done|].
    specialize (Hbb ltac:(lia) (S j)).
    replace (S j - 1) with j in Hbb by lia. lia.
Qed.

Lemma shift_right_same_range a b n j data :
  a < j → j + n ≤ b → same_range (j - 1) b data (shift_right cmp data j n).
Proof.
  revert data j. induction n as [|n IH]; intros data j Haj Hjn; simpl.
  { apply same_range_refl. }
  case_match; [apply same_range_refl|].
  apply same_range_trans with (swap data j (j - 1));
    [apply swap_same_range; lia|].
  eapply same_range_mono; [| |apply IH]; lia.
Qed.

Lemma partialInsertion_loop_spec steps a b i data :
  a < i → i ≤ b → b ≤ length data → agrees data →
  bounded_below key data a b → sorted_range key data a i →
  same_range a b data (partialInsertion_loop cmp steps data a b i).1
  ∧ ((partialInsertion_loop cmp steps data a b i).2 = true →
     sorted_range key (partialInsertion_loop cmp steps data a b i).1 a b).
Proof.
  revert data i. induction steps as [|steps IH];
    intros data i Hai Hib Hb Hag Hbb Hs; simpl.
  { split; [apply same_range_refl|done]. }
  set (i' := scan_up (λ i, negb (less cmp data i (i - 1))) i (b - i)).
  destruct (scan_up_spec (λ i, negb (less cmp data i (i - 1))) i (b - i))
    as (Hi1 & Hi2 & Hi3 & Hi4). fold i' in Hi1, Hi2, Hi3, Hi4.
  assert (sorted_range key data a i') as Hs'.
  { apply sorted_range_adjacent. intros k Hk Hki.
    destruct (decide (k < i)).
    - by apply (proj1 (sorted_range_adjacent key data a i)).
    - specialize (Hi3 k). rewrite (less_kat cmp key) in Hi3 by (done || lia).
      rewrite negb_true_iff, bool_decide_eq_false in Hi3.
      apply Z.le_ngt. apply Hi3; lia. }
  case_bool_decide as Hend.
  { simpl. split; [apply same_range_refl|]. intros _. by rewrite <- Hend. }
  case_bool_decide as Hshort.
  { simpl. split; [apply same_range_refl|done]. }
  set (d1 := swap data i' (i' - 1)).
  assert (same_range a b data d1) as Hd1 by (apply swap_same_range; lia).
  assert (length d1 = length data) as Hlen1 by apply swap_length.
  set (d2 := if bool_decide (2 ≤ i' - a) then shift_left cmp d1 (i' - 1)
             else d1).
  assert (d2 = insertion_inner cmp d1 a (i' - 1)) as Hd2eq.
  { unfold d2. case_bool_decide.
    - apply (shift_left_insertion_inner a b);
        [lia|lia|by rewrite Hlen1|by eapply same_range_agrees|].
      eapply bounded_below_same_range; [exact Hd1|lia|done..].
    - assert (i' - 1 = a) as -> by lia.
      destruct a as [|a']; simpl; [done|].
      by rewrite (bool_decide_eq_false_2 (S a' < S a')) by lia. }
  destruct (insertion_inner_sorted cmp key a (i' - 1) (i' - 1) d1)
    as [Hd2 Hs2]; [lia|lia|lia|by eapply same_range_agrees| |intros; lia|].
  { intros k l Hk Hkl Hl Hkj Hlj. unfold d1.
    rewrite !(kat_swap key) by lia.
    rewrite !decide_False by lia. apply Hs'; lia. }
  rewrite <- Hd2eq in Hd2, Hs2. replace (S (i' - 1)) with i' in Hd2, Hs2 by lia.
  clearbody d2. clear Hd2eq.
  set (d3 := if bool_decide (2 ≤ b - i')
             then shift_right cmp d2 (i' + 1) (b - (i' + 1)) else d2).
  assert (same_range i' b d2 d3) as Hd3.
  { unfold d3. case_bool_decide; [|apply same_range_refl].
    eapply same_range_mono;
      [| |apply (shift_right_same_range a b)]; lia. }
  assert (same_range a b data d3) as Hsr.
  { eapply same_range_trans; [exact Hd1|].
    eapply same_range_trans;
      [eapply same_range_mono; [| |exact Hd2]; lia|].
    eapply same_range_mono; [| |exact Hd3]; lia. }
  clearbody d3.
  destruct (IH d3 i') as [Hsr' Hs3]; [lia|lia| | | | |].
  - by rewrite (same_range_length _ _ _ _ Hsr).
  - by eapply same_range_agrees.
  - eapply bounded_below_same_range; [exact Hsr|lia|done..].
  - eapply (sorted_range_frame key d2 d3 a b i' Hs2).
    intros k Hk. apply Hd3. lia.
  - split; [by eapply same_range_trans|done].
Qed.

(** A pass that reports success leaves the range sorted. *)
Lemma partialInsertionSortCmpFunc_spec a b data :
  a < b → b ≤ length data → agrees data → bounded_below key data a b →
  same_range a b data (partialInsertionSortCmpFunc cmp data a b).1
  ∧ ((partialInsertionSortCmpFunc cmp data a b).2 = true →
     sorted_range key (partialInsertionSortCmpFunc cmp data a b).1 a b).
Proof.
  intros Hab Hb Hag Hbb. apply partialInsertion_loop_spec; [lia..|done|done|].
  intros k l ???. replace l with k by lia. lia.
Qed.
End partial_insertion.

Section heap_sort.
Context {E : Type} (cmp : E → E → Z) (key : E → Z).
Implicit Types (data r d : list E) (a b i j k m x c p : nat).

Local Abbreviation K := (kat key).
Local Abbreviation agrees := (agrees cmp key).

Lemma kat_swap_first data first i j x :
  first + i < length data → first + j < length data →
  K (swap data (first + i) (first + j)) (first + x)
  = if decide (x = i) then K data (first + j)
    else if decide (x = j) then K data (first + i) else K data (first + x).
Proof.
  intros Hi Hj. rewrite (kat_swap key) by done.
  repeat case_decide; (done || lia).
Qed.

Lemma siftDown_loop_S fuel data root hi first :
  siftDown_loop cmp (S fuel) data root hi first
  = let child := 2 * root + 1 in
    if bool_decide (hi ≤ child) then Some data else
    let child :=
      if bool_decide (child + 1 < hi)
         && less cmp data (first + child) (first + child + 1)
      then child + 1 else child in
    if negb (less cmp data (first + root) (first + child)) then Some data else
    siftDown_loop cmp fuel (swap data (first + root) (first + child))
                  child hi first.
Proof. done. Qed.

Lemma siftDown_loop_spec fuel data lo root hi first r :
  siftDown_loop cmp fuel data root hi first = Some r →
  lo ≤ root → first + hi ≤ length data → agrees data →
  (∀ x, lo ≤ x → x ≠ root → heap_at key data first hi x) →
  (∀ p c, lo ≤ p → root = 2 * p + 1 ∨ root = 2 * p + 2 →
          c = 2 * root + 1 ∨ c = 2 * root + 2 → c < hi →
          (K data (first + c) ≤ K data (first + p))%Z) →
  same_range (first + lo) (first + hi) data r
  ∧ ∀ x, lo ≤ x → heap_at key r first hi x.
Proof.
  revert data root. induction fuel as [|fuel IH];
    intros data root Hrun Hlo Hlen Hag H1 H2; [done|].
  rewrite siftDown_loop_S in Hrun. cbv zeta in Hrun.
  set (child := 2 * root + 1) in *.
  case_bool_decide as Hleaf.
  { simplify_eq. split; [apply same_range_refl|].
    intros x Hx. destruct (decide (x = root)) as [->|]; [|by apply H1].
    intros c Hc Hchi. lia. }
  set (c' := if bool_decide (child + 1 < hi)
                && less cmp data (first + child) (first + child + 1)
             then child + 1 else child) in *.
  assert ((c' = child ∨ c' = child + 1) ∧ c' < hi
          ∧ (K data (first + child) ≤ K data (first + c'))%Z
          ∧ (child + 1 < hi →
             (K data (first + (child + 1)) ≤ K data (first + c'))%Z))
    as (Hc' & Hc'hi & Hbig1 & Hbig2).
  { unfold c'. destruct (bool_decide (child + 1 < hi)) eqn:Hb; simpl.
    - apply bool_decide_eq_true in Hb.
      destruct (less cmp data (first + child) (first + child + 1)) eqn:Hl;
        rewrite (less_kat cmp key) in Hl by (done || lia);
        [apply bool_decide_eq_true in Hl|apply bool_decide_eq_false in Hl];
        rewrite <- Nat.add_assoc in Hl; split_and!; lia.
    - apply bool_decide_eq_false in Hb. split_and!; lia. }
  clearbody c'.
  destruct (less cmp data (first + root) (first + c')) eqn:Hless;
    simpl in Hrun.
  - rewrite (less_kat cmp key) in Hless by (done || lia).
    apply bool_decide_eq_true in Hless.
    apply IH in Hrun as [Hsr Hheap].
    + split; [|done].
      apply same_range_trans with (swap data (first + root) (first + c'));
        [apply swap_same_range; lia|exact Hsr].
    + lia.
    + by rewrite swap_length.
    + eapply (same_range_agrees _ _ 0 (length data));
        [apply swap_same_range; lia|done].
    + intros x Hx Hne c Hc Hchi.
      rewrite !kat_swap_first by lia.
      destruct (decide (x = root)) as [Heq|Hxr].
      * subst x. unfold child in *.
        repeat case_decide; subst; try lia.
        destruct Hc as [->| ->]; [lia|].
        replace (2 * root + 2) with (2 * root + 1 + 1) in * by lia. lia.
      * pose proof (H1 x Hx Hxr c Hc Hchi) as H1xc.
        pose proof (H2 x c' Hx) as H2x. unfold child in *.
        repeat case_decide; subst; lia.
    + intros p c Hp Hroot Hc Hchi.
      rewrite !kat_swap_first by lia.
      pose proof (H1 c' ltac:(lia) ltac:(lia) c Hc Hchi) as H1c.
      repeat case_decide; subst; unfold child in *; lia.
  - simplify_eq. split; [apply same_range_refl|].
    rewrite (less_kat cmp key) in Hless by (done || lia).
    apply bool_decide_eq_false in Hless.
    intros x Hx. destruct (decide (x = root)) as [->|]; [|by apply H1].
    intros c Hc Hchi. unfold child in *.
    destruct Hc as [->| ->].
    + lia.
    + replace (2 * root + 2) with (2 * root + 1 + 1) in * by lia. lia.
Qed.

Lemma siftDownCmpFunc_spec data lo hi first r :
  siftDownCmpFunc cmp data lo hi first = Some r →
  first + hi ≤ length data → agrees data →
  (∀ x, lo < x → heap_at key data first hi x) →
  same_range (first + lo) (first + hi) data r
  ∧ ∀ x, lo ≤ x → heap_at key r first hi x.
Proof.
  intros Hrun Hlen Hag H1.
  apply (siftDown_loop_spec _ _ lo) in Hrun; [done|lia|done|done| |].
  - intros x Hx Hne. apply H1. lia.
  - intros p c Hp Hroot. lia.
Qed.

Lemma heap_build_spec data hi first i r :
  heap_build cmp data hi first i = Some r →
  first + hi ≤ length data → agrees data →
  (∀ x, i < x → heap_at key data first hi x) →
  same_range first (first + hi) data r
  ∧ ∀ x, heap_at key r first hi x.
Proof.
  revert data. induction i as [|i IH]; intros data Hrun Hlen Hag H1;
    simpl in Hrun;
    destruct (siftDownCmpFunc _ _ _ _ _) as [d|] eqn:Hd; simpl in Hrun;
    try done;
    apply siftDownCmpFunc_spec in Hd as [Hsr Hheap]; try done.
  - simplify_eq. split.
    + eapply same_range_mono; [| |exact Hsr]; lia.
    + intros x. apply Hheap. lia.
  - apply IH in Hrun as [Hsr' Hheap'].
    + split; [|done]. eapply same_range_trans; [|exact Hsr'].
      eapply same_range_mono; [| |exact Hsr]; lia.
    + by rewrite (same_range_length _ _ _ _ Hsr).
    + by eapply same_range_agrees.
    + intros x Hx. apply Hheap. lia.
Qed.

(** The root of a heap carries a greatest key. *)
Lemma heap_root_max data first hi x :
  (∀ y, heap_at key data first hi y) → x < hi →
  (K data (first + x) ≤ K data (first + 0))%Z.
Proof.
  intros Hheap. induction x as [x IH] using lt_wf_ind. intros Hx.
  destruct x as [|x]; [lia|].
  assert (S x = 2 * (x / 2) + 1 ∨ S x = 2 * (x / 2) + 2) as Hpar.
  { pose proof (Nat.div_mod_eq x 2). pose proof (Nat.mod_upper_bound x 2).
    lia. }
  etrans; [apply (Hheap (x / 2) (S x) Hpar Hx)|].
  apply IH; [|]; pose proof (Nat.Div0.div_le_upper_bound x 2 x); lia.
Qed.

Lemma heap_pop_spec data first hi n r :
  heap_pop cmp data first n = Some r →
  n ≤ hi → first + hi ≤ length data → agrees data →
  (∀ x, heap_at key data first n x) →
  sorted_range key data (first + n) (first + hi) →
  (∀ x y, x < n → n ≤ y → y < hi →
          (K data (first + x) ≤ K data (first + y))%Z) →
  same_range first (first + hi) data r
  ∧ sorted_range key r first (first + hi).
Proof.
  revert data. induction n as [|i IH];
    intros data Hrun Hn Hlen Hag Hheap Hs Hle; simpl in Hrun.
  { simplify_eq. split; [apply same_range_refl|].
    by rewrite Nat.add_0_r in Hs. }
  set (d1 := swap data first (first + i)) in *.
  assert (same_range first (first + hi) data d1) as Hd1
    by (apply swap_same_range; lia).
  assert (length d1 = length data) as Hlen1 by apply swap_length.
  assert (∀ x, K d1 (first + x)
               = if decide (x = 0) then K data (first + i)
                 else if decide (x = i) then K data (first + 0)
                 else K data (first + x)) as Hk1.
  { intros x. unfold d1. rewrite <- (Nat.add_0_r first) at 1.
    apply kat_swap_first; lia. }
  assert (∀ x, x < S i → (K data (first + x) ≤ K data (first + 0))%Z) as Hmax
    by (intros x Hx; by apply heap_root_max with (S i)).
  destruct (siftDownCmpFunc _ _ _ _ _) as [d2|] eqn:Hd; simpl in Hrun;
    [|done].
  apply siftDownCmpFunc_spec in Hd as [Hd2 Hheap2];
    [|lia|by eapply same_range_agrees|].
  2:{ intros x Hx c Hc Hci. rewrite !Hk1.
      pose proof (Hheap x c Hc). repeat case_decide; lia. }
  rewrite Nat.add_0_r in Hd2.
  assert (∀ k, first + i ≤ k → K d2 k = K d1 k) as Hfr.
  { intros k Hk. apply (same_range_kat key _ _ _ _ _ Hd2). lia. }
  apply IH in Hrun as [Hsr Hsorted].
  - split; [|done]. eapply same_range_trans; [exact Hd1|].
    eapply same_range_trans; [|exact Hsr].
    eapply same_range_mono; [| |exact Hd2]; lia.
  - lia.
  - by rewrite (same_range_length _ _ _ _ Hd2), Hlen1.
  - eapply same_range_agrees; [exact Hd2|]. by eapply same_range_agrees.
  - intros x. apply Hheap2. lia.
  - assert (∀ x y, i ≤ x → x ≤ y → y < hi →
              (K d1 (first + x) ≤ K d1 (first + y))%Z) as Hxy.
    { intros x y Hx Hxy Hy. destruct (decide (x = y)) as [->|Hne]; [lia|].
      rewrite !Hk1.
      pose proof (Hle 0 y) as Hle0. pose proof (Hs (first + x) (first + y)).
      rewrite Nat.add_0_r in *.
      destruct (decide (i = 0)) as [->|Hi0];
        repeat case_decide; subst; rewrite ?Nat.add_0_r in *; lia. }
    intros k l Hk Hkl Hl. rewrite !Hfr by lia.
    replace k with (first + (k - first)) by lia.
    replace l with (first + (l - first)) by lia. apply Hxy; lia.
  - intros x y Hx Hy Hyhi. rewrite (Hfr (first + y)) by lia.
    revert x Hx.
    assert (∀ k, first ≤ k → k < first + i →
               (K d2 k ≤ K d1 (first + y))%Z) as Hall.
    { apply (same_range_Forall key (λ z, z ≤ K d1 (first + y))%Z
               first (first + i) d1 d2 Hd2); [lia|lia|].
      intros k Hk Hki. replace k with (first + (k - first)) by lia.
      rewrite !Hk1. pose proof (Hle (k - first) y) as Hle1.
      pose proof (Hle i y) as Hle2. pose proof (Hmax (k - first)) as Hmax1.
      pose proof (Hmax i) as Hmax2. rewrite Nat.add_0_r in *.
      repeat case_decide; subst; rewrite ?Nat.add_0_r in *; lia. }
    intros x Hx. apply Hall; lia.
Qed.

Lemma heapSortCmpFunc_spec data a b r :
  heapSortCmpFunc cmp data a b = Some r →
  a ≤ b → b ≤ length data → agrees data →
  same_range a b data r ∧ sorted_range key r a b.
Proof.
  unfold heapSortCmpFunc. intros Hrun Hab Hb Hag.
  destruct (heap_build _ _ _ _ _) as [d|] eqn:Hd; simpl in Hrun; [|done].
  apply heap_build_spec in Hd as [Hsr Hheap]; [|lia|done|].
  2:{ intros x Hx c Hc Hchi.
      pose proof (Nat.div_mod_eq (b - a - 1) 2).
      pose proof (Nat.mod_upper_bound (b - a - 1) 2). lia. }
  replace (a + (b - a)) with b in Hsr by lia.
  apply (heap_pop_spec _ _ (b - a)) in Hrun as [Hsr' Hs];
    [|lia|by rewrite (same_range_length _ _ _ _ Hsr); lia
     |by eapply same_range_agrees|done| |intros; lia].
  2:{ intros k l ???. lia. }
  replace (a + (b - a)) with b in Hsr', Hs by lia.
  split; [by eapply same_range_trans|done].
Qed.
End heap_sort.

Section pdqsort_sorted.
Context {E : Type} (cmp : E → E → Z) (key : E → Z).
Implicit Types (data r d : list E) (a b i j k m : nat).

Local Abbreviation K := (kat key).
Local Abbreviation agrees := (agrees cmp key).

Lemma sorted_range_join data a mid b :
  sorted_range key data a mid → sorted_range key data (mid + 1) b →
  (∀ k, a ≤ k → k < mid → (K data k ≤ K data mid)%Z) →
  (∀ k, mid < k → k < b → (K data mid ≤ K data k)%Z) →
  sorted_range key data a b.
Proof.
  intros Hl Hr Hlo Hhi i j Hi Hij Hj.
  destruct (decide (j < mid)); [apply Hl; lia|].
  destruct (decide (mid < i)); [apply Hr; lia|].
  destruct (decide (i = mid)) as [->|]; destruct (decide (j = mid)) as [->|];
    try lia.
  - apply Hhi; lia.
  - apply Hlo; lia.
  - etrans; [apply Hlo|apply Hhi]; lia.
Qed.

Lemma bounded_below_mono data a b b' :
  b' ≤ b → bounded_below key data a b → bounded_below key data a b'.
Proof. intros Hb Hbb Ha k Hk Hkb. apply Hbb; lia. Qed.

Lemma pdqsort_loop_sorted fuel data a b limit wb wp r :
  pdqsort_loop cmp fuel data a b limit wb wp = Some r →
  a ≤ b → b ≤ length data → agrees data → bounded_below key data a b →
  same_range a b data r ∧ sorted_range key r a b.
Proof.
  revert data a b limit wb wp r.
  induction fuel as [|fuel IH];
    intros data a b limit wb wp r Hrun Hab Hb Hag Hbb; simpl in Hrun;
    [done|].
  case_bool_decide as Hlen.
  { simplify_eq. by apply insertionSortCmpFunc_sorted. }
  unfold maxInsertion in Hlen.
  case_bool_decide as Hlimit; [by apply (heapSortCmpFunc_spec cmp)|].
  set (p1 := if negb wb then _ else _) in Hrun.
  assert (same_range a b data p1.1) as Hd1.
  { unfold p1. destruct wb; simpl; [apply same_range_refl|].
    apply breakPatternsCmpFunc_same_range. }
  destruct p1 as [d1 limit1]; simpl in Hd1.
  pose proof (choosePivotCmpFunc_bounds cmp d1 a b ltac:(lia)) as Hpivot.
  destruct (choosePivotCmpFunc cmp d1 a b) as [pivot hint].
  simpl in Hpivot.
  set (p2 := match hint with decreasingHint => _ | _ => _ end) in Hrun.
  assert (same_range a b data p2.1.1 ∧ a ≤ p2.1.2 ∧ p2.1.2 < b)
    as (Hd2 & Hp2a & Hp2b).
  { unfold p2. destruct hint; simpl; split_and!; try done; try lia.
    eapply same_range_trans; [exact Hd1|].
    apply reverseRangeCmpFunc_same_range. }
  destruct p2 as [[d2 pivot2] hint2]; simpl in Hd2, Hp2a, Hp2b.
  assert (length d2 = length data) as Hlen2
    by apply (same_range_length _ _ _ _ Hd2).
  assert (agrees d2) as Hag2 by (by eapply same_range_agrees).
  assert (bounded_below key d2 a b) as Hbb2
    by (by eapply bounded_below_same_range).
  set (p3 := match hint2 with increasingHint => _ | _ => _ end) in Hrun.
  assert (same_range a b d2 p3.1
          ∧ (p3.2 = true → sorted_range key p3.1 a b)) as [Hd3 Hs3].
  { unfold p3. destruct hint2; simpl;
      try (split; [apply same_range_refl|done]).
    destruct (wb && wp); simpl; [|split; [apply same_range_refl|done]].
    apply partialInsertionSortCmpFunc_spec; [lia..|done|done]. }
  destruct p3 as [d3 sorted]; simpl in Hd3, Hs3.
  destruct sorted.
  { simplify_eq. split; [by eapply same_range_trans|by apply Hs3]. }
  clear Hs3.
  assert (same_range a b data d3) as Hdd3 by (by eapply same_range_trans).
  assert (length d3 = length data) as Hlen3
    by apply (same_range_length _ _ _ _ Hdd3).
  assert (agrees d3) as Hag3 by (by eapply same_range_agrees).
  assert (bounded_below key d3 a b) as Hbb3
    by (by eapply bounded_below_same_range).
  destruct (bool_decide (0 < a) && negb (less cmp d3 (a - 1) pivot2))
    eqn:Hequal.
  - (* the pivot equals the element before the range *)
    apply andb_true_iff in Hequal as [Ha%bool_decide_eq_true Hnl].
    rewrite (less_kat cmp key) in Hnl by (done || lia).
    rewrite negb_true_iff, bool_decide_eq_false in Hnl.
    destruct (partitionEqualCmpFunc cmp d3 a b pivot2) as [[d4 mid]|] eqn:Hp;
      simpl in Hrun; [|done].
    apply (partitionEqualCmpFunc_spec cmp key) in Hp
      as (Hd4 & Hm1 & Hm2 & _ & Hlo & Hhi); [|lia..|done].
    assert (length d4 = length data) as Hlen4
      by (by rewrite (same_range_length _ _ _ _ Hd4)).
    assert (bounded_below key d4 a b) as Hbb4
      by (eapply bounded_below_same_range; [exact Hd4|lia..|done]).
    assert (K d4 (a - 1) = K d3 (a - 1)) as Hpre
      by (apply (same_range_kat key _ _ _ _ _ Hd4); lia).
    pose proof (Hbb3 Ha pivot2 Hp2a Hp2b) as Hpv.
    assert (∀ k, a ≤ k → k < mid → K d4 k = K d3 pivot2) as Heq.
    { intros k Hk Hkm. pose proof (Hlo k Hk Hkm).
      pose proof (Hbb4 Ha k Hk ltac:(lia)). lia. }
    apply IH in Hrun as [Hsr Hs]; [|lia|lia|by eapply same_range_agrees|].
    2:{ intros _ k Hk Hkb. pose proof (Hhi k Hk Hkb).
        pose proof (Heq (mid - 1)). lia. }
    assert (same_range a b d4 r) as Hsr'
      by (eapply same_range_mono; [| |exact Hsr]; lia).
    split.
    { eapply same_range_trans; [exact Hdd3|].
      eapply same_range_trans; [exact Hd4|done]. }
    assert (∀ k, a ≤ k → k < mid → K r k = K d3 pivot2) as Heq'.
    { intros k Hk Hkm. rewrite (same_range_kat key _ _ _ _ _ Hsr) by lia.
      by apply Heq. }
    assert (∀ k, mid ≤ k → k < b → (K d3 pivot2 < K r k)%Z) as Hhi'.
    { apply (same_range_Forall key (λ z, K d3 pivot2 < z)%Z mid b d4 r);
        [done|lia|lia|done]. }
    intros i j Hi Hij Hj.
    destruct (decide (j < mid)); [rewrite !Heq' by lia; lia|].
    destruct (decide (i < mid)); [|apply Hs; lia].
    rewrite Heq' by lia. apply Z.lt_le_incl, Hhi'; lia.
  - (* an ordinary partition *)
    clear Hequal.
    destruct (partitionCmpFunc cmp d3 a b pivot2) as [[[d4 mid] ap]|] eqn:Hp;
      simpl in Hrun; [|done].
    apply (partitionCmpFunc_spec cmp key) in Hp
      as (Hd4 & Hm1 & Hm2 & Hlo & Hhi); [|lia..|done].
    assert (length d4 = length data) as Hlen4
      by (by rewrite (same_range_length _ _ _ _ Hd4)).
    assert (agrees d4) as Hag4 by (by eapply same_range_agrees).
    assert (bounded_below key d4 a b) as Hbb4
      by (eapply bounded_below_same_range; [exact Hd4|lia..|done]).
    destruct (bool_decide (mid - a < b - mid)).
    + destruct (pdqsort_loop cmp fuel d4 a mid limit1 true true)
        as [r1|] eqn:Hr1; simpl in Hrun; [|done].
      apply IH in Hr1 as [Hsr1 Hs1];
        [|lia|lia|done|by eapply bounded_below_mono; [|exact Hbb4]; lia].
      assert (length r1 = length data) as Hlenr1
        by (by rewrite (same_range_length _ _ _ _ Hsr1)).
      assert (K r1 mid = K d4 mid) as Hmid1
        by (apply (same_range_kat key _ _ _ _ _ Hsr1); lia).
      assert (∀ k, mid < k → k < b → (K d4 mid ≤ K r1 k)%Z) as Hhi1.
      { intros k Hk Hkb. rewrite (same_range_kat key _ _ _ _ _ Hsr1) by lia.
        by apply Hhi. }
      apply IH in Hrun as [Hsr2 Hs2];
        [|lia|lia|by eapply same_range_agrees|].
      2:{ intros _ k Hk Hkb. replace (mid + 1 - 1) with mid by lia.
          rewrite Hmid1. apply Hhi1; lia. }
      split.
      { eapply same_range_trans; [exact Hdd3|].
        eapply same_range_trans; [exact Hd4|].
        eapply same_range_trans;
          [eapply same_range_mono; [| |exact Hsr1]; lia|].
        eapply same_range_mono; [| |exact Hsr2]; lia. }
      assert (∀ k, k < mid + 1 → K r k = K r1 k) as Hfr
        by (intros k Hk; apply (same_range_kat key _ _ _ _ _ Hsr2); lia).
      apply sorted_range_join with mid.
      * intros i j Hi Hij Hj. rewrite !Hfr by lia. by apply Hs1.
      * done.
      * intros k Hk Hkm. rewrite !Hfr by lia. rewrite Hmid1.
        apply Z.lt_le_incl.
        apply (same_range_Forall key (λ z, z < K d4 mid)%Z a mid d4 r1);
          [done|lia|lia|done..].
      * intros k Hk Hkb. rewrite (Hfr mid) by lia. rewrite Hmid1.
        apply (same_range_Forall key (λ z, K d4 mid ≤ z)%Z (mid + 1) b r1 r);
          [done|lia|lia| |lia|done].
        intros k' Hk' Hkb'. apply Hhi1; lia.
    + destruct (pdqsort_loop cmp fuel d4 (mid + 1) b limit1 true true)
        as [r1|] eqn:Hr1; simpl in Hrun; [|done].
      apply IH in Hr1 as [Hsr1 Hs1]; [|lia|lia|done|].
      2:{ intros _ k Hk Hkb. replace (mid + 1 - 1) with mid by lia.
          apply Hhi; lia. }
      assert (length r1 = length data) as Hlenr1
        by (by rewrite (same_range_length _ _ _ _ Hsr1)).
      assert (∀ k, k < mid + 1 → K r1 k = K d4 k) as Hfr1
        by (intros k Hk; apply (same_range_kat key _ _ _ _ _ Hsr1); lia).
      apply IH in Hrun as [Hsr2 Hs2];
        [|lia|lia|by eapply same_range_agrees|].
      2:{ intros Ha k Hk Hkm. rewrite !Hfr1 by lia. apply Hbb4; lia. }
      split.
      { eapply same_range_trans; [exact Hdd3|].
        eapply same_range_trans; [exact Hd4|].
        eapply same_range_trans;
          [eapply same_range_mono; [| |exact Hsr1]; lia|].
        eapply same_range_mono; [| |exact Hsr2]; lia. }
      assert (∀ k, mid ≤ k → K r k = K r1 k) as Hfr
        by (intros k Hk; apply (same_range_kat key _ _ _ _ _ Hsr2); lia).
      apply sorted_range_join with mid.
      * done.
      * intros i j Hi Hij Hj. rewrite !Hfr by lia. by apply Hs1.
      * intros k Hk Hkm. rewrite (Hfr mid), Hfr1 by lia.
        apply Z.lt_le_incl.
        apply (same_range_Forall key (λ z, z < K d4 mid)%Z a mid r1 r);
          [done|lia|lia| |lia|done].
        intros k' Hk' Hkm'. rewrite Hfr1 by lia. by apply Hlo.
      * intros k Hk Hkb. rewrite !Hfr by lia. rewrite (Hfr1 mid) by lia.
        apply (same_range_Forall key (λ z, K d4 mid ≤ z)%Z (mid + 1) b d4 r1);
          [done|lia|lia| |lia|done].
        intros k' Hk' Hkb'. apply Hhi; lia.
Qed.

(** [SortFunc] sorts: whatever the length of the slice, the result is in
    ascending order of key when the comparator agrees with the key. *)
Lemma SortFunc_sorted (x : list E) :
  agrees x → StronglySorted (λ e1 e2, key e1 ≤ key e2)%Z (SortFunc cmp x).
Proof.
  intros Hag. pose proof (SortFunc_run_total cmp x) as Hrun.
  apply pdqsort_loop_sorted in Hrun as [Hsr Hs];
    [|lia|lia|done|intros ?; lia].
  assert (length (SortFunc cmp x) = length x) as Hlen
    by apply SortFunc_length.
  rewrite <- Hlen in Hs. clear Hlen Hsr Hag.
  induction (SortFunc cmp x) as [|e l IH]; [constructor|].
  constructor.
  - apply IH. intros i j Hi Hij Hj. apply (Hs (S i) (S j)); simpl; lia.
  - apply Forall_forall. intros e' [i Hi]%list_elem_of_lookup.
    specialize (Hs 0 (S i) ltac:(lia) ltac:(lia)).
    unfold kat in Hs. simpl in Hs. rewrite Hi in Hs. apply Hs.
    apply lookup_lt_Some in Hi. simpl. lia.
Qed.
End pdqsort_sorted.

(** * The sorting routines stay inside the slice *)

Section checked_facts.
Context {E : Type} (cmp : E → E → Z).
Implicit Types (data r : list E) (a b i j k n : nat).

Lemma bind_Some_l {A B} (f : A → option B) (x : A) : Some x ≫= f = f x.
Proof. done. Qed.

Lemma checked_less data i j :
  i < length data → j < length data →
  checked.less cmp data i j = Some (less cmp data i j).
Proof.
  intros [x Hx]%lookup_lt_is_Some [y Hy]%lookup_lt_is_Some.
  unfold checked.less, less. by rewrite Hx, Hy.
Qed.

Lemma checked_swap data i j :
  i < length data → j < length data →
  checked.swap data i j = Some (swap data i j).
Proof.
  intros [x Hx]%lookup_lt_is_Some [y Hy]%lookup_lt_is_Some.
  unfold checked.swap, swap. by rewrite Hx, Hy.
Qed.

Lemma insertion_inner_length data a j :
  length (insertion_inner cmp data a j) = length data.
Proof. apply Permutation_length, insertion_inner_Permutation. Qed.

Lemma checked_insertion_inner data a j :
  j < length data →
  checked.insertion_inner cmp data a j = Some (insertion_inner cmp data a j).
Proof.
  revert data. induction j as [|j IH]; intros data Hj; simpl; [done|].
  case_bool_decide; [|done]. simpl.
  rewrite checked_less by lia. simpl.
  destruct (less cmp data (S j) j); [|done].
  rewrite checked_swap by lia. simpl.
  apply IH. rewrite swap_length. lia.
Qed.

Lemma checked_insertion_outer data a i n :
  n = 0 ∨ i + n ≤ length data →
  checked.insertion_outer cmp data a i n
  = Some (insertion_outer cmp data a i n).
Proof.
  revert data i. induction n as [|n IH]; intros data i Hn; simpl; [done|].
  rewrite checked_insertion_inner by lia. simpl.
  apply IH. rewrite insertion_inner_length. lia.
Qed.

Lemma checked_insertionSortCmpFunc data a b :
  b ≤ length data →
  checked.insertionSortCmpFunc cmp data a b
  = Some (insertionSortCmpFunc cmp data a b).
Proof.
  intros Hb. apply checked_insertion_outer. lia.
Qed.

Lemma siftDownCmpFunc_length data lo hi first r :
  siftDownCmpFunc cmp data lo hi first = Some r → length r = length data.
Proof. intros H%siftDownCmpFunc_Permutation. by apply Permutation_length. Qed.

Lemma checked_siftDown_loop fuel data root hi first :
  first + hi ≤ length data →
  checked.siftDown_loop cmp fuel data root hi first
  = siftDown_loop cmp fuel data root hi first.
Proof.
  revert data root. induction fuel as [|fuel IH]; intros data root Hhi;
    simpl; [done|].
  case_bool_decide as Hchild; [done|].
  case_bool_decide as Hnext; simpl.
  - rewrite checked_less by lia. simpl.
    destruct (less cmp data (first + (root + (root + 0) + 1))
                (first + (root + (root + 0) + 1) + 1)).
    + rewrite checked_less by lia. simpl.
      destruct (less cmp data (first + root) _); simpl; [|done].
      rewrite checked_swap by lia. simpl.
      apply IH. rewrite swap_length. lia.
    + rewrite checked_less by lia. simpl.
      destruct (less cmp data (first + root) _); simpl; [|done].
      rewrite checked_swap by lia. simpl.
      apply IH. rewrite swap_length. lia.
  - rewrite checked_less by lia. simpl.
    destruct (less cmp data (first + root) _); simpl; [|done].
    rewrite checked_swap by lia. simpl.
    apply IH. rewrite swap_length. lia.
Qed.

Lemma checked_siftDownCmpFunc data lo hi first :
  first + hi ≤ length data →
  checked.siftDownCmpFunc cmp data lo hi first
  = siftDownCmpFunc cmp data lo hi first.
Proof. apply checked_siftDown_loop. Qed.

Lemma checked_heap_build data hi first i :
  first + hi ≤ length data →
  checked.heap_build cmp data hi first i = heap_build cmp data hi first i.
Proof.
  revert data. induction i as [|i IH]; intros data Hhi; simpl;
    rewrite checked_siftDownCmpFunc by done;
    destruct (siftDownCmpFunc cmp data _ hi first) as [d|] eqn:Hd; simpl;
    try done.
  apply IH. by rewrite (siftDownCmpFunc_length _ _ _ _ _ Hd).
Qed.

Lemma checked_heap_pop data first n :
  first + n ≤ length data →
  checked.heap_pop cmp data first n = heap_pop cmp data first n.
Proof.
  revert data. induction n as [|n IH]; intros data Hn; simpl; [done|].
  rewrite checked_swap by lia. simpl.
  rewrite checked_siftDownCmpFunc by (rewrite swap_length; lia).
  destruct (siftDownCmpFunc cmp _ 0 n first) as [d|] eqn:Hd; simpl; [|done].
  apply IH. rewrite (siftDownCmpFunc_length _ _ _ _ _ Hd), swap_length. lia.
Qed.

Lemma checked_heapSortCmpFunc data a b :
  a ≤ b → b ≤ length data →
  checked.heapSortCmpFunc cmp data a b = heapSortCmpFunc cmp data a b.
Proof.
  intros Hab Hb. unfold checked.heapSortCmpFunc, heapSortCmpFunc.
  rewrite checked_heap_build by lia.
  destruct (heap_build cmp data _ _ _) as [d|] eqn:Hd; simpl; [|done].
  apply checked_heap_pop.
  apply heap_build_Permutation, Permutation_length in Hd. lia.
Qed.

Lemma checked_scan_up (pc : nat → option bool) (p : nat → bool) i n :
  (∀ k, i ≤ k → k < i + n → pc k = Some (p k)) →
  checked.scan_up pc i n = Some (scan_up p i n).
Proof.
  revert i. induction n as [|n IH]; intros i Hp; simpl; [done|].
  rewrite Hp by lia. simpl. destruct (p i); [|done].
  apply IH. intros k ??. apply Hp; lia.
Qed.

Lemma checked_scan_down (pc : nat → option bool) (p : nat → bool) j n :
  (∀ k, k ≤ j → j < k + n → pc k = Some (p k)) →
  checked.scan_down pc j n = Some (scan_down p j n).
Proof.
  revert j. induction n as [|n IH]; intros j Hp; simpl; [done|].
  rewrite Hp by lia. simpl. destruct (p j); [|done].
  apply IH. intros k ??. apply Hp; lia.
Qed.

Lemma checked_partition_loop fuel data a i j :
  a < length data → j < length data →
  checked.partition_loop cmp fuel data a i j
  = partition_loop cmp fuel data a i j.
Proof.
  revert data i j. induction fuel as [|fuel IH]; intros data i j Ha Hj;
    simpl; [done|].
  rewrite (checked_scan_up _ (λ i, less cmp data i a)).
  2:{ intros k ??. apply checked_less; lia. }
  simpl.
  rewrite (checked_scan_down _ (λ j, negb (less cmp data j a))).
  2:{ intros k ??. rewrite checked_less by lia. done. }
  simpl.
  set (i' := scan_up _ _ _). set (j' := scan_down _ _ _).
  pose proof (scan_down_le (λ j, negb (less cmp data j a)) j (S j - i')).
  fold j' in H.
  case_bool_decide; [done|].
  rewrite checked_swap by lia. simpl.
  apply IH; rewrite swap_length; lia.
Qed.

Lemma checked_partitionCmpFunc data a b pivot :
  a ≤ pivot → pivot < b → b ≤ length data →
  checked.partitionCmpFunc cmp data a b pivot
  = partitionCmpFunc cmp data a b pivot.
Proof.
  intros Hap Hpb Hb. unfold checked.partitionCmpFunc, partitionCmpFunc.
  generalize (S (b - a)). intros fuel.
  rewrite checked_swap by lia. simpl.
  set (d := swap data a pivot).
  assert (length d = length data) as Hd by apply swap_length.
  rewrite (checked_scan_up _ (λ i, less cmp d i a)).
  2:{ intros k ??. apply checked_less; lia. }
  simpl.
  rewrite (checked_scan_down _ (λ j, negb (less cmp d j a))).
  2:{ intros k ??. rewrite checked_less by lia. done. }
  simpl.
  set (i := scan_up _ _ _). set (j := scan_down _ _ _).
  pose proof (scan_down_le (λ j, negb (less cmp d j a)) (b - 1) (S (b - 1) - i))
    as Hj. fold j in Hj.
  pose proof (scan_up_ge (λ i, less cmp d i a) (a + 1) (S (b - 1) - (a + 1)))
    as Hi. fold i in Hi.
  case_bool_decide.
  - rewrite checked_swap by lia. done.
  - rewrite checked_swap by lia. simpl.
    rewrite checked_partition_loop by (rewrite swap_length; lia).
    destruct (partition_loop cmp _ _ a (S i) (pred j)) as [[d' m]|] eqn:Hl;
      simpl; [|done].
    pose proof (partition_loop_bounds _ _ _ _ _ _ _ _ Hl) as Hm.
    apply partition_loop_Permutation, Permutation_length in Hl.
    rewrite swap_length in Hl.
    rewrite checked_swap by lia. done.
Qed.

Lemma checked_partitionEqual_loop fuel data a i j :
  a < length data → j < length data →
  checked.partitionEqual_loop cmp fuel data a i j
  = partitionEqual_loop cmp fuel data a i j.
Proof.
  revert data i j. induction fuel as [|fuel IH]; intros data i j Ha Hj;
    simpl; [done|].
  rewrite (checked_scan_up _ (λ i, negb (less cmp data a i))).
  2:{ intros k ??. rewrite checked_less by lia. done. }
  simpl.
  rewrite (checked_scan_down _ (λ j, less cmp data a j)).
  2:{ intros k ??. apply checked_less; lia. }
  simpl.
  set (i' := scan_up _ _ _). set (j' := scan_down _ _ _).
  pose proof (scan_down_le (λ j, less cmp data a j) j (S j - i')).
  fold j' in H.
  case_bool_decide; [done|].
  rewrite checked_swap by lia. simpl.
  apply IH; rewrite swap_length; lia.
Qed.

Lemma checked_partitionEqualCmpFunc data a b pivot :
  a ≤ pivot → pivot < b → b ≤ length data →
  checked.partitionEqualCmpFunc cmp data a b pivot
  = partitionEqualCmpFunc cmp data a b pivot.
Proof.
  intros Hap Hpb Hb.
  unfold checked.partitionEqualCmpFunc, partitionEqualCmpFunc.
  generalize (S (b - a)). intros fuel.
  rewrite checked_swap by lia. simpl.
  apply checked_partitionEqual_loop; rewrite swap_length; lia.
Qed.

Lemma partitionEqual_loop_upper fuel data a i j r m :
  partitionEqual_loop cmp fuel data a i j = Some (r, m) →
  m ≤ i `max` S j.
Proof.
  revert data i j. induction fuel as [|fuel IH]; intros data i j; simpl;
    [done|].
  set (i' := scan_up _ _ _). set (j' := scan_down _ _ _).
  destruct (scan_up_spec (λ i, negb (less cmp data a i)) i (S j - i))
    as (Hi1 & Hi2 & _). fold i' in Hi1, Hi2.
  pose proof (scan_down_le (λ j, less cmp data a j) j (S j - i')) as Hj.
  fold j' in Hj.
  case_bool_decide.
  - intros [= <- <-]. lia.
  - intros Hr%IH. lia.
Qed.

Lemma partitionEqualCmpFunc_upper data a b pivot r m :
  partitionEqualCmpFunc cmp data a b pivot = Some (r, m) → a < b → m ≤ b.
Proof.
  unfold partitionEqualCmpFunc. intros Hr%partitionEqual_loop_upper. lia.
Qed.

Lemma shift_left_length data j : length (shift_left cmp data j) = length data.
Proof. apply Permutation_length, shift_left_Permutation. Qed.

Lemma shift_right_length data j n :
  length (shift_right cmp data j n) = length data.
Proof. apply Permutation_length, shift_right_Permutation. Qed.

Lemma checked_shift_left data j :
  j < length data →
  checked.shift_left cmp data j = Some (shift_left cmp data j).
Proof.
  revert data. induction j as [|j IH]; intros data Hj; simpl; [done|].
  rewrite checked_less by lia. simpl.
  destruct (less cmp data (S j) j); simpl; [|done].
  rewrite checked_swap by lia. simpl.
  apply IH. rewrite swap_length. lia.
Qed.

Lemma checked_shift_right data j n :
  n = 0 ∨ j + n ≤ length data →
  checked.shift_right cmp data j n = Some (shift_right cmp data j n).
Proof.
  revert data j. induction n as [|n IH]; intros data j Hn; simpl; [done|].
  rewrite checked_less by lia. simpl.
  destruct (less cmp data j (j - 1)); simpl; [|done].
  rewrite checked_swap by lia. simpl.
  apply IH. rewrite swap_length. lia.
Qed.

Lemma checked_partialInsertion_loop steps data a b i :
  i ≤ b → b ≤ length data →
  checked.partialInsertion_loop cmp steps data a b i
  = Some (partialInsertion_loop cmp steps data a b i).
Proof.
  revert data i. induction steps as [|steps IH]; intros data i Hi Hb;
    simpl; [done|].
  rewrite (checked_scan_up _ (λ i, negb (less cmp data i (i - 1)))).
  2:{ intros k ??. rewrite checked_less by lia. done. }
  simpl.
  destruct (scan_up_spec (λ i, negb (less cmp data i (i - 1))) i (b - i))
    as (Hi1 & Hi2 & _).
  set (i' := scan_up _ _ _) in *.
  case_bool_decide; [done|]. case_bool_decide; [done|].
  rewrite checked_swap by lia. simpl.
  set (d1 := swap data i' (i' - 1)).
  assert (length d1 = length data) as Hd1 by apply swap_length.
  assert ((if bool_decide (2 ≤ i' - a)
           then checked.shift_left cmp d1 (i' - 1) else Some d1)
          = Some (if bool_decide (2 ≤ i' - a)
                  then shift_left cmp d1 (i' - 1) else d1)) as ->.
  { case_bool_decide; [|done]. apply checked_shift_left. lia. }
  simpl.
  set (d2 := if bool_decide (2 ≤ i' - a) then _ else _).
  assert (length d2 = length data) as Hd2.
  { unfold d2. case_bool_decide; [|done]. by rewrite shift_left_length. }
  assert ((if bool_decide (2 ≤ b - i')
           then checked.shift_right cmp d2 (i' + 1) (b - (i' + 1))
           else Some d2)
          = Some (if bool_decide (2 ≤ b - i')
                  then shift_right cmp d2 (i' + 1) (b - (i' + 1))
                  else d2)) as ->.
  { case_bool_decide; [|done]. apply checked_shift_right. lia. }
  simpl. apply IH; [lia|].
  case_bool_decide; [|lia]. rewrite shift_right_length. lia.
Qed.

Lemma checked_partialInsertionSortCmpFunc data a b :
  a < b → b ≤ length data →
  checked.partialInsertionSortCmpFunc cmp data a b
  = Some (partialInsertionSortCmpFunc cmp data a b).
Proof. intros ??. apply checked_partialInsertion_loop; lia. Qed.

Lemma checked_breakPatterns_loop n a b data len idx i random modulus :
  idx + i + n ≤ b → b ≤ length data → len = b - a → 0 < len →
  (∃ e, (0 ≤ e)%Z ∧ modulus = (2 ^ e)%Z) → (modulus ≤ 2 * Z.of_nat len)%Z →
  checked.breakPatterns_loop n data a len idx i random modulus
  = Some (breakPatterns_loop n data a len idx i random modulus).
Proof.
  revert data i random. induction n as [|n IH];
    intros data i random Hhi Hb -> Hlen (e & He & ->) Hmod; simpl; [done|].
  set (random' := xorshift_Next random).
  assert (0 ≤ Z.land random' (2 ^ e - 1) < 2 ^ e)%Z as Hland.
  { replace (2 ^ e - 1)%Z with (Z.ones e) by (rewrite Z.ones_equiv; lia).
    rewrite Z.land_ones by done. apply Z.mod_pos_bound. lia. }
  rewrite checked_swap; [simpl| lia |case_bool_decide; lia].
  apply IH; try lia; [by rewrite swap_length|by exists e].
Qed.

Lemma checked_breakPatternsCmpFunc data a b :
  b ≤ length data →
  checked.breakPatternsCmpFunc data a b = Some (breakPatternsCmpFunc data a b).
Proof.
  intros Hb. unfold checked.breakPatternsCmpFunc, breakPatternsCmpFunc.
  case_bool_decide as Hlen; [|done].
  assert (2 ≤ (b - a) / 4) by (apply Nat.div_le_lower_bound; lia).
  assert ((b - a) / 4 * 4 ≤ b - a)
    by (rewrite Nat.mul_comm; apply Nat.Div0.mul_div_le).
  apply (checked_breakPatterns_loop 3 a b); try lia.
  - exists (Z.of_nat (bits_Len (b - a))). split; [lia|].
    unfold nextPowerOfTwo. by rewrite Z.shiftl_1_l.
  - apply nextPowerOfTwo_bound. lia.
Qed.

Lemma checked_order2CmpFunc data a b swaps :
  a < length data → b < length data →
  checked.order2CmpFunc cmp data a b swaps
  = Some (order2CmpFunc cmp data a b swaps).
Proof.
  intros ??. unfold checked.order2CmpFunc, order2CmpFunc.
  rewrite checked_less by done. done.
Qed.

Lemma checked_medianCmpFunc data a b c swaps :
  a < length data → b < length data → c < length data →
  checked.medianCmpFunc cmp data a b c swaps
  = Some (medianCmpFunc cmp data a b c swaps).
Proof.
  intros ???.
  unfold checked.medianCmpFunc, medianCmpFunc, checked.order2CmpFunc,
    order2CmpFunc.
  repeat first
    [ rewrite checked_less by done
    | progress simpl
    | match goal with
      | |- context [if less cmp ?d ?x ?y then _ else _] =>
          destruct (less cmp d x y)
      end ];
    done.
Qed.

Lemma checked_medianAdjacentCmpFunc data a swaps :
  a + 1 < length data →
  checked.medianAdjacentCmpFunc cmp data a swaps
  = Some (medianAdjacentCmpFunc cmp data a swaps).
Proof. intros ?. apply checked_medianCmpFunc; lia. Qed.

Lemma medianAdjacentCmpFunc_near data a swaps :
  0 < a →
  a - 1 ≤ (medianAdjacentCmpFunc cmp data a swaps).1
  ∧ (medianAdjacentCmpFunc cmp data a swaps).1 ≤ a + 1.
Proof.
  intros Ha. unfold medianAdjacentCmpFunc.
  destruct (medianCmpFunc_cases cmp data (a - 1) a (a + 1) swaps)
    as [-> | [-> | ->]]; lia.
Qed.

Lemma checked_choosePivotCmpFunc data a b :
  b ≤ length data →
  checked.choosePivotCmpFunc cmp data a b
  = Some (choosePivotCmpFunc cmp data a b).
Proof.
  intros Hb. unfold checked.choosePivotCmpFunc, choosePivotCmpFunc.
  cbv zeta.
  case_bool_decide as Hlen; [|done].
  assert (2 ≤ (b - a) / 4) by (apply Nat.div_le_lower_bound; lia).
  assert ((b - a) / 4 * 4 ≤ b - a)
    by (rewrite Nat.mul_comm; apply Nat.Div0.mul_div_le).
  case_bool_decide as Hnin.
  - unfold shortestNinther in Hnin.
    assert (12 ≤ (b - a) / 4) by (apply Nat.div_le_lower_bound; lia).
    rewrite checked_medianAdjacentCmpFunc, bind_Some_l by lia.
    pose proof (medianAdjacentCmpFunc_near data (a + (b - a) / 4 * 1) 0)
      as Hi.
    destruct (medianAdjacentCmpFunc cmp data (a + (b - a) / 4 * 1) 0)
      as [i s1]. cbv beta iota. cbn [fst] in Hi.
    rewrite checked_medianAdjacentCmpFunc, bind_Some_l by lia.
    pose proof (medianAdjacentCmpFunc_near data (a + (b - a) / 4 * 2) s1)
      as Hj.
    destruct (medianAdjacentCmpFunc cmp data (a + (b - a) / 4 * 2) s1)
      as [j s2]. cbv beta iota. cbn [fst] in Hj.
    rewrite checked_medianAdjacentCmpFunc, bind_Some_l by lia.
    pose proof (medianAdjacentCmpFunc_near data (a + (b - a) / 4 * 3) s2)
      as Hk.
    destruct (medianAdjacentCmpFunc cmp data (a + (b - a) / 4 * 3) s2)
      as [k s3]. cbv beta iota. cbn [fst] in Hk.
    rewrite !bind_Some_l. cbv beta iota.
    rewrite checked_medianCmpFunc, bind_Some_l by lia.
    by destruct (medianCmpFunc cmp data i j k s3).
  - rewrite !bind_Some_l. cbv beta iota.
    rewrite checked_medianCmpFunc, bind_Some_l by lia.
    by destruct (medianCmpFunc cmp data _ _ _ 0).
Qed.

Lemma checked_reverseRange_loop data i d :
  d = 0 ∨ i + d < length data →
  checked.reverseRange_loop data i d = Some (reverseRange_loop data i d).
Proof.
  revert data i. induction d as [d IH] using lt_wf_ind. intros data i Hd.
  destruct d as [|[|d]]; simpl; [done| |].
  - apply checked_swap; lia.
  - rewrite checked_swap by lia. simpl.
    apply IH; [lia|]. rewrite swap_length. lia.
Qed.

Lemma checked_reverseRangeCmpFunc data a b :
  b ≤ length data →
  checked.reverseRangeCmpFunc data a b = Some (reverseRangeCmpFunc data a b).
Proof. intros ?. apply checked_reverseRange_loop. lia. Qed.

Lemma checked_pdqsort_loop fuel data a b limit wb wp :
  a ≤ b → b ≤ length data →
  checked.pdqsort_loop cmp fuel data a b limit wb wp
  = pdqsort_loop cmp fuel data a b limit wb wp.
Proof.
  revert data a b limit wb wp.
  induction fuel as [|fuel IH]; intros data a b limit wb wp Hab Hb; [done|].
  cbn [checked.pdqsort_loop pdqsort_loop]. cbv zeta.
  case_bool_decide as Hlen; [by apply checked_insertionSortCmpFunc|].
  unfold maxInsertion in Hlen.
  case_bool_decide; [by apply checked_heapSortCmpFunc|].
  assert ((if negb wb
           then data ← checked.breakPatternsCmpFunc data a b;
                Some (data, limit - 1)
           else Some (data, limit))
          = Some (if negb wb
                  then (breakPatternsCmpFunc data a b, limit - 1)
                  else (data, limit))) as ->.
  { destruct wb; [done|]. cbn [negb].
    by rewrite checked_breakPatternsCmpFunc, bind_Some_l. }
  rewrite bind_Some_l.
  assert (length (if negb wb
                  then (breakPatternsCmpFunc data a b, limit - 1)
                  else (data, limit)).1 = length data) as Hl1.
  { destruct wb; [done|]. cbn [negb fst].
    apply Permutation_length, breakPatternsCmpFunc_Permutation. }
  destruct (if negb wb then _ else _) as [data1 limit1]. cbn [fst] in Hl1.
  cbv beta iota.
  rewrite checked_choosePivotCmpFunc, bind_Some_l by lia.
  pose proof (choosePivotCmpFunc_bounds cmp data1 a b) as Hpiv.
  destruct (choosePivotCmpFunc cmp data1 a b) as [pivot hint].
  cbn [fst] in Hpiv. specialize (Hpiv ltac:(lia)). cbv beta iota.
  assert (match hint with
          | decreasingHint =>
              data ← checked.reverseRangeCmpFunc data1 a b;
              Some (data, b - 1 - (pivot - a), increasingHint)
          | _ => Some (data1, pivot, hint)
          end
          = Some match hint with
                 | decreasingHint =>
                     (reverseRangeCmpFunc data1 a b, b - 1 - (pivot - a),
                      increasingHint)
                 | _ => (data1, pivot, hint)
                 end) as ->.
  { destruct hint; try done.
    by rewrite checked_reverseRangeCmpFunc, bind_Some_l by lia. }
  rewrite bind_Some_l.
  assert (∀ d p h,
            match hint with
            | decreasingHint =>
                (reverseRangeCmpFunc data1 a b, b - 1 - (pivot - a),
                 increasingHint)
            | _ => (data1, pivot, hint)
            end = (d, p, h) →
            length d = length data ∧ a ≤ p ∧ p < b) as Hl2.
  { intros d p h. destruct hint; intros [= <- <- <-]; split; try lia.
    rewrite <- Hl1.
    apply Permutation_length, reverseRangeCmpFunc_Permutation. }
  destruct (match hint with decreasingHint => _ | _ => _ end)
    as [[data2 pivot2] hint2].
  destruct (Hl2 _ _ _ eq_refl) as (Hd2 & Hp2a & Hp2b). clear Hl2.
  cbv beta iota.
  assert (match hint2 with
          | increasingHint =>
              if wb && wp
              then checked.partialInsertionSortCmpFunc cmp data2 a b
              else Some (data2, false)
          | _ => Some (data2, false)
          end
          = Some match hint2 with
                 | increasingHint =>
                     if wb && wp
                     then partialInsertionSortCmpFunc cmp data2 a b
                     else (data2, false)
                 | _ => (data2, false)
                 end) as ->.
  { destruct hint2; try done. destruct (wb && wp); [|done].
    apply checked_partialInsertionSortCmpFunc; lia. }
  rewrite bind_Some_l.
  assert (length (match hint2 with
                  | increasingHint =>
                      if wb && wp
                      then partialInsertionSortCmpFunc cmp data2 a b
                      else (data2, false)
                  | _ => (data2, false)
                  end).1 = length data) as Hl3.
  { destruct hint2; try done. destruct (wb && wp); [|done].
    rewrite <- Hd2.
    apply Permutation_length, partialInsertion_loop_Permutation. }
  destruct (match hint2 with increasingHint => _ | _ => _ end)
    as [data3 sorted]. cbn [fst] in Hl3. cbv beta iota.
  destruct sorted; [done|].
  assert ((if bool_decide (0 < a)
           then negb <$> checked.less cmp data3 (a - 1) pivot2
           else Some false)
          = Some (bool_decide (0 < a)
                  && negb (less cmp data3 (a - 1) pivot2))) as ->.
  { case_bool_decide; [|done]. by rewrite checked_less by lia. }
  rewrite bind_Some_l.
  destruct (bool_decide (0 < a) && negb (less cmp data3 (a - 1) pivot2)).
  - rewrite checked_partitionEqualCmpFunc by lia.
    destruct (partitionEqualCmpFunc cmp data3 a b pivot2) as [[d mid]|]
      eqn:Hp; [|done].
    rewrite !bind_Some_l. cbv beta iota.
    pose proof (partitionEqualCmpFunc_bounds _ _ _ _ _ _ _ Hp).
    pose proof (partitionEqualCmpFunc_upper _ _ _ _ _ _ Hp ltac:(lia)).
    apply partitionEqualCmpFunc_Permutation, Permutation_length in Hp.
    apply IH; lia.
  - rewrite checked_partitionCmpFunc by lia.
    destruct (partitionCmpFunc cmp data3 a b pivot2) as [[[d mid] ap]|]
      eqn:Hp; [|done].
    rewrite !bind_Some_l. cbv beta iota.
    pose proof (partitionCmpFunc_bounds _ _ _ _ _ _ _ _ Hp ltac:(lia)).
    apply partitionCmpFunc_Permutation, Permutation_length in Hp.
    case_bool_decide.
    + rewrite IH by lia.
      destruct (pdqsort_loop cmp fuel d a mid limit1 true true) as [d'|]
        eqn:Hd'; [|done].
      rewrite !bind_Some_l.
      apply pdqsort_loop_Permutation, Permutation_length in Hd'.
      apply IH; lia.
    + rewrite IH by lia.
      destruct (pdqsort_loop cmp fuel d (mid + 1) b limit1 true true)
        as [d'|] eqn:Hd'; [|done].
      rewrite !bind_Some_l.
      apply pdqsort_loop_Permutation, Permutation_length in Hd'.
      apply IH; lia.
Qed.

(** The sort never indexes outside the slice and never runs out of fuel:
    with Go's index checks it returns what it returns without them. *)
Lemma checked_SortFunc x : checked.SortFunc cmp x = Some (SortFunc cmp x).
Proof.
  unfold checked.SortFunc, checked.pdqsortCmpFunc.
  rewrite checked_pdqsort_loop by lia.
  apply (SortFunc_run_total cmp x).
Qed.
End checked_facts.

(** * Facts about the two commands *)

Section commands.
Implicit Types (m : gmap string Output.t) (s : Screen.t)
  (t : targetOutputProperties) (o : Output.t).

Lemma save_loop_find outputs profile :
  save_loop outputs profile =
    match list_find (λ o, undetermined o = true) outputs with
    | Some (_, o) => Err (IntegrityError (Output.Name o))
    | None =>
        Ok {| Screens := Screens profile
                ++ (screen_of <$> filter (λ o, Output.Enabled o = true) outputs) |}
    end.
Proof.
  revert profile. induction outputs as [|o outputs IH]; intros [screens];
    simpl.
  { by rewrite app_nil_r. }
  pose proof (eq_refl (undetermined o)) as Hu. unfold undetermined at 2 in Hu.
  destruct (Output.Enabled o) eqn:Hen; simpl in *.
  - destruct (_ =? _)%float eqn:Hz; simpl in *.
    + by rewrite decide_True.
    + rewrite decide_False by (by rewrite Hu). rewrite IH; simpl.
      destruct (list_find _ outputs) as [[i x]|]; simpl; [done|].
      rewrite filter_cons_True by done. by rewrite <- app_assoc.
  - rewrite decide_False by (by rewrite Hu). rewrite IH; simpl.
    destruct (list_find _ outputs) as [[i x]|]; simpl; [done|].
    by rewrite filter_cons_False by (by rewrite Hen).
Qed.
End commands.

Section lo_facts.
Context {T V : Type} (transform : T → string * V).
Implicit Types (collection : list T) (acc : gmap string V).

Local Abbreviation store :=
  (λ result item, <[(transform item).1 := (transform item).2]> result).

Lemma Associate_foldl_fresh collection acc k :
  k ∉ (fst ∘ transform) <$> collection →
  foldl store acc collection !! k = acc !! k.
Proof.
  revert acc. induction collection as [|x l IH]; intros acc Hk; simpl;
    [done|].
  rewrite fmap_cons, not_elem_of_cons in Hk. destruct Hk as [Hx Hl].
  rewrite IH by done. by rewrite lookup_insert_ne.
Qed.

Lemma Associate_foldl_is_Some collection acc k :
  is_Some (foldl store acc collection !! k) ↔
  k ∈ (fst ∘ transform) <$> collection ∨ is_Some (acc !! k).
Proof.
  revert acc. induction collection as [|x l IH]; intros acc; simpl.
  { rewrite elem_of_nil. tauto. }
  rewrite IH, elem_of_cons. simpl.
  destruct (decide (k = (transform x).1)) as [->|Hne].
  - rewrite lookup_insert_eq. intuition eauto.
  - rewrite lookup_insert_ne by done. tauto.
Qed.

Lemma Associate_foldl_Some collection acc k v :
  foldl store acc collection !! k = Some v →
  (∃ x, x ∈ collection ∧ transform x = (k, v)) ∨ acc !! k = Some v.
Proof.
  revert acc. induction collection as [|x l IH]; intros acc; simpl;
    [by right|].
  intros [(y & Hy & Hty)|Hacc]%IH.
  - left. exists y. split; [by right|done].
  - destruct (decide ((transform x).1 = k)) as [<-|Hne].
    + rewrite lookup_insert_eq in Hacc. simplify_eq. left. exists x.
      split; [by left|]. by destruct (transform x).
    + rewrite lookup_insert_ne in Hacc by done. by right.
Qed.

Lemma Associate_foldl_NoDup collection acc x :
  NoDup ((fst ∘ transform) <$> collection) → x ∈ collection →
  foldl store acc collection !! (transform x).1 = Some (transform x).2.
Proof.
  revert acc. induction collection as [|y l IH]; intros acc Hnd Hx; simpl.
  { by apply elem_of_nil in Hx. }
  rewrite fmap_cons, NoDup_cons in Hnd. destruct Hnd as [Hy Hnd].
  apply elem_of_cons in Hx as [->|Hx]; [|by apply IH].
  rewrite Associate_foldl_fresh by done. apply lookup_insert_eq.
Qed.

Lemma Associate_is_Some collection k :
  is_Some (lo.Associate collection transform !! k) ↔
  k ∈ (fst ∘ transform) <$> collection.
Proof.
  unfold lo.Associate. rewrite Associate_foldl_is_Some, lookup_empty.
  split; [intros [?|[? ?]]; done|by left].
Qed.

Lemma Associate_Some collection k v :
  lo.Associate collection transform !! k = Some v →
  ∃ x, x ∈ collection ∧ transform x = (k, v).
Proof.
  intros [?|Hemp]%Associate_foldl_Some; [done|].
  by rewrite lookup_empty in Hemp.
Qed.

Lemma Associate_NoDup collection x :
  NoDup ((fst ∘ transform) <$> collection) → x ∈ collection →
  lo.Associate collection transform !! (transform x).1
    = Some (transform x).2.
Proof. apply Associate_foldl_NoDup. Qed.
End lo_facts.

Lemma Filter_elem_of {T : Type} (collection : list T) predicate x :
  x ∈ lo.Filter collection predicate ↔ x ∈ collection ∧ predicate x = true.
Proof. unfold lo.Filter. rewrite !list_elem_of_In. apply filter_In. Qed.

Lemma Size_eqb_eq s1 s2 : Size_eqb s1 s2 = true ↔ s1 = s2.
Proof.
  unfold Size_eqb. rewrite andb_true_iff, !bool_decide_eq_true.
  destruct s1, s2; simpl. split; [by intros [-> ->]|by intros [= -> ->]].
Qed.

Section range_facts.
Context {V : Type}.
Implicit Types (m : gmap string V) (keys : list string).

Lemma range_order_elem_of m keys k :
  range_order m keys → k ∈ keys ↔ is_Some (m !! k).
Proof.
  unfold range_order. intros ->. rewrite list_elem_of_fmap. split.
  - intros ([k' v] & -> & Hkv). apply elem_of_map_to_list in Hkv. by exists v.
  - intros [v Hv]. exists (k, v). split; [done|].
    by apply elem_of_map_to_list.
Qed.

Lemma range_order_NoDup m keys : range_order m keys → NoDup keys.
Proof. unfold range_order. intros ->. apply NoDup_fst_map_to_list. Qed.

Lemma range_order_map_to_list m : range_order m (map_to_list m).*1.
Proof. by unfold range_order. Qed.
End range_facts.

Section load_facts.
Implicit Types (m : gmap string Output.t) (s : Screen.t)
  (t : targetOutputProperties) (o : Output.t)
  (names : gmap string bool).

Lemma load_loop_cons m s rest ts names :
  load_loop m (s :: rest) ts names =
    match resolveScreen m s with
    | Err e => Err e
    | Ok t => load_loop m rest (ts ++ [t]) (mark names t)
    end.
Proof.
  simpl. unfold resolveScreen.
  destruct (m !! Screen.Name s) as [o|]; [|done].
  case_bool_decide; [done|].
  by destruct (SortFunc _ _ !! 0).
Qed.

(** The panic of [potentialModes[0]] cannot happen: sorting keeps the
    length, and the slice was checked to be non-empty. *)
Lemma resolveScreen_no_panic m s : resolveScreen m s ≠ Err IndexPanic.
Proof.
  unfold resolveScreen.
  destruct (m !! Screen.Name s) as [o|]; [|done].
  case_bool_decide as Hlen; [done|].
  destruct (SortFunc _ _ !! 0) as [best|] eqn:Hbest; [done|].
  apply lookup_ge_None in Hbest. rewrite SortFunc_length in Hbest. lia.
Qed.

Lemma resolveScreen_Ok m s t :
  resolveScreen m s = Ok t →
  ∃ o best, m !! Screen.Name s = Some o
    ∧ best ∈ Output.Modes o
    ∧ Mode.Size best = Screen.Size s
    ∧ SortFunc (refresh_cmp s) (potentialModes o s) !! 0 = Some best
    ∧ t = {| name := Screen.Name s; mode := Mode.Name best;
             position := Screen.Position s;
             scale := fmt.Sprintf_f (Screen.Scale s) |}.
Proof.
  unfold resolveScreen.
  destruct (m !! Screen.Name s) as [o|]; [|done].
  case_bool_decide as Hlen; [done|].
  destruct (SortFunc _ _ !! 0) as [best|] eqn:Hbest; [|done].
  intros [= <-]. exists o, best. split_and!; try done.
  all: apply list_elem_of_lookup_2 in Hbest;
    rewrite SortFunc_Permutation in Hbest;
    apply Filter_elem_of in Hbest as [? ?%Size_eqb_eq]; done.
Qed.

Lemma resolveScreen_resolves m s :
  resolves m s ↔ ∃ t, resolveScreen m s = Ok t.
Proof.
  unfold resolves. split.
  - intros (o & Ho & Hne).
    destruct (resolveScreen m s) as [t|e] eqn:Hr; [by exists t|].
    exfalso. pose proof (resolveScreen_no_panic m s) as Hp.
    unfold resolveScreen in Hr, Hp. rewrite Ho in Hr, Hp.
    case_bool_decide as Hlen.
    + by destruct (potentialModes o s).
    + by destruct (SortFunc _ _ !! 0).
  - intros [t Ht]. unfold resolveScreen in Ht.
    destruct (m !! Screen.Name s) as [o|]; [|done]. exists o. split; [done|].
    case_bool_decide as Hlen; [done|]. by intros Hnil; rewrite Hnil in Hlen.
Qed.

Lemma resolveScreen_missing m s :
  m !! Screen.Name s = None →
  resolveScreen m s = Err (MissingOutputError (Screen.Name s)).
Proof. unfold resolveScreen. by intros ->. Qed.

Lemma resolveScreen_no_mode m s o :
  m !! Screen.Name s = Some o →
  (∀ md, md ∈ Output.Modes o → Mode.Size md ≠ Screen.Size s) →
  resolveScreen m s = Err (NoMatchingModeError (Screen.Name s)).
Proof.
  unfold resolveScreen. intros -> Hno.
  rewrite bool_decide_eq_true_2; [done|].
  destruct (potentialModes o s) as [|md l] eqn:Hp; [done|]. exfalso.
  assert (md ∈ potentialModes o s) as Hmd by (rewrite Hp; by left).
  apply Filter_elem_of in Hmd as [Hin Hsz%Size_eqb_eq]. by eapply Hno.
Qed.

(** The loop succeeds exactly when every Screen resolves; the targets are
    appended in the order of the Screens. *)
Lemma load_loop_Ok m screens ts names ts' names' :
  load_loop m screens ts names = Ok (ts', names') ↔
  ∃ new, Forall2 (λ s t, resolveScreen m s = Ok t) screens new
         ∧ ts' = ts ++ new ∧ names' = foldl mark names new.
Proof.
  revert ts names. induction screens as [|s rest IH]; intros ts names.
  - simpl. split.
    + intros [= <- <-]. exists []. by rewrite app_nil_r.
    + intros (new & ->%Forall2_nil_inv_l & -> & ->). by rewrite app_nil_r.
  - rewrite load_loop_cons. split.
    + destruct (resolveScreen m s) as [t|e] eqn:Hs; [|done].
      intros (new & Hall & -> & ->)%IH. exists (t :: new).
      split_and!; [by constructor| by rewrite <- app_assoc |done].
    + intros (new & Hall & -> & ->).
      apply Forall2_cons_inv_l in Hall as (t & new' & Ht & Hall & ->).
      rewrite Ht. apply IH. exists new'.
      split_and!; [done| by rewrite <- app_assoc |done].
Qed.

(** The loop fails with the error of the first Screen that does not
    resolve. *)
Lemma load_loop_Err m pre s post ts names e :
  Forall (resolves m) pre → resolveScreen m s = Err e →
  load_loop m (pre ++ s :: post) ts names = Err e.
Proof.
  intros Hpre Hs. revert ts names.
  induction Hpre as [|s' pre [t Ht]%resolveScreen_resolves _ IH];
    intros ts names.
  - simpl app. by rewrite load_loop_cons, Hs.
  - rewrite <- app_comm_cons, load_loop_cons, Ht. apply IH.
Qed.

Lemma load_loop_fails m screens ts names s :
  s ∈ screens → ¬ resolves m s →
  ∃ e, load_loop m screens ts names = Err e.
Proof.
  intros Hs Hnot.
  destruct (load_loop m screens ts names) as [[ts' names']|e] eqn:Hl;
    [|by exists e].
  apply load_loop_Ok in Hl as (new & Hall & _). exfalso. apply Hnot.
  apply resolveScreen_resolves.
  apply list_elem_of_lookup in Hs as [i Hi].
  destruct (Forall2_lookup_l _ _ _ _ _ Hall Hi) as (t & _ & Ht).
  by exists t.
Qed.

Lemma foldl_mark_lookup names new k :
  default false (foldl mark names new !! k) =
  bool_decide (k ∈ name <$> new) || default false (names !! k).
Proof.
  revert names. induction new as [|t new IH]; intros names; simpl.
  { done. }
  rewrite IH. unfold mark.
  destruct (decide (k = name t)) as [->|Hne].
  - rewrite lookup_insert_eq; simpl. rewrite orb_true_r.
    rewrite bool_decide_eq_true_2 by (by left). done.
  - rewrite lookup_insert_ne by done. f_equal.
    apply bool_decide_ext. rewrite elem_of_cons. tauto.
Qed.

Lemma disabledOutputs_elem_of keys names k :
  k ∈ disabledOutputs keys names ↔
  k ∈ keys ∧ default false (names !! k) = false.
Proof.
  unfold disabledOutputs. rewrite !list_elem_of_In, filter_In.
  by rewrite negb_true_iff.
Qed.

(** The shape of every successful run. *)
Lemma LoadProfileCmd_Run_Ok keys profile setup args :
  LoadProfileCmd_Run keys profile setup = Ok args ↔
  ∃ ts, Forall2 (λ s t, resolveScreen (outputByName setup) s = Ok t)
          (Screens profile) ts
        ∧ args = (Disable <$> List.filter
                    (λ k, negb (bool_decide (k ∈ name <$> ts))) keys)
                 ++ (ts ≫= enable_args).
Proof.
  unfold LoadProfileCmd_Run.
  assert (∀ ts, disabledOutputs keys (foldl mark ∅ ts)
                = List.filter (λ k, negb (bool_decide (k ∈ name <$> ts))) keys)
    as Hdis.
  { intros ts. unfold disabledOutputs. apply filter_ext. intros k.
    rewrite foldl_mark_lookup, lookup_empty. simpl. by rewrite orb_false_r. }
  destruct (load_loop _ _ _ _) as [[ts names]|e] eqn:Hl.
  - apply load_loop_Ok in Hl as (new & Hall & -> & ->). simpl. split.
    + intros [= <-]. exists new. by rewrite Hdis.
    + intros (ts & Hall' & ->). rewrite Hdis.
      assert (ts = new) as ->; [|done].
      clear Hdis. revert new Hall. induction Hall' as [|s t ss ts Ht _ IH];
        intros new Hall.
      * by apply Forall2_nil_inv_l in Hall.
      * apply Forall2_cons_inv_l in Hall as (t' & new' & Ht' & Hall & ->).
        f_equal; [congruence|by apply IH].
  - split; [done|]. intros (ts & Hall & _).
    assert (load_loop (outputByName setup) (Screens profile) [] ∅
            = Ok ([] ++ ts, foldl mark ∅ ts)) as Hok
      by (apply load_loop_Ok; by exists ts).
    congruence.
Qed.
End load_facts.

Section load_claims.
Implicit Types (s : Screen.t) (t : targetOutputProperties) (o : Output.t)
  (keys : list string) (profile : Profile) (setup : KScreenDoctorResult)
  (args : list Directive) (d : Directive).

Lemma resolved_names (m : gmap string Output.t) screens ts :
  Forall2 (λ s t, resolveScreen m s = Ok t) screens ts →
  Forall2 (λ s t, name t = Screen.Name s
                  ∧ position t = Screen.Position s
                  ∧ scale t = fmt.Sprintf_f (Screen.Scale s)) screens ts.
Proof.
  intros Hall. eapply Forall2_impl; [exact Hall|].
  intros s t (o & best & _ & _ & _ & _ & ->)%resolveScreen_Ok. done.
Qed.

Lemma resolved_name_list (m : gmap string Output.t) screens ts :
  Forall2 (λ s t, resolveScreen m s = Ok t) screens ts →
  name <$> ts = Screen.Name <$> screens.
Proof.
  intros Hall%resolved_names.
  induction Hall as [|s t ss ts (Hn & _ & _) _ IH]; [done|].
  rewrite !fmap_cons. by f_equal.
Qed.

Lemma enable_args_elem_of (ts : list targetOutputProperties) d :
  d ∈ ts ≫= enable_args ↔
  ∃ t, t ∈ ts ∧ (d = Enable (name t) ∨ d = SetMode (name t) (mode t)
                 ∨ d = SetPosition (name t) (position t)
                 ∨ d = SetScale (name t) (scale t)).
Proof.
  rewrite list_elem_of_bind. unfold enable_args.
  split; intros (t & H1 & H2); exists t;
    rewrite !elem_of_cons, elem_of_nil in *; tauto.
Qed.

Lemma outputByName_is_Some setup k :
  is_Some (outputByName setup !! k) ↔ k ∈ output_names setup.
Proof.
  unfold outputByName, output_names.
  by rewrite (Associate_is_Some (λ o, (Output.Name o, o))).
Qed.

Lemma outputByName_Some setup k o :
  outputByName setup !! k = Some o → o ∈ Outputs setup ∧ Output.Name o = k.
Proof.
  intros (x & Hx & Hkv)%Associate_Some. by simplify_eq.
Qed.

Lemma outputByName_NoDup setup o :
  NoDup (output_names setup) → o ∈ Outputs setup →
  outputByName setup !! Output.Name o = Some o.
Proof.
  intros Hnd Ho.
  apply (Associate_NoDup (λ o, (Output.Name o, o)) _ o Hnd Ho).
Qed.
End load_claims.

(** * The save path *)

Section save_theorems.
Implicit Types (o : Output.t) (setup : KScreenDoctorResult)
  (profile : Profile).

Lemma current_refresh_no_match modes id rate :
  (∀ md, md ∈ modes → Mode.Id md ≠ id) →
  current_refresh modes id rate = rate.
Proof.
  induction modes as [|md modes IH]; intros Hno; simpl; [done|].
  rewrite bool_decide_eq_false_2 by (apply Hno; by left).
  apply IH. intros md' Hmd'. apply Hno. by right.
Qed.

Lemma no_match_undetermined o :
  Output.Enabled o = true →
  (∀ md, md ∈ Output.Modes o → Mode.Id md ≠ Output.CurrentModeId o) →
  undetermined o = true.
Proof.
  intros Hen Hno. unfold undetermined, screen_of; simpl.
  by rewrite Hen, current_refresh_no_match.
Qed.

(** The run fails exactly at the first undetermined output of the
    sorted inventory. *)
Lemma SaveProfileCmd_Run_Err setup e :
  SaveProfileCmd_Run setup = Err e ↔
  ∃ pre culprit post,
    SortFunc priority_cmp (Outputs setup) = pre ++ culprit :: post
    ∧ Forall (λ x, undetermined x = false) pre
    ∧ undetermined culprit = true
    ∧ e = IntegrityError (Output.Name culprit).
Proof.
  unfold SaveProfileCmd_Run. rewrite save_loop_find.
  set (sorted := SortFunc priority_cmp (Outputs setup)).
  destruct (list_find _ sorted) as [[i x]|] eqn:Hfind.
  - apply list_find_Some in Hfind as (Hi & Hx & Hbefore).
    assert (Forall (λ x, undetermined x = false) (take i sorted)) as Hpre.
    { apply Forall_lookup. intros j y Hj.
      apply lookup_take_Some in Hj as [Hj Hlt].
      apply not_true_is_false. by eapply Hbefore. }
    split.
    + intros [= <-]. exists (take i sorted), x, (drop (S i) sorted).
      by rewrite take_drop_middle.
    + intros (pre & c & post & Hs & Hp & Hc & ->).
      assert (length pre = i) as Hlen.
      { destruct (Nat.lt_trichotomy (length pre) i) as [Hlt|[->|Hgt]];
          [|done|].
        - exfalso. apply (Hbefore (length pre) c); [|done..].
          rewrite Hs. by apply list_lookup_middle.
        - exfalso. rewrite Hs in Hi.
          rewrite lookup_app_l in Hi by done.
          rewrite Forall_lookup in Hp. specialize (Hp _ _ Hi). congruence. }
      rewrite Hs in Hi. rewrite list_lookup_middle in Hi by done.
      by simplify_eq.
  - split; [done|]. intros (pre & c & post & Hs & _ & Hc & _).
    apply list_find_None in Hfind. rewrite Forall_forall in Hfind.
    exfalso. apply (Hfind c); [|done].
    rewrite Hs. apply elem_of_app. right. by left.
Qed.

Lemma SaveProfileCmd_Run_Ok setup profile :
  SaveProfileCmd_Run setup = Ok profile ↔
  Forall (λ x, undetermined x = false) (SortFunc priority_cmp (Outputs setup))
  ∧ profile = {| Screens := screen_of <$>
                   filter (λ o, Output.Enabled o = true)
                     (SortFunc priority_cmp (Outputs setup)) |}.
Proof.
  unfold SaveProfileCmd_Run. rewrite save_loop_find.
  set (sorted := SortFunc priority_cmp (Outputs setup)).
  destruct (list_find _ sorted) as [[i x]|] eqn:Hfind.
  - split; [done|]. intros [Hall _].
    apply list_find_Some in Hfind as (Hi & Hx & _).
    rewrite Forall_lookup in Hall. specialize (Hall _ _ Hi). congruence.
  - apply list_find_None in Hfind. simpl. split.
    + intros [= <-]. split; [|done].
      eapply Forall_impl; [exact Hfind|]. intros y Hy.
      by apply not_true_is_false.
    + by intros [_ ->].
Qed.

(** C6, as amended. An inventory with an enabled output whose current
    mode identifier matches none of its modes makes the run fail with an
    [IntegrityError], so that no profile is returned; the error names
    the first output of the sorted inventory for which no refresh rate
    is determined, which is this output when it is the only such one.
    Every Screen of a profile that is returned has a refresh rate
    different from zero. *)
Theorem C6_unresolvable_current_mode setup o :
  o ∈ Outputs setup → Output.Enabled o = true →
  (∀ md, md ∈ Output.Modes o → Mode.Id md ≠ Output.CurrentModeId o) →
  (∃ pre culprit post,
     SortFunc priority_cmp (Outputs setup) = pre ++ culprit :: post
     ∧ Forall (λ x, undetermined x = false) pre
     ∧ undetermined culprit = true
     ∧ culprit ∈ Outputs setup
     ∧ SaveProfileCmd_Run setup = Err (IntegrityError (Output.Name culprit)))
  ∧ ((∀ x, x ∈ Outputs setup → undetermined x = true → x = o) →
     SaveProfileCmd_Run setup = Err (IntegrityError (Output.Name o)))
  ∧ (∀ setup' profile,
       SaveProfileCmd_Run setup' = Ok profile →
       Forall (λ s, (Screen.RefreshRate s =? 0)%float = false)
              (Screens profile)).
Proof.
  intros Ho Hen Hno.
  pose proof (no_match_undetermined o Hen Hno) as Hund.
  assert (∃ pre culprit post,
     SortFunc priority_cmp (Outputs setup) = pre ++ culprit :: post
     ∧ Forall (λ x, undetermined x = false) pre
     ∧ undetermined culprit = true
     ∧ culprit ∈ Outputs setup
     ∧ SaveProfileCmd_Run setup = Err (IntegrityError (Output.Name culprit)))
    as (pre & c & post & Hs & Hpre & Hc & Hin & Hrun).
  { destruct (SaveProfileCmd_Run setup) as [p|e] eqn:Hrun.
    - apply SaveProfileCmd_Run_Ok in Hrun as [Hall _].
      rewrite Forall_forall in Hall. specialize (Hall o).
      rewrite SortFunc_Permutation in Hall. specialize (Hall Ho). congruence.
    - apply SaveProfileCmd_Run_Err in Hrun
        as (pre & c & post & Hs & Hpre & Hc & ->).
      exists pre, c, post. split_and!; try done.
      rewrite <- (SortFunc_Permutation priority_cmp), Hs.
      apply elem_of_app. right. by left. }
  split_and!.
  - by exists pre, c, post.
  - intros Honly. by rewrite Hrun, (Honly c Hin Hc).
  - intros setup' profile [Hall ->]%SaveProfileCmd_Run_Ok. simpl.
    apply Forall_fmap, Forall_forall.
    intros x [Hx Hxin]%list_elem_of_filter.
    rewrite Forall_forall in Hall. specialize (Hall x Hxin).
    unfold undetermined in Hall. by rewrite Hx in Hall.
Qed.

(** C9. A run can only fail on an enabled output. When every enabled
    output has a current mode with a refresh rate different from zero,
    the run succeeds whatever the disabled outputs report, and the
    profile holds the Screens of the enabled outputs and no others. *)
Theorem C9_disabled_outputs_are_skipped setup :
  (∀ e, SaveProfileCmd_Run setup = Err e →
        ∃ o, o ∈ Outputs setup ∧ Output.Enabled o = true
             ∧ e = IntegrityError (Output.Name o))
  ∧ ((∀ o, o ∈ Outputs setup → Output.Enabled o = true →
           (Screen.RefreshRate (screen_of o) =? 0)%float = false) →
     ∃ profile,
       SaveProfileCmd_Run setup = Ok profile
       ∧ Screens profile
           = screen_of <$> filter (λ o, Output.Enabled o = true)
                             (SortFunc priority_cmp (Outputs setup))
       ∧ ∀ s, s ∈ Screens profile →
              ∃ o, o ∈ Outputs setup ∧ Output.Enabled o = true
                   ∧ s = screen_of o).
Proof.
  split.
  - intros e (pre & c & post & Hs & _ & Hc & ->)%SaveProfileCmd_Run_Err.
    exists c. split_and!; [|by apply andb_true_iff in Hc as [? _]|done].
    rewrite <- (SortFunc_Permutation priority_cmp), Hs.
    apply elem_of_app. right. by left.
  - intros Hok. eexists. split_and!.
    + apply SaveProfileCmd_Run_Ok. split; [|done].
      apply Forall_forall. intros x Hx.
      rewrite SortFunc_Permutation in Hx. unfold undetermined.
      destruct (Output.Enabled x) eqn:Hen; [|done]. simpl. by apply Hok.
    + done.
    + simpl. intros s (x & -> & [Hen Hx]%list_elem_of_filter)%list_elem_of_fmap.
      exists x. by rewrite SortFunc_Permutation in Hx.
Qed.
End save_theorems.

Section save_instances.
Import Sample.

(** Two undetermined outputs: the error names the one sorted first. *)
Lemma C6_counterexample :
  ¬ (∀ setup o,
       o ∈ Outputs setup → Output.Enabled o = true →
       (∀ md, md ∈ Output.Modes o → Mode.Id md ≠ Output.CurrentModeId o) →
       SaveProfileCmd_Run setup = Err (IntegrityError (Output.Name o))).
Proof.
  intros H. specialize (H setupPQ outQ).
  assert (SaveProfileCmd_Run setupPQ = Err (IntegrityError "P")) as Hrun
    by (vm_compute; reflexivity).
  rewrite Hrun in H. discriminate H.
  - simpl. apply elem_of_cons. right. by left.
  - done.
  - intros md Hmd. simpl in Hmd. rewrite !elem_of_cons, elem_of_nil in Hmd.
    destruct Hmd as [-> | []]. discriminate.
Qed.

Lemma C6_witness :
  SaveProfileCmd_Run setupAQ = Err (IntegrityError "Q").
Proof.
  apply (C6_unresolvable_current_mode setupAQ outQ).
  - simpl. apply elem_of_cons. right. by left.
  - done.
  - intros md Hmd. simpl in Hmd. rewrite !elem_of_cons, elem_of_nil in Hmd.
    destruct Hmd as [-> | []]. discriminate.
  - intros x Hx. simpl in Hx. rewrite !elem_of_cons, elem_of_nil in Hx.
    destruct Hx as [-> | [-> | []]]; [|done].
    vm_compute. discriminate.
Defined.

(** [B] and [C] are disabled, and [C] names a current mode it does not
    have: the run succeeds with the Screen of [A] alone. *)
Lemma C9_witness :
  ∃ profile,
    SaveProfileCmd_Run setupABC = Ok profile
    ∧ Screens profile
        = screen_of <$> filter (λ o, Output.Enabled o = true)
                          (SortFunc priority_cmp (Outputs setupABC))
    ∧ ∀ s, s ∈ Screens profile →
           ∃ o, o ∈ Outputs setupABC ∧ Output.Enabled o = true
                ∧ s = screen_of o.
Proof.
  apply (C9_disabled_outputs_are_skipped setupABC).
  intros o Ho. simpl in Ho. rewrite !elem_of_cons, elem_of_nil in Ho.
  destruct Ho as [-> | [-> | [-> | []]]]; [|done..].
  intros _. vm_compute. reflexivity.
Defined.
End save_instances.

(** * The order of the extracted Screens *)

Section stable_order.
Context {E : Type} (key : E → Z).
Implicit Types (l : list E) (x y : E).

(** Ascending order together with stability determines a list. *)
Lemma stable_sorted_unique l1 l2 :
  StronglySorted (λ a b, key a ≤ key b)%Z l1 →
  StronglySorted (λ a b, key a ≤ key b)%Z l2 →
  (∀ p, filter (λ a, key a = p) l1 = filter (λ a, key a = p) l2) →
  l1 = l2.
Proof.
  intros Hs1. revert l2.
  induction Hs1 as [|x l1 Hs1 IH Hx]; intros l2 Hs2 Hf.
  - destruct l2 as [|y l2]; [done|]. specialize (Hf (key y)).
    by rewrite filter_nil, filter_cons_True in Hf.
  - destruct Hs2 as [|y l2 Hs2 Hy].
    { specialize (Hf (key x)). by rewrite filter_nil, filter_cons_True in Hf. }
    assert (key x = key y) as Hk.
    { apply Z.le_antisymm.
      - pose proof (Hf (key y)) as Hfy.
        rewrite (filter_cons_True _ y l2) in Hfy by done.
        assert (y ∈ x :: l1) as Hin.
        { eapply (proj1 (list_elem_of_filter _ _ _)). rewrite Hfy. by left. }
        apply elem_of_cons in Hin as [->|Hin]; [done|].
        rewrite Forall_forall in Hx. by apply Hx.
      - pose proof (Hf (key x)) as Hfx.
        rewrite (filter_cons_True _ x l1) in Hfx by done.
        assert (x ∈ y :: l2) as Hin.
        { eapply (proj1 (list_elem_of_filter _ _ _)). rewrite <- Hfx. by left. }
        apply elem_of_cons in Hin as [->|Hin]; [done|].
        rewrite Forall_forall in Hy. by apply Hy. }
    pose proof (Hf (key x)) as Hfx.
    rewrite (filter_cons_True _ x l1), (filter_cons_True _ y l2) in Hfx
      by done.
    injection Hfx as -> Hfx. f_equal. apply IH; [done|].
    intros p. destruct (decide (key y = p)) as [<-|Hne]; [done|].
    specialize (Hf p). by rewrite !filter_cons_False in Hf.
Qed.
End stable_order.

Section reference_sort.
Implicit Types (o : Output.t) (l : list Output.t).

Local Abbreviation by_priority :=
  (λ a b : Output.t, Output.Priority a ≤ Output.Priority b)%Z.

Lemma insert_by_priority_Permutation o l : insert_by_priority o l ≡ₚ o :: l.
Proof.
  induction l as [|x l IH]; simpl; [done|].
  case_bool_decide; [done|]. rewrite IH. apply Permutation_swap.
Qed.

Lemma insert_by_priority_sorted o l :
  StronglySorted by_priority l →
  StronglySorted by_priority (insert_by_priority o l).
Proof.
  induction 1 as [|x l Hs IH Hx]; simpl; [repeat constructor|].
  case_bool_decide as Hlt.
  - constructor; [by constructor|]. constructor; [lia|].
    eapply Forall_impl; [exact Hx|]. intros b Hb. simpl in Hb. lia.
  - constructor; [done|]. rewrite insert_by_priority_Permutation.
    constructor; [lia|done].
Qed.

Lemma filter_none {A} (P : A → Prop) `{!∀ x, Decision (P x)} (l : list A) :
  Forall (λ a, ¬ P a) l → filter P l = [].
Proof.
  induction 1 as [|x l Hx _ IH]; [done|]. by rewrite filter_cons_False.
Qed.

Lemma insert_by_priority_filter o l (p : Z) :
  StronglySorted by_priority l →
  filter (λ a, Output.Priority a = p) (insert_by_priority o l)
  = filter (λ a, Output.Priority a = p) (l ++ [o]).
Proof.
  induction 1 as [|x l Hs IH Hx]; simpl; [done|].
  case_bool_decide as Hlt.
  - change (x :: l ++ [o]) with ((x :: l) ++ [o]).
    rewrite filter_app, (filter_cons _ o (x :: l)), (filter_cons _ o []),
      filter_nil.
    case_decide as Ho; [|by rewrite app_nil_r].
    rewrite (filter_none _ (x :: l)); [done|].
    constructor; [lia|]. eapply Forall_impl; [exact Hx|].
    intros b Hb. simpl in Hb. lia.
  - by rewrite !(filter_cons _ x), IH.
Qed.

Lemma stable_sort_by_priority_foldl acc l :
  StronglySorted by_priority acc →
  StronglySorted by_priority
    (foldl (λ sorted o, insert_by_priority o sorted) acc l)
  ∧ ∀ p, filter (λ a, Output.Priority a = p)
           (foldl (λ sorted o, insert_by_priority o sorted) acc l)
         = filter (λ a, Output.Priority a = p) (acc ++ l).
Proof.
  revert acc. induction l as [|o l IH]; intros acc Hacc; simpl.
  { by rewrite app_nil_r. }
  destruct (IH (insert_by_priority o acc)) as [Hs Hf];
    [by apply insert_by_priority_sorted|].
  split; [done|]. intros p.
  rewrite Hf, filter_app, insert_by_priority_filter by done.
  by rewrite <- filter_app, <- app_assoc.
Qed.

Lemma stable_sort_by_priority_sorted l :
  StronglySorted by_priority (stable_sort_by_priority l).
Proof. apply stable_sort_by_priority_foldl. constructor. Qed.

Lemma stable_sort_by_priority_stable l (p : Z) :
  filter (λ a, Output.Priority a = p) (stable_sort_by_priority l)
  = filter (λ a, Output.Priority a = p) l.
Proof.
  by destruct (stable_sort_by_priority_foldl [] l) as [_ ->]; [constructor|].
Qed.

(** [stably_ordered] pins the Screens down. *)
Lemma stably_ordered_reference setup profile :
  stably_ordered setup profile ↔
  Screens profile
    = screen_of <$> filter (λ o, Output.Enabled o = true)
                      (stable_sort_by_priority (Outputs setup)).
Proof.
  split.
  - intros (sorted & Hs & Hf & ->).
    rewrite (stable_sorted_unique Output.Priority sorted
               (stable_sort_by_priority (Outputs setup))); [done..| |].
    + apply stable_sort_by_priority_sorted.
    + intros p. by rewrite Hf, stable_sort_by_priority_stable.
  - intros Hscreens. exists (stable_sort_by_priority (Outputs setup)).
    split_and!; [apply stable_sort_by_priority_sorted| |done].
    apply stable_sort_by_priority_stable.
Qed.

Lemma wrap_int_in_range z : in_int z → wrap_int z = z.
Proof.
  unfold in_int, wrap_int. intros Hz.
  rewrite Z.mod_small by lia. lia.
Qed.

Lemma priority_cmp_agrees setup :
  priorities_in_range setup →
  agrees priority_cmp Output.Priority (Outputs setup).
Proof.
  intros Hr a b Ha Hb. unfold priority_cmp.
  rewrite wrap_int_in_range by (by apply Hr). lia.
Qed.

(** C2, as amended. For an inventory in which no difference of two
    priorities overflows, the Screens of the extracted profile stand in
    ascending order of priority; when the inventory has at most twelve
    outputs, outputs of equal priority keep the order of the inventory.
    The run is a function of the inventory, so the order is the same at
    every run. *)
Theorem C2_priority_order setup profile :
  priorities_in_range setup →
  SaveProfileCmd_Run setup = Ok profile →
  ordered_by_priority setup profile
  ∧ (length (Outputs setup) ≤ 12 →
     stably_ordered setup profile
     ∧ Screens profile
         = screen_of <$> filter (λ o, Output.Enabled o = true)
                           (stable_sort_by_priority (Outputs setup)))
  ∧ ∀ profile', SaveProfileCmd_Run setup = Ok profile' → profile' = profile.
Proof.
  intros Hrange Hrun.
  pose proof (priority_cmp_agrees setup Hrange) as Hag.
  pose proof Hrun as [_ Hp]%SaveProfileCmd_Run_Ok.
  split_and!.
  - exists (SortFunc priority_cmp (Outputs setup)). subst profile.
    split_and!; [apply SortFunc_Permutation| |done].
    by apply (SortFunc_sorted priority_cmp Output.Priority).
  - intros Hlen.
    assert (stably_ordered setup profile) as Hst.
    { exists (SortFunc priority_cmp (Outputs setup)). subst profile.
      split_and!; [| |done].
      - by apply SortFunc_small_sorted.
      - intros p.
        by apply (SortFunc_small_stable priority_cmp Output.Priority). }
    split; [done|by apply stably_ordered_reference].
  - intros profile' Hrun'. congruence.
Qed.
End reference_sort.

Section order_instances.
Import Sample.

(** Thirteen outputs, twelve of them of equal priority: the sort swaps
    the pivot to the front of its range and [o6] ends up before [o0].
    Two outputs whose priorities are more than [2^63] apart: the
    subtraction wraps around and the higher priority comes first. *)
Lemma C2_counterexample :
  (SaveProfileCmd_Run setup13 = Ok profile13
   ∧ priorities_in_range setup13
   ∧ ¬ stably_ordered setup13 profile13)
  ∧ (SaveProfileCmd_Run setupWrap = Ok profileWrap
     ∧ length (Outputs setupWrap) ≤ 12
     ∧ ¬ stably_ordered setupWrap profileWrap).
Proof.
  split; split_and!.
  - vm_compute. reflexivity.
  - intros a b Ha Hb. unfold in_int.
    assert (∀ o, o ∈ Outputs setup13 → 0 ≤ Output.Priority o ≤ 1)%Z as Hp.
    { intros o Ho. simpl in Ho. rewrite !elem_of_cons, elem_of_nil in Ho.
      repeat (destruct Ho as [->|Ho]; [simpl; lia|]). done. }
    apply Hp in Ha, Hb. lia.
  - intros H%stably_ordered_reference. vm_compute in H. discriminate H.
  - vm_compute. reflexivity.
  - simpl. lia.
  - intros H%stably_ordered_reference. vm_compute in H. discriminate H.
Qed.

(** Four outputs of priorities 2, 1, 2, 1: the two of priority 1 come
    first, and within either priority the order of the inventory stays. *)
Lemma C2_witness :
  ordered_by_priority setupTies profileTies
  ∧ (length (Outputs setupTies) ≤ 12 →
     stably_ordered setupTies profileTies
     ∧ Screens profileTies
         = screen_of <$> filter (λ o, Output.Enabled o = true)
                           (stable_sort_by_priority (Outputs setupTies)))
  ∧ ∀ profile', SaveProfileCmd_Run setupTies = Ok profile' →
                profile' = profileTies.
Proof.
  apply (C2_priority_order setupTies profileTies).
  - intros a b Ha Hb. unfold in_int.
    assert (∀ o, o ∈ Outputs setupTies → 1 ≤ Output.Priority o ≤ 2)%Z as Hp.
    { intros o Ho. simpl in Ho. rewrite !elem_of_cons, elem_of_nil in Ho.
      repeat (destruct Ho as [->|Ho]; [simpl; lia|]). done. }
    apply Hp in Ha, Hb. lia.
  - vm_compute. reflexivity.
Defined.
End order_instances.

(** * The load path *)

Section load_theorems.
Implicit Types (s : Screen.t) (t : targetOutputProperties) (o : Output.t)
  (keys : list string) (profile : Profile) (setup : KScreenDoctorResult)
  (args : list Directive) (d : Directive).

(** C3. When the run succeeds, the outputs that receive a disable
    directive are exactly the live outputs no Screen of the profile
    names, and the outputs that receive enable, mode, position and scale
    directives are exactly the outputs the Screens name. *)
Theorem C3_disabled_and_enabled_outputs keys profile setup args :
  range_order (outputByName setup) keys →
  LoadProfileCmd_Run keys profile setup = Ok args →
  (∀ n, Disable n ∈ args ↔
        n ∈ output_names setup ∧ n ∉ screen_names profile)
  ∧ (∀ n, Enable n ∈ args ↔ n ∈ screen_names profile)
  ∧ (∀ n, n ∈ screen_names profile →
          ∃ md pos sc, SetMode n md ∈ args ∧ SetPosition n pos ∈ args
                       ∧ SetScale n sc ∈ args)
  ∧ (∀ d, d ∈ args → is_disable d = false →
          directive_output d ∈ screen_names profile).
Proof.
  intros Hkeys (ts & Hall & ->)%LoadProfileCmd_Run_Ok.
  pose proof (resolved_name_list _ _ _ Hall) as Hnames.
  unfold screen_names. rewrite <- Hnames. clear Hnames Hall.
  assert (∀ d, d ∈ Disable <$> List.filter
                 (λ k, negb (bool_decide (k ∈ name <$> ts))) keys ↔
               ∃ n, d = Disable n ∧ n ∈ output_names setup
                    ∧ n ∉ name <$> ts) as Hdis.
  { intros d. rewrite list_elem_of_fmap. split.
    - intros (n & -> & Hn). exists n. split; [done|].
      apply list_elem_of_In, filter_In in Hn as [Hn Hb].
      apply list_elem_of_In in Hn.
      rewrite (range_order_elem_of _ _ _ Hkeys), outputByName_is_Some in Hn.
      by rewrite negb_true_iff, bool_decide_eq_false in Hb.
    - intros (n & -> & Hn & Hnot). exists n. split; [done|].
      apply list_elem_of_In, filter_In. split.
      + apply list_elem_of_In.
        by rewrite (range_order_elem_of _ _ _ Hkeys), outputByName_is_Some.
      + by rewrite negb_true_iff, bool_decide_eq_false. }
  split_and!.
  - intros n. rewrite elem_of_app, Hdis, enable_args_elem_of. split.
    + intros [(n' & [= <-] & ?)|(t & _ & Ht)]; [done|].
      by destruct Ht as [|[|[|]]].
    + intros [??]. left. by exists n.
  - intros n. rewrite elem_of_app, Hdis, enable_args_elem_of,
      list_elem_of_fmap. split.
    + intros [(n' & [=] & _)|(t & Ht & Hd)]. exists t.
      destruct Hd as [[= ->]|[|[|]]]; done.
    + intros (t & -> & Ht). right. exists t. auto.
  - intros n (t & -> & Ht)%list_elem_of_fmap.
    exists (mode t), (position t), (scale t).
    rewrite !elem_of_app, !enable_args_elem_of.
    split_and!; right; exists t; auto.
  - intros d Hd Hnot. apply elem_of_app in Hd as [Hd|Hd].
    { apply Hdis in Hd as (n & -> & _). done. }
    apply enable_args_elem_of in Hd as (t & Ht & Hd).
    apply list_elem_of_fmap. exists t.
    by destruct Hd as [-> | [-> | [-> | ->]]].
Qed.

(** C7. In the argument list of a successful run all disable directives
    come first; behind them stands one group of enable, mode, position
    and scale directives per Screen, in the order of the profile; a group
    carries the Screen's name, its position and its scale as [%f] prints
    it. *)
Theorem C7_disable_first_then_profile_order keys profile setup args :
  LoadProfileCmd_Run keys profile setup = Ok args →
  ∃ disabled ts,
    args = (Disable <$> disabled) ++ (ts ≫= enable_args)
    ∧ Forall2 (λ s t, name t = Screen.Name s
                      ∧ position t = Screen.Position s
                      ∧ scale t = fmt.Sprintf_f (Screen.Scale s))
            (Screens profile) ts.
Proof.
  intros (ts & Hall & ->)%LoadProfileCmd_Run_Ok.
  eexists _, ts. split; [done|]. by eapply resolved_names.
Qed.

Lemma disabledOutputs_empty keys : disabledOutputs keys ∅ = keys.
Proof.
  unfold disabledOutputs. induction keys as [|k l IH]; [done|].
  simpl. rewrite lookup_empty. simpl. by rewrite IH.
Qed.

(** C10, as amended. With an empty profile the run succeeds, and the
    argument list consists of disable directives and nothing else: one
    for every output name of the inventory and none twice. When no two
    outputs share a name, this is one disable directive per live
    output. *)
Theorem C10_empty_profile_disables_all keys setup :
  range_order (outputByName setup) keys →
  LoadProfileCmd_Run keys {| Screens := [] |} setup = Ok (Disable <$> keys)
  ∧ NoDup keys
  ∧ (∀ n, n ∈ keys ↔ n ∈ output_names setup)
  ∧ (NoDup (output_names setup) →
     Disable <$> keys ≡ₚ (λ o, Disable (Output.Name o)) <$> Outputs setup).
Proof.
  intros Hkeys.
  assert (∀ n, n ∈ keys ↔ n ∈ output_names setup) as Hin.
  { intros n.
    by rewrite (range_order_elem_of _ _ _ Hkeys), outputByName_is_Some. }
  split_and!.
  - unfold LoadProfileCmd_Run; simpl.
    by rewrite app_nil_r, disabledOutputs_empty.
  - by eapply range_order_NoDup.
  - exact Hin.
  - intros Hnd.
    rewrite (list_fmap_compose Output.Name Disable). apply fmap_Permutation.
    apply NoDup_Permutation; [by eapply range_order_NoDup|done|exact Hin].
Qed.

(** C4, as amended. A profile with a Screen whose name is not the name of
    any live output makes the run fail, so that no argument list is
    produced; the error is that of the first Screen of the profile that
    does not resolve, hence [MissingOutputError] with this Screen's name
    when all Screens before it resolve. *)
Theorem C4_missing_output_fails keys profile setup pre s post :
  Screens profile = pre ++ s :: post →
  Screen.Name s ∉ output_names setup →
  (∃ e, LoadProfileCmd_Run keys profile setup = Err e)
  ∧ (Forall (resolves (outputByName setup)) pre →
     LoadProfileCmd_Run keys profile setup
       = Err (MissingOutputError (Screen.Name s))).
Proof.
  intros Hscreens Hmiss.
  assert (outputByName setup !! Screen.Name s = None) as Hnone.
  { apply eq_None_not_Some. by rewrite outputByName_is_Some. }
  unfold LoadProfileCmd_Run. rewrite Hscreens. split.
  - destruct (load_loop_fails (outputByName setup) (pre ++ s :: post) [] ∅ s)
      as [e ->]; [apply elem_of_app; right; by left| |by exists e].
    intros (o & Ho & _). congruence.
  - intros Hpre.
    by rewrite (load_loop_Err _ _ _ _ _ _ _ Hpre
                  (resolveScreen_missing _ _ Hnone)).
Qed.

(** C5, as amended. A profile with a Screen whose live output has no mode
    of the Screen's size makes the run fail, so that no argument list is
    produced; the error is that of the first Screen of the profile that
    does not resolve, hence [NoMatchingModeError] with this Screen's name
    when all Screens before it resolve. *)
Theorem C5_no_matching_mode_fails keys profile setup pre s post o :
  Screens profile = pre ++ s :: post →
  outputByName setup !! Screen.Name s = Some o →
  (∀ md, md ∈ Output.Modes o → Mode.Size md ≠ Screen.Size s) →
  (∃ e, LoadProfileCmd_Run keys profile setup = Err e)
  ∧ (Forall (resolves (outputByName setup)) pre →
     LoadProfileCmd_Run keys profile setup
       = Err (NoMatchingModeError (Screen.Name s))).
Proof.
  intros Hscreens Ho Hsize.
  pose proof (resolveScreen_no_mode _ _ _ Ho Hsize) as Hs.
  unfold LoadProfileCmd_Run. rewrite Hscreens. split.
  - destruct (load_loop_fails (outputByName setup) (pre ++ s :: post) [] ∅ s)
      as [e ->]; [apply elem_of_app; right; by left| |by exists e].
    intros [t Ht]%resolveScreen_resolves. congruence.
  - intros Hpre. by rewrite (load_loop_Err _ _ _ _ _ _ _ Hpre Hs).
Qed.
End load_theorems.

(** * Worked instances of the load path *)

Section load_instances.
Import Sample.

Lemma keysABC_range_order : range_order (outputByName setupABC) keysABC.
Proof. unfold range_order. vm_compute. reflexivity. Qed.

Lemma screenA_resolves : resolves (outputByName setupABC) screenA.
Proof.
  exists outA. split; [vm_compute; reflexivity|vm_compute; discriminate].
Qed.

(** C1, evaluated on the specification's own example: output [A] offers
    1920x1080 at 59.9, 60 and 75 Hz, in this order, and the Screen asks
    for 60 Hz. The comparator truncates the difference of the two
    distances to an integer, so 59.9 Hz and 60 Hz compare as equal, the
    sort leaves the 59.9 Hz mode in front, and that mode is selected. *)
Theorem C1_selects_59_9_for_60 :
  potentialModes outA screenA = [m599; m60; m75]
  ∧ refresh_cmp screenA m60 m599 = 0%Z
  ∧ SortFunc (refresh_cmp screenA) [m599; m60; m75] !! 0 = Some m599
  ∧ LoadProfileCmd_Run keysABC profileA setupABC = Ok argsA.
Proof. split_and!; vm_compute; reflexivity. Qed.

Lemma C3_witness :
  LoadProfileCmd_Run keysABC profileA setupABC = Ok argsA
  ∧ (∀ n, Disable n ∈ argsA ↔
          n ∈ output_names setupABC ∧ n ∉ screen_names profileA)
  ∧ (∀ n, Enable n ∈ argsA ↔ n ∈ screen_names profileA).
Proof.
  assert (LoadProfileCmd_Run keysABC profileA setupABC = Ok argsA) as Hrun
    by (vm_compute; reflexivity).
  split; [exact Hrun|].
  destruct (C3_disabled_and_enabled_outputs keysABC profileA setupABC argsA
              keysABC_range_order Hrun) as (Hd & He & _).
  split; [exact Hd|exact He].
Defined.

Lemma C7_witness :
  ∃ disabled ts,
    argsA = (Disable <$> disabled) ++ (ts ≫= enable_args)
    ∧ Forall2 (λ s t, name t = Screen.Name s
                      ∧ position t = Screen.Position s
                      ∧ scale t = fmt.Sprintf_f (Screen.Scale s))
            (Screens profileA) ts.
Proof.
  apply (C7_disable_first_then_profile_order keysABC profileA setupABC).
  vm_compute. reflexivity.
Defined.

Lemma C10_witness :
  LoadProfileCmd_Run keysABC {| Screens := [] |} setupABC
    = Ok (Disable <$> keysABC)
  ∧ NoDup keysABC
  ∧ (∀ n, n ∈ keysABC ↔ n ∈ output_names setupABC)
  ∧ (NoDup (output_names setupABC) →
     Disable <$> keysABC
       ≡ₚ (λ o, Disable (Output.Name o)) <$> Outputs setupABC).
Proof.
  apply (C10_empty_profile_disables_all keysABC setupABC).
  exact keysABC_range_order.
Defined.

(** Two live outputs named [A]: the run emits a single disable directive,
    not one per live output. *)
Lemma C10_counterexample :
  range_order (outputByName setupAA) ["A"]
  ∧ LoadProfileCmd_Run ["A"] {| Screens := [] |} setupAA = Ok [Disable "A"]
  ∧ length (Outputs setupAA) = 2
  ∧ ¬ (∀ keys setup,
         range_order (outputByName setup) keys →
         ∃ args,
           LoadProfileCmd_Run keys {| Screens := [] |} setup = Ok args
           ∧ args ≡ₚ (λ o, Disable (Output.Name o)) <$> Outputs setup).
Proof.
  assert (range_order (outputByName setupAA) ["A"]) as Hk.
  { unfold range_order. vm_compute. reflexivity. }
  split_and!; [exact Hk|vm_compute; reflexivity|reflexivity|].
  intros H. destruct (H ["A"] setupAA Hk) as (args & Hrun & Hperm).
  assert (LoadProfileCmd_Run ["A"] {| Screens := [] |} setupAA
          = Ok [Disable "A"]) as Hrun' by (vm_compute; reflexivity).
  rewrite Hrun' in Hrun. injection Hrun as <-.
  apply Permutation_length in Hperm. discriminate Hperm.
Qed.

(** Two unresolvable Screens: the error names the first, not the second. *)
Lemma C4_counterexample :
  ¬ (∀ keys profile setup s,
       s ∈ Screens profile → Screen.Name s ∉ output_names setup →
       LoadProfileCmd_Run keys profile setup
         = Err (MissingOutputError (Screen.Name s))).
Proof.
  intros H.
  specialize (H keysABC {| Screens := [screenX1; screenX2] |} setupABC
                screenX2).
  assert (LoadProfileCmd_Run keysABC {| Screens := [screenX1; screenX2] |}
            setupABC = Err (MissingOutputError "X1")) as Hrun
    by (vm_compute; reflexivity).
  rewrite Hrun in H. discriminate H.
  - simpl. apply elem_of_cons. right. by left.
  - compute_done.
Qed.

Lemma C4_witness :
  LoadProfileCmd_Run keysABC {| Screens := [screenA; screenX1] |} setupABC
    = Err (MissingOutputError "X1").
Proof.
  apply (C4_missing_output_fails keysABC {| Screens := [screenA; screenX1] |}
           setupABC [screenA] screenX1 []).
  - reflexivity.
  - compute_done.
  - constructor; [exact screenA_resolves|constructor].
Defined.

(** A Screen with a missing output in front of one without a matching
    mode: the error is the former's. *)
Lemma C5_counterexample :
  ¬ (∀ keys profile setup s o,
       s ∈ Screens profile →
       outputByName setup !! Screen.Name s = Some o →
       (∀ md, md ∈ Output.Modes o → Mode.Size md ≠ Screen.Size s) →
       LoadProfileCmd_Run keys profile setup
         = Err (NoMatchingModeError (Screen.Name s))).
Proof.
  intros H.
  specialize (H keysABC {| Screens := [screenX1; screenA_uhd] |} setupABC
                screenA_uhd outA).
  assert (LoadProfileCmd_Run keysABC {| Screens := [screenX1; screenA_uhd] |}
            setupABC = Err (MissingOutputError "X1")) as Hrun
    by (vm_compute; reflexivity).
  rewrite Hrun in H. discriminate H.
  - simpl. apply elem_of_cons. right. by left.
  - vm_compute. reflexivity.
  - intros md Hmd. simpl in Hmd.
    rewrite !elem_of_cons, elem_of_nil in Hmd.
    destruct Hmd as [-> | [-> | [-> | []]]]; discriminate.
Qed.

Lemma C5_witness :
  LoadProfileCmd_Run keysABC {| Screens := [screenA; screenB_uhd] |} setupABC
    = Err (NoMatchingModeError "B").
Proof.
  apply (C5_no_matching_mode_fails keysABC
           {| Screens := [screenA; screenB_uhd] |} setupABC
           [screenA] screenB_uhd [] outB).
  - reflexivity.
  - vm_compute. reflexivity.
  - intros md Hmd. simpl in Hmd.
    rewrite !elem_of_cons, elem_of_nil in Hmd.
    destruct Hmd as [-> | []]; discriminate.
  - constructor; [exact screenA_resolves|constructor].
Defined.
End load_instances.

(** * Saving and loading again *)

Section round_trip.
Implicit Types (s : Screen.t) (t : targetOutputProperties) (o : Output.t)
  (keys : list string) (profile : Profile) (setup : KScreenDoctorResult)
  (args : list Directive) (d : Directive).

Lemma Forall_resolves (m : gmap string Output.t) screens :
  Forall (resolves m) screens →
  ∃ ts, Forall2 (λ s t, resolveScreen m s = Ok t) screens ts.
Proof.
  induction 1 as [|s screens [t Ht]%resolveScreen_resolves _ [ts IH]].
  - by exists [].
  - exists (t :: ts). by constructor.
Qed.


Lemma screen_of_resolves setup o :
  NoDup (output_names setup) → o ∈ Outputs setup →
  (∃ md, md ∈ Output.Modes o ∧ Mode.Size md = Output.Size o) →
  resolves (outputByName setup) (screen_of o).
Proof.
  intros Hnd Ho (md & Hmd & Hsize). exists o. split.
  - by apply outputByName_NoDup.
  - intros Hnil. assert (md ∈ potentialModes o (screen_of o)) as Hin.
    { apply Filter_elem_of. split; [done|]. by apply Size_eqb_eq. }
    rewrite Hnil in Hin. by apply elem_of_nil in Hin.
Qed.


(** A mode of the current size is the current mode when the output has no
    other mode of that size. *)
Lemma has_current_size_unique o cur md :
  current_mode o = Some cur →
  (∀ m, m ∈ Output.Modes o → Mode.Size m = Output.Size o → m = cur) →
  has_current_size o md → is_current_mode o md.
Proof.
  intros Hcur Honly (best & Hbest & Hsize & ->).
  exists cur. split; [done|]. by rewrite (Honly best Hbest Hsize).
Qed.

End round_trip.

Section round_trip_instances.
Import Sample.


End round_trip_instances.

(** * More about the sorting routine *)

Section sorted_input.
Context {E : Type} (cmp : E → E → Z).
Implicit Types (data : list E).

Lemma scan_up_all (p : nat → bool) i n :
  (∀ k, i ≤ k → k < i + n → p k = true) → scan_up p i n = i + n.
Proof.
  revert i. induction n as [|n IH]; intros i Hp; simpl; [lia|].
  rewrite Hp by lia. rewrite IH; [lia|]. intros k ??. apply Hp; lia.
Qed.

Lemma insertion_outer_in_order data a i n :
  (∀ k, i ≤ k → k < i + n → less cmp data k (k - 1) = false) →
  insertion_outer cmp data a i n = data.
Proof.
  revert i. induction n as [|n IH]; intros i Hp; simpl; [done|].
  assert (insertion_inner cmp data a i = data) as ->.
  { destruct i as [|i']; simpl; [done|].
    specialize (Hp (S i')). rewrite Nat.sub_1_r in Hp. simpl in Hp.
    rewrite Hp by lia. by rewrite andb_false_r. }
  apply IH. intros k ??. apply Hp; lia.
Qed.

Lemma choosePivotCmpFunc_in_order data a b :
  (∀ i j, i < j → less cmp data j i = false) →
  12 < b - a →
  (choosePivotCmpFunc cmp data a b).2 = increasingHint.
Proof.
  intros Hord Hlen. unfold choosePivotCmpFunc.
  assert (3 ≤ (b - a) / 4) as Hq.
  { apply Nat.div_le_lower_bound; lia. }
  rewrite bool_decide_eq_true_2 by lia.
  unfold medianAdjacentCmpFunc, medianCmpFunc, order2CmpFunc.
  case_bool_decide.
  - rewrite !Hord by lia. done.
  - rewrite !Hord by lia. simpl. done.
Qed.

Lemma partialInsertion_loop_in_order steps data a b i :
  i ≤ b →
  (∀ k, i ≤ k → k < b → less cmp data k (k - 1) = false) →
  partialInsertion_loop cmp (S steps) data a b i = (data, true).
Proof.
  intros Hi Hord. simpl. rewrite scan_up_all.
  - rewrite bool_decide_eq_true_2 by lia. done.
  - intros k ??. rewrite Hord by lia. done.
Qed.

Lemma SortFunc_in_order data :
  (∀ i j, i < j → less cmp data j i = false) →
  SortFunc cmp data = data.
Proof.
  intros Hord. unfold SortFunc, SortFunc_run, pdqsortCmpFunc.
  rewrite Nat.sub_0_r. cbn [pdqsort_loop]. rewrite Nat.sub_0_r.
  case_bool_decide as Hlen.
  - simpl. unfold insertionSortCmpFunc.
    apply insertion_outer_in_order. intros k ??. apply Hord. lia.
  - unfold maxInsertion in Hlen.
    rewrite bool_decide_eq_false_2.
    2:{ destruct (length data); simpl; lia. }
    cbn [negb].
    pose proof (choosePivotCmpFunc_in_order data 0 (length data) Hord) as Hh.
    destruct (choosePivotCmpFunc cmp data 0 (length data)) as [pivot hint].
    simpl in Hh. rewrite Hh by lia. cbn [andb].
    unfold partialInsertionSortCmpFunc, maxSteps.
    rewrite partialInsertion_loop_in_order; [done|lia|].
    intros k ??. apply Hord. lia.
Qed.
End sorted_input.

Section in_order.
Context {E : Type} (cmp : E → E → Z).

(** A slice in which no element compares below an earlier one comes back
    as it is, whatever its length and whatever else the comparator does. *)
Lemma SortFunc_StronglySorted (data : list E) :
  StronglySorted (λ x y, ¬ (cmp y x < 0)%Z) data →
  SortFunc cmp data = data.
Proof.
  intros Hs. apply SortFunc_in_order. intros i j Hij. unfold less.
  destruct (data !! j) as [y|] eqn:Hj; [|done].
  destruct (data !! i) as [x|] eqn:Hi; [|done].
  apply bool_decide_eq_false_2.
  apply take_drop_middle in Hj. rewrite <- Hj in Hs.
  apply (StronglySorted_app_1_elem_of _ _ _ x y Hs); [|by left].
  apply list_elem_of_lookup. exists i. by rewrite lookup_take_lt.
Qed.
End in_order.

Section front.
Context {E : Type} (cmp : E → E → Z).
Implicit Types (l acc pre post : list E) (x w : E).

Lemma insert_rev_below_all w acc :
  (∀ y, y ∈ acc → (cmp w y < 0)%Z) → insert_rev cmp w acc = acc ++ [w].
Proof.
  induction acc as [|y acc IH]; intros Hw; simpl; [done|].
  rewrite bool_decide_eq_true_2 by (apply Hw; by left).
  rewrite IH; [done|]. intros z Hz. apply Hw. by right.
Qed.

Lemma insert_rev_last x w acc :
  ¬ (cmp x w < 0)%Z → last acc = Some w →
  last (insert_rev cmp x acc) = Some w.
Proof.
  intros Hx. induction acc as [|y acc IH]; intros Hl; [done|].
  simpl. case_bool_decide as Hlt; [|by rewrite last_cons_cons].
  destruct acc as [|z acc].
  - simpl in Hl. by injection Hl as ->.
  - rewrite last_cons_cons in Hl. specialize (IH Hl).
    rewrite last_cons. by rewrite IH.
Qed.

Lemma foldl_insert_rev_last w acc post :
  (∀ x, x ∈ post → ¬ (cmp x w < 0)%Z) → last acc = Some w →
  last (foldl (λ acc x, insert_rev cmp x acc) acc post) = Some w.
Proof.
  revert acc. induction post as [|x post IH]; intros acc Hpost Hl; [done|].
  simpl. apply IH.
  - intros y Hy. apply Hpost. by right.
  - apply insert_rev_last; [|done]. apply Hpost. by left.
Qed.

(** In a slice of at most [maxInsertion] elements, an element that
    compares below every other one, and below which none compares, ends
    up in front. *)
Lemma SortFunc_small_front pre w post :
  length (pre ++ w :: post) ≤ maxInsertion →
  (∀ x, x ∈ pre ++ post → (cmp w x < 0)%Z ∧ ¬ (cmp x w < 0)%Z) →
  SortFunc cmp (pre ++ w :: post) !! 0 = Some w.
Proof.
  intros Hlen Hw. rewrite SortFunc_small, insertionSortCmpFunc_foldl by done.
  rewrite <- head_lookup, head_reverse, foldl_app. simpl.
  apply foldl_insert_rev_last.
  - intros x Hx. apply Hw. set_solver.
  - rewrite insert_rev_below_all; [by rewrite last_snoc|].
    intros y Hy. apply Hw.
    rewrite (foldl_insert_rev_Permutation cmp [] pre), app_nil_r in Hy.
    set_solver.
Qed.
End front.

Section any_comparator.
Context {E : Type} (cmp : E → E → Z).

(** X1. Whatever the comparator, consistent or not, the sort never reads
    or writes outside the slice and comes to an end, and it hands back
    the elements it was given, each as often as before. *)
Theorem X1_SortFunc_returns_a_rearrangement (x : list E) :
  ∃ r, checked.SortFunc cmp x = Some r
       ∧ r = SortFunc cmp x ∧ r ≡ₚ x ∧ length r = length x.
Proof.
  exists (SortFunc cmp x). split_and!.
  - apply checked_SortFunc.
  - done.
  - apply SortFunc_Permutation.
  - apply SortFunc_length.
Qed.
End any_comparator.

(** * More about the save path *)

Section save_more.
Implicit Types (setup : KScreenDoctorResult) (profile : Profile).
Implicit Types (o : Output.t).

Lemma current_refresh_find modes id rate :
  current_refresh modes id rate
  = from_option Mode.RefreshRate rate
      (List.find (λ mode, bool_decide (Mode.Id mode = id)) modes).
Proof.
  induction modes as [|md modes IH]; simpl; [done|].
  by case_bool_decide.
Qed.

Lemma screen_of_current_mode o cur :
  current_mode o = Some cur →
  Screen.RefreshRate (screen_of o) = Mode.RefreshRate cur.
Proof.
  intros Hcur. simpl. rewrite current_refresh_find.
  unfold current_mode in Hcur. by rewrite Hcur.
Qed.

Lemma determined_current_mode o :
  (Screen.RefreshRate (screen_of o) =? 0)%float = false →
  ∃ cur, current_mode o = Some cur
         ∧ Screen.RefreshRate (screen_of o) = Mode.RefreshRate cur.
Proof.
  intros Hrate. destruct (current_mode o) as [cur|] eqn:Hcur.
  - exists cur. split; [done|]. by apply screen_of_current_mode.
  - exfalso. simpl in Hrate. rewrite current_refresh_find in Hrate.
    unfold current_mode in Hcur. rewrite Hcur in Hrate. simpl in Hrate.
    vm_compute in Hrate. discriminate.
Qed.

Lemma sorted_outputs_elem_of setup o :
  o ∈ SortFunc priority_cmp (Outputs setup) ↔ o ∈ Outputs setup.
Proof. by rewrite SortFunc_Permutation. Qed.

(** X2. Every Screen of a saved profile describes an enabled output of the
    inventory: it has the output's name, size, position and scale, and
    the refresh rate of the first mode that carries the output's current
    mode identifier; such a mode exists. *)
Theorem X2_saved_screens_describe_current_modes setup profile :
  SaveProfileCmd_Run setup = Ok profile →
  Forall (λ s, ∃ o cur,
            o ∈ Outputs setup ∧ Output.Enabled o = true
            ∧ current_mode o = Some cur
            ∧ Screen.Name s = Output.Name o
            ∧ Screen.Size s = Output.Size o
            ∧ Screen.Position s = Output.Pos o
            ∧ Screen.Scale s = Output.Scale o
            ∧ Screen.RefreshRate s = Mode.RefreshRate cur)
         (Screens profile).
Proof.
  intros [Hall ->]%SaveProfileCmd_Run_Ok. simpl.
  apply Forall_forall. intros s Hs.
  apply list_elem_of_fmap in Hs as (o & -> & Ho).
  apply list_elem_of_filter in Ho as [Hen Ho].
  rewrite Forall_forall in Hall. specialize (Hall o Ho).
  unfold undetermined in Hall. rewrite Hen in Hall. simpl in Hall.
  destruct (determined_current_mode o Hall) as (cur & Hcur & Hrate).
  exists o, cur. rewrite sorted_outputs_elem_of in Ho. done.
Qed.

(** X3. An enabled output whose current mode is found but reports a refresh
    rate of zero makes the run fail just as a missing mode does. *)
Theorem X3_save_rejects_zero_refresh_rate setup o cur :
  o ∈ Outputs setup → Output.Enabled o = true →
  current_mode o = Some cur →
  (Mode.RefreshRate cur =? 0)%float = true →
  (∃ n, SaveProfileCmd_Run setup = Err (IntegrityError n))
  ∧ ((∀ x, x ∈ Outputs setup → undetermined x = true → x = o) →
     SaveProfileCmd_Run setup = Err (IntegrityError (Output.Name o))).
Proof.
  intros Ho Hen Hcur Hzero.
  assert (undetermined o = true) as Hu.
  { unfold undetermined.
    by rewrite (screen_of_current_mode o cur), Hen, Hzero. }
  assert (∃ pre culprit post,
            SortFunc priority_cmp (Outputs setup) = pre ++ culprit :: post
            ∧ Forall (λ x, undetermined x = false) pre
            ∧ undetermined culprit = true) as (pre & c & post & Hs & Hpre & Hc).
  { apply sorted_outputs_elem_of in Ho. revert Ho.
    generalize (SortFunc priority_cmp (Outputs setup)). intros l Ho.
    induction l as [|x l IH]; [by apply elem_of_nil in Ho|].
    destruct (undetermined x) eqn:Hx.
    - exists [], x, l. by repeat split.
    - apply elem_of_cons in Ho as [-> | Ho]; [congruence|].
      destruct (IH Ho) as (pre & c & post & -> & Hpre & Hc).
      exists (x :: pre), c, post. repeat split; [|done]. by constructor. }
  assert (SaveProfileCmd_Run setup = Err (IntegrityError (Output.Name c)))
    as Hrun.
  { apply SaveProfileCmd_Run_Err. by exists pre, c, post. }
  split; [by eexists|].
  intros Honly. rewrite Hrun. rewrite (Honly c); [done| |done].
  apply sorted_outputs_elem_of. rewrite Hs. set_solver.
Qed.

(** X4. The Screens of a saved profile correspond one to one to the enabled
    outputs: there are as many, they carry the same names, and no name
    occurs twice when no output name does. *)
Theorem X4_save_one_screen_per_enabled_output setup profile :
  SaveProfileCmd_Run setup = Ok profile →
  length (Screens profile)
    = length (filter (λ o, Output.Enabled o = true) (Outputs setup))
  ∧ screen_names profile
      ≡ₚ Output.Name <$> filter (λ o, Output.Enabled o = true) (Outputs setup)
  ∧ (NoDup (output_names setup) → NoDup (screen_names profile)).
Proof.
  intros [_ ->]%SaveProfileCmd_Run_Ok. unfold screen_names. simpl.
  assert (Screen.Name <$> (screen_of <$>
            filter (λ o, Output.Enabled o = true)
              (SortFunc priority_cmp (Outputs setup)))
          ≡ₚ Output.Name <$>
               filter (λ o, Output.Enabled o = true) (Outputs setup)) as Hp.
  { rewrite <- list_fmap_compose.
    by rewrite (SortFunc_Permutation priority_cmp (Outputs setup)). }
  split_and!.
  - rewrite length_fmap.
    by rewrite (SortFunc_Permutation priority_cmp (Outputs setup)).
  - done.
  - intros Hnd. rewrite Hp. unfold output_names in Hnd.
    revert Hnd. generalize (Outputs setup). intros l.
    induction l as [|x l IH]; simpl; [constructor|].
    rewrite NoDup_cons. intros [Hx Hnd]. rewrite filter_cons.
    case_decide; [|by apply IH]. simpl. apply NoDup_cons. split; [|by apply IH].
    intros Hin. apply Hx. apply list_elem_of_fmap in Hin as (y & -> & Hy).
    apply list_elem_of_filter in Hy as [_ Hy].
    apply list_elem_of_fmap. by exists y.
Qed.
End save_more.

Section save_order.
Implicit Types (setup : KScreenDoctorResult) (profile : Profile).

(** X5. An inventory that already lists its outputs in ascending order of
    priority is left in that order by the sort, outputs of equal priority
    included and whatever the number of outputs; the run then treats the
    outputs in the order of the inventory. *)
Theorem X5_save_keeps_ascending_inventory setup :
  priorities_in_range setup →
  StronglySorted (λ a b, Output.Priority a ≤ Output.Priority b)%Z
                 (Outputs setup) →
  SortFunc priority_cmp (Outputs setup) = Outputs setup
  ∧ ∀ profile, SaveProfileCmd_Run setup = Ok profile →
               Screens profile
               = screen_of <$> filter (λ o, Output.Enabled o = true)
                                 (Outputs setup).
Proof.
  intros Hr Hs.
  assert (SortFunc priority_cmp (Outputs setup) = Outputs setup) as Heq.
  { apply SortFunc_StronglySorted.
    pose proof (priority_cmp_agrees setup Hr) as Hag.
    revert Hag Hs. generalize (Outputs setup). intros l Hag Hs.
    induction Hs as [|x l Hs IH Hx]; [constructor|].
    constructor.
    - apply IH. intros a b Ha Hb. apply Hag; set_solver.
    - rewrite Forall_forall in Hx |- *. intros y Hy.
      rewrite (Hag y x) by set_solver. specialize (Hx y Hy). simpl in Hx.
      lia. }
  split; [done|].
  intros profile [_ ->]%SaveProfileCmd_Run_Ok. simpl. by rewrite Heq.
Qed.

(** X6. With pairwise different priorities the result of a run does not
    depend on the order in which the inventory lists the outputs. *)
Theorem X6_save_ignores_listing_order setup1 setup2 :
  Outputs setup1 ≡ₚ Outputs setup2 →
  priorities_in_range setup1 →
  NoDup (Output.Priority <$> Outputs setup1) →
  SaveProfileCmd_Run setup1 = SaveProfileCmd_Run setup2.
Proof.
  intros Hp Hr Hnd.
  assert (priorities_in_range setup2) as Hr2.
  { intros a b Ha Hb. apply Hr; by rewrite Hp. }
  unfold SaveProfileCmd_Run. f_equal.
  apply (StronglySorted_unique_strong
           (λ a b, Output.Priority a ≤ Output.Priority b)%Z).
  - intros a b Ha Hb Hab Hba.
    rewrite SortFunc_Permutation in Ha, Hb. rewrite <- Hp in Hb.
    assert (Output.Priority a = Output.Priority b) as Heq by lia.
    clear Hab Hba Hp Hr Hr2. revert Hnd Ha Hb.
    generalize (Outputs setup1). intros l Hnd Ha Hb.
    apply list_elem_of_lookup in Ha as [i Hi].
    apply list_elem_of_lookup in Hb as [j Hj].
    assert (i = j) as ->; [|congruence].
    eapply (NoDup_lookup _ _ _ _ Hnd); rewrite list_lookup_fmap.
    + by rewrite Hi.
    + rewrite Hj. simpl. by rewrite Heq.
  - apply (SortFunc_sorted priority_cmp Output.Priority).
    by apply priority_cmp_agrees.
  - apply (SortFunc_sorted priority_cmp Output.Priority).
    by apply priority_cmp_agrees.
  - by rewrite !SortFunc_Permutation.
Qed.
End save_order.

(** * More about the load path *)

Section load_more.
Implicit Types (setup : KScreenDoctorResult) (profile : Profile).
Implicit Types (m : gmap string Output.t) (s : Screen.t) (o : Output.t).

Lemma resolveScreen_Err m s e :
  resolveScreen m s = Err e →
  ¬ resolves m s
  ∧ (e = MissingOutputError (Screen.Name s) ∧ m !! Screen.Name s = None
     ∨ e = NoMatchingModeError (Screen.Name s)
       ∧ is_Some (m !! Screen.Name s)).
Proof.
  intros He. split.
  { intros [t Ht]%resolveScreen_resolves. congruence. }
  pose proof (resolveScreen_no_panic m s) as Hp.
  unfold resolveScreen in He, Hp.
  destruct (m !! Screen.Name s) as [o|]; [|left; split; congruence].
  right. split; [|by eexists].
  case_bool_decide; [congruence|].
  destruct (SortFunc _ _ !! 0); congruence.
Qed.

Lemma load_loop_Err_elem_of m screens ts names e :
  load_loop m screens ts names = Err e →
  ∃ s, s ∈ screens ∧ resolveScreen m s = Err e.
Proof.
  revert ts names. induction screens as [|s rest IH]; intros ts names.
  { simpl. discriminate. }
  rewrite load_loop_cons. destruct (resolveScreen m s) as [t|e'] eqn:Hs.
  - intros (s' & Hs' & He)%IH. exists s'. split; [by right|done].
  - intros [= ->]. exists s. split; [by left|done].
Qed.

Lemma LoadProfileCmd_Run_succeeds keys profile setup :
  (∃ args, LoadProfileCmd_Run keys profile setup = Ok args) ↔
  Forall (resolves (outputByName setup)) (Screens profile).
Proof.
  split.
  - intros [args (ts & Hall & _)%LoadProfileCmd_Run_Ok].
    induction Hall as [|s t ss ts Ht _ IH]; constructor; [|done].
    apply resolveScreen_resolves. by exists t.
  - intros (ts & Hall)%Forall_resolves. eexists.
    apply LoadProfileCmd_Run_Ok. by exists ts.
Qed.

(** X7. The run succeeds exactly when every Screen of the profile names a live
    output that has a mode of the Screen's size. A failing run reports a
    Screen that does not: a missing output when the name is unknown, a
    missing mode otherwise. Indexing the first candidate mode never
    fails. *)
Theorem X7_load_succeeds_iff_all_screens_resolve keys profile setup :
  ((∃ args, LoadProfileCmd_Run keys profile setup = Ok args) ↔
   Forall (resolves (outputByName setup)) (Screens profile))
  ∧ ∀ e, LoadProfileCmd_Run keys profile setup = Err e →
      ∃ s, s ∈ Screens profile ∧ ¬ resolves (outputByName setup) s
           ∧ (e = MissingOutputError (Screen.Name s)
              ∧ Screen.Name s ∉ output_names setup
              ∨ e = NoMatchingModeError (Screen.Name s)
                ∧ Screen.Name s ∈ output_names setup).
Proof.
  split; [apply LoadProfileCmd_Run_succeeds|].
  intros e. unfold LoadProfileCmd_Run.
  destruct (load_loop _ _ _ _) as [[ts names]|e'] eqn:Hl; [done|].
  intros [= ->].
  apply load_loop_Err_elem_of in Hl as (s & Hs & He).
  apply resolveScreen_Err in He as [Hn He].
  exists s. split_and!; [done..|].
  rewrite <- outputByName_is_Some.
  destruct He as [[-> Hnone]|[-> Hsome]]; [left|right]; split; try done.
  rewrite Hnone. by intros [? ?].
Qed.

Lemma load_selected_mode keys profile setup args s o :
  LoadProfileCmd_Run keys profile setup = Ok args →
  s ∈ Screens profile →
  outputByName setup !! Screen.Name s = Some o →
  ∃ best, SortFunc (refresh_cmp s) (potentialModes o s) !! 0 = Some best
          ∧ SetMode (Screen.Name s) (Mode.Name best) ∈ args.
Proof.
  intros (ts & Hall & ->)%LoadProfileCmd_Run_Ok Hs Ho.
  apply list_elem_of_lookup in Hs as [i Hi].
  destruct (Forall2_lookup_l _ _ _ _ _ Hall Hi) as (t & Ht & Hres).
  apply resolveScreen_Ok in Hres as (o' & best & Ho' & _ & _ & Hbest & ->).
  assert (o' = o) as -> by congruence.
  exists best. split; [done|].
  apply elem_of_app. right. apply enable_args_elem_of.
  eexists. split; [by eapply list_elem_of_lookup_2|]. simpl. tauto.
Qed.

(** X8. Every mode directive of a successful run names a mode that the live
    output of that name really has, of the size asked for by a Screen of
    the profile with that name. *)
Theorem X8_load_selects_an_offered_mode keys profile setup args n md :
  LoadProfileCmd_Run keys profile setup = Ok args →
  SetMode n md ∈ args →
  ∃ s o best,
    s ∈ Screens profile ∧ Screen.Name s = n
    ∧ outputByName setup !! n = Some o
    ∧ o ∈ Outputs setup
    ∧ best ∈ Output.Modes o
    ∧ Mode.Size best = Screen.Size s
    ∧ md = Mode.Name best.
Proof.
  intros (ts & Hall & ->)%LoadProfileCmd_Run_Ok Hin.
  apply elem_of_app in Hin as [Hin|Hin].
  { apply list_elem_of_fmap in Hin as (? & [=] & _). }
  apply enable_args_elem_of in Hin as (t & Ht & Hd).
  destruct Hd as [[=]|[[= -> ->]|[[=]|[=]]]].
  apply list_elem_of_lookup in Ht as [i Hi].
  destruct (Forall2_lookup_r _ _ _ _ _ Hall Hi) as (s & Hs & Hres).
  apply resolveScreen_Ok in Hres as (o & best & Ho & Hbest & Hsize & _ & ->).
  exists s, o, best. simpl. split_and!; try done.
  - by eapply list_elem_of_lookup_2.
  - by apply outputByName_Some in Ho as [? _].
Qed.
End load_more.

Section load_inputs.
Implicit Types (setup : KScreenDoctorResult) (profile : Profile).
Implicit Types (m : gmap string Output.t) (s : Screen.t) (o : Output.t).

Lemma resolveScreen_same_modes m1 m2 s :
  (∀ k, option_Forall2 (λ o1 o2, Output.Modes o1 = Output.Modes o2)
          (m1 !! k) (m2 !! k)) →
  resolveScreen m1 s = resolveScreen m2 s.
Proof.
  intros Hm. unfold resolveScreen, potentialModes.
  destruct (Hm (Screen.Name s)) as [o1 o2 Heq|]; [|done].
  by rewrite Heq.
Qed.

Lemma load_loop_same_modes m1 m2 screens ts names :
  (∀ k, option_Forall2 (λ o1 o2, Output.Modes o1 = Output.Modes o2)
          (m1 !! k) (m2 !! k)) →
  load_loop m1 screens ts names = load_loop m2 screens ts names.
Proof.
  intros Hm. revert ts names.
  induction screens as [|s rest IH]; intros ts names; [done|].
  rewrite !load_loop_cons, (resolveScreen_same_modes m1 m2 s Hm).
  destruct (resolveScreen m2 s); [apply IH|done].
Qed.

Lemma outputByName_same_modes (l1 l2 : list Output.t)
    (acc1 acc2 : gmap string Output.t) :
  Forall2 (λ o1 o2, Output.Name o1 = Output.Name o2
                    ∧ Output.Modes o1 = Output.Modes o2) l1 l2 →
  (∀ k, option_Forall2 (λ o1 o2, Output.Modes o1 = Output.Modes o2)
          (acc1 !! k) (acc2 !! k)) →
  ∀ k, option_Forall2 (λ o1 o2, Output.Modes o1 = Output.Modes o2)
         (foldl (λ result item, <[Output.Name item := item]> result)
                acc1 l1 !! k)
         (foldl (λ result item, <[Output.Name item := item]> result)
                acc2 l2 !! k).
Proof.
  intros Hall. revert acc1 acc2.
  induction Hall as [|o1 o2 l1 l2 [Hn Hm] _ IH]; intros acc1 acc2 Hacc;
    [done|].
  simpl. apply IH. intros k. rewrite Hn.
  destruct (decide (k = Output.Name o2)) as [->|Hne].
  - rewrite !lookup_insert_eq. by constructor.
  - rewrite !lookup_insert_ne by done. apply Hacc.
Qed.

(** X9. Of the live inventory the run reads the names of the outputs and
    their modes, nothing else: whether an output is enabled at the moment,
    where it stands, its scale, size, priority and current mode leave the
    result unchanged. *)
Theorem X9_load_reads_only_names_and_modes keys profile setup1 setup2 :
  Forall2 (λ o1 o2, Output.Name o1 = Output.Name o2
                    ∧ Output.Modes o1 = Output.Modes o2)
          (Outputs setup1) (Outputs setup2) →
  LoadProfileCmd_Run keys profile setup1
  = LoadProfileCmd_Run keys profile setup2.
Proof.
  intros Hall. unfold LoadProfileCmd_Run.
  rewrite (load_loop_same_modes (outputByName setup1) (outputByName setup2));
    [done|].
  apply (outputByName_same_modes _ _ ∅ ∅ Hall).
  intros k. rewrite lookup_empty. constructor.
Qed.

Lemma List_filter_Permutation {A} (f : A → bool) (l1 l2 : list A) :
  l1 ≡ₚ l2 → List.filter f l1 ≡ₚ List.filter f l2.
Proof.
  induction 1 as [|x l1 l2 _ IH|x y l|l1 l2 l3 _ IH1 _ IH2]; simpl.
  - done.
  - destruct (f x); by rewrite IH.
  - destruct (f x), (f y); try done. apply Permutation_swap.
  - by rewrite IH1.
Qed.

(** X10. The order in which the keys of the lookup map are visited, which Go
    leaves open, shows in the order of the disable directives and nowhere
    else: a failing run fails alike, and two successful runs differ by a
    rearrangement of the disable directives in front of the same enable
    groups. *)
Theorem X10_load_map_order_only_permutes_disables keys1 keys2 profile setup :
  range_order (outputByName setup) keys1 →
  range_order (outputByName setup) keys2 →
  (∀ e, LoadProfileCmd_Run keys1 profile setup = Err e ↔
        LoadProfileCmd_Run keys2 profile setup = Err e)
  ∧ ∀ args1, LoadProfileCmd_Run keys1 profile setup = Ok args1 →
      ∃ disabled1 disabled2 groups,
        args1 = (Disable <$> disabled1) ++ groups
        ∧ LoadProfileCmd_Run keys2 profile setup
            = Ok ((Disable <$> disabled2) ++ groups)
        ∧ disabled1 ≡ₚ disabled2
        ∧ Forall (λ d, is_disable d = false) groups.
Proof.
  intros Hk1 Hk2. unfold LoadProfileCmd_Run.
  destruct (load_loop _ _ _ _) as [[ts names]|e'].
  - split; [done|]. intros args1 [= <-].
    exists (disabledOutputs keys1 names), (disabledOutputs keys2 names),
           (ts ≫= enable_args).
    split_and!; [done..| |].
    + apply List_filter_Permutation. unfold range_order in *.
      by rewrite Hk1, Hk2.
    + apply Forall_forall. intros d (t & _ & Hd)%enable_args_elem_of.
      by destruct Hd as [->|[->|[->| ->]]].
  - split; [done|]. discriminate.
Qed.

(** X11. When several live outputs carry the same name, the lookup map keeps
    the one listed last, and the mode selected for a Screen of that name
    is one of the modes of this output. *)
Theorem X11_load_resolves_last_output_of_a_name setup pre o post :
  Outputs setup = pre ++ o :: post →
  Output.Name o ∉ Output.Name <$> post →
  outputByName setup !! Output.Name o = Some o
  ∧ ∀ keys profile args s,
      LoadProfileCmd_Run keys profile setup = Ok args →
      s ∈ Screens profile → Screen.Name s = Output.Name o →
      ∃ best, best ∈ Output.Modes o ∧ Mode.Size best = Screen.Size s
              ∧ SetMode (Screen.Name s) (Mode.Name best) ∈ args.
Proof.
  intros Heq Hfresh.
  assert (outputByName setup !! Output.Name o = Some o) as Ho.
  { unfold outputByName, lo.Associate.
    rewrite Heq, foldl_app. simpl.
    rewrite (Associate_foldl_fresh (λ output, (Output.Name output, output)))
      by exact Hfresh.
    by rewrite lookup_insert_eq. }
  split; [done|].
  intros keys profile args s Hrun Hs Hname. rewrite <- Hname in Ho.
  destruct (load_selected_mode _ _ _ _ _ _ Hrun Hs Ho) as (best & Hb & Hin).
  exists best. split_and!; [| |done].
  - assert (best ∈ potentialModes o s) as Hp.
    { rewrite <- (SortFunc_Permutation (refresh_cmp s)).
      by eapply list_elem_of_lookup_2. }
    by apply Filter_elem_of in Hp as [? _].
  - assert (best ∈ potentialModes o s) as Hp.
    { rewrite <- (SortFunc_Permutation (refresh_cmp s)).
      by eapply list_elem_of_lookup_2. }
    apply Filter_elem_of in Hp as [_ Hsz]. by apply Size_eqb_eq in Hsz.
Qed.

Lemma enable_args_length (ts : list targetOutputProperties) :
  length (ts ≫= enable_args) = 4 * length ts.
Proof.
  induction ts as [|t ts IH]; [done|].
  rewrite bind_cons, length_app, IH. simpl. lia.
Qed.

(** X12. The argument list of a successful run disables no output twice, even
    when the inventory lists a name more than once, and holds exactly
    four further arguments for every Screen of the profile. *)
Theorem X12_load_disables_once_and_four_per_screen keys profile setup args :
  range_order (outputByName setup) keys →
  LoadProfileCmd_Run keys profile setup = Ok args →
  ∃ disabled groups,
    args = (Disable <$> disabled) ++ groups
    ∧ NoDup disabled
    ∧ Forall (λ d, is_disable d = false) groups
    ∧ length groups = 4 * length (Screens profile).
Proof.
  intros Hk (ts & Hall & ->)%LoadProfileCmd_Run_Ok.
  eexists _, _. split_and!; [done| | |].
  - apply range_order_NoDup in Hk. revert Hk. generalize keys. intros l.
    induction 1 as [|k l Hk Hnd IH]; simpl; [constructor|].
    case_match; [|done]. constructor; [|done].
    intros Hin. apply Hk. rewrite list_elem_of_In in Hin |- *.
    by apply List.filter_In in Hin as [? _].
  - apply Forall_forall. intros d (t & _ & Hd)%enable_args_elem_of.
    by destruct Hd as [->|[->|[->| ->]]].
  - rewrite enable_args_length. by rewrite (Forall2_length _ _ _ Hall).
Qed.
End load_inputs.

Section load_choice.
Implicit Types (setup : KScreenDoctorResult) (profile : Profile).
Implicit Types (s : Screen.t) (o : Output.t).

(** X13. First come, first served: when no candidate mode compares below a
    candidate listed before it, the first mode of the requested size in
    the output's mode list is selected, however many candidates there
    are. *)
Theorem X13_load_keeps_first_candidate keys profile setup args s o first rest :
  LoadProfileCmd_Run keys profile setup = Ok args →
  s ∈ Screens profile →
  outputByName setup !! Screen.Name s = Some o →
  potentialModes o s = first :: rest →
  StronglySorted (λ a b, ¬ (refresh_cmp s b a < 0)%Z) (first :: rest) →
  SetMode (Screen.Name s) (Mode.Name first) ∈ args.
Proof.
  intros Hrun Hs Ho Hpot Hord.
  destruct (load_selected_mode _ _ _ _ _ _ Hrun Hs Ho) as (best & Hb & Hin).
  rewrite Hpot, SortFunc_StronglySorted in Hb by done.
  simpl in Hb. by injection Hb as <-.
Qed.

(** X14. Among at most twelve candidate modes, one that the comparator puts
    strictly before every other candidate is the one selected. *)
Theorem X14_load_selects_strictly_nearest
    keys profile setup args s o pre best post :
  LoadProfileCmd_Run keys profile setup = Ok args →
  s ∈ Screens profile →
  outputByName setup !! Screen.Name s = Some o →
  potentialModes o s = pre ++ best :: post →
  length (potentialModes o s) ≤ 12 →
  (∀ x, x ∈ pre ++ post →
        (refresh_cmp s best x < 0)%Z ∧ ¬ (refresh_cmp s x best < 0)%Z) →
  SetMode (Screen.Name s) (Mode.Name best) ∈ args.
Proof.
  intros Hrun Hs Ho Hpot Hlen Hbest.
  destruct (load_selected_mode _ _ _ _ _ _ Hrun Hs Ho) as (b & Hb & Hin).
  rewrite Hpot in Hb, Hlen.
  rewrite SortFunc_small_front in Hb by done.
  by injection Hb as <-.
Qed.

(** X15. Whenever the comparator orders the candidate modes of a Screen as
    some integer score does, the selected mode is a candidate of least
    score, however many candidates there are. *)
Theorem X15_load_selects_least_score
    keys profile setup args s o (score : Mode.t → Z) :
  LoadProfileCmd_Run keys profile setup = Ok args →
  s ∈ Screens profile →
  outputByName setup !! Screen.Name s = Some o →
  agrees (refresh_cmp s) score (potentialModes o s) →
  ∃ best, best ∈ potentialModes o s
          ∧ (∀ x, x ∈ potentialModes o s → (score best ≤ score x)%Z)
          ∧ SetMode (Screen.Name s) (Mode.Name best) ∈ args.
Proof.
  intros Hrun Hs Ho Hag.
  destruct (load_selected_mode _ _ _ _ _ _ Hrun Hs Ho) as (best & Hb & Hin).
  exists best.
  pose proof (SortFunc_sorted (refresh_cmp s) score _ Hag) as Hsorted.
  pose proof (SortFunc_Permutation (refresh_cmp s) (potentialModes o s))
    as Hperm.
  destruct (SortFunc (refresh_cmp s) (potentialModes o s)) as [|b l];
    [done|].
  simpl in Hb. injection Hb as ->.
  apply StronglySorted_cons in Hsorted as [Hall _].
  rewrite Forall_forall in Hall.
  split_and!; [rewrite <- Hperm; by left| |done].
  intros x Hx. rewrite <- Hperm in Hx.
  apply elem_of_cons in Hx as [->|Hx]; [done|by apply Hall].
Qed.
End load_choice.

(** * More about saving and loading again *)

Section round_trip_more.
Implicit Types (setup : KScreenDoctorResult) (profile : Profile).
Implicit Types (s : Screen.t) (o : Output.t).

(** X16. A profile just saved loads into the inventory it was saved from
    exactly when every enabled output offers a mode of the size the
    output reports. *)
Theorem X16_round_trip_loads_iff_sizes_are_offered keys setup profile :
  NoDup (output_names setup) →
  SaveProfileCmd_Run setup = Ok profile →
  (∃ args, LoadProfileCmd_Run keys profile setup = Ok args) ↔
  (∀ o, o ∈ Outputs setup → Output.Enabled o = true →
        ∃ md, md ∈ Output.Modes o ∧ Mode.Size md = Output.Size o).
Proof.
  intros Hnd [_ ->]%SaveProfileCmd_Run_Ok.
  rewrite LoadProfileCmd_Run_succeeds. simpl.
  rewrite Forall_fmap, Forall_forall. split.
  - intros Hall o Ho Hen.
    destruct (Hall o) as (o' & Ho' & Hpot).
    { apply list_elem_of_filter. split; [done|].
      by rewrite SortFunc_Permutation. }
    simpl in Ho'. rewrite (outputByName_NoDup setup o Hnd Ho) in Ho'.
    injection Ho' as <-.
    destruct (potentialModes o (screen_of o)) as [|md l] eqn:Hp; [done|].
    exists md.
    assert (md ∈ potentialModes o (screen_of o)) as Hmd
      by (rewrite Hp; by left).
    apply Filter_elem_of in Hmd as [Hmd Hsize].
    by apply Size_eqb_eq in Hsize.
  - intros Hall o [Hen Ho]%list_elem_of_filter.
    rewrite SortFunc_Permutation in Ho.
    apply screen_of_resolves; auto.
Qed.

Lemma StronglySorted_filter {A} (R : relation A) (P : A → Prop)
    `{!∀ x, Decision (P x)} (l : list A) :
  StronglySorted R l → StronglySorted R (filter P l).
Proof.
  induction 1 as [|x l Hs IH Hx]; [constructor|].
  rewrite filter_cons. case_decide; [|done].
  constructor; [done|]. rewrite Forall_forall in Hx |- *.
  intros y [_ Hy]%list_elem_of_filter. by apply Hx.
Qed.

(** X17. Loading a profile just saved addresses the enabled outputs in
    ascending order of priority: behind the disable directives stands one
    group per enabled output, with the output's name, its position and
    its scale as [%f] prints it, and the groups follow the priorities. *)
Theorem X17_round_trip_enables_by_priority keys setup profile args :
  priorities_in_range setup →
  SaveProfileCmd_Run setup = Ok profile →
  LoadProfileCmd_Run keys profile setup = Ok args →
  ∃ disabled ts sorted,
    args = (Disable <$> disabled) ++ (ts ≫= enable_args)
    ∧ sorted ≡ₚ filter (λ o, Output.Enabled o = true) (Outputs setup)
    ∧ StronglySorted (λ a b, Output.Priority a ≤ Output.Priority b)%Z sorted
    ∧ Forall2 (λ o t, name t = Output.Name o
                      ∧ position t = Output.Pos o
                      ∧ scale t = fmt.Sprintf_f (Output.Scale o)) sorted ts.
Proof.
  intros Hr [_ ->]%SaveProfileCmd_Run_Ok
         (ts & Hall & ->)%LoadProfileCmd_Run_Ok.
  simpl in Hall. apply resolved_names in Hall.
  apply Forall2_fmap_l in Hall.
  eexists _, ts, _. split_and!; [done| | |exact Hall].
  - by rewrite (SortFunc_Permutation priority_cmp (Outputs setup)).
  - apply StronglySorted_filter.
    apply (SortFunc_sorted priority_cmp Output.Priority).
    by apply priority_cmp_agrees.
Qed.
End round_trip_more.

(** * Further worked instances *)

Section more_instances.
Import Sample.

Lemma setupABC_in_range : priorities_in_range setupABC.
Proof.
  intros a b Ha Hb. unfold in_int.
  assert (∀ o, o ∈ Outputs setupABC → 1 ≤ Output.Priority o ≤ 3)%Z as Hp.
  { intros o Ho. simpl in Ho. rewrite !elem_of_cons, elem_of_nil in Ho.
    repeat (destruct Ho as [->|Ho]; [simpl; lia|]). done. }
  apply Hp in Ha, Hb. lia.
Qed.

Lemma setupABC_NoDup : NoDup (output_names setupABC).
Proof. vm_compute. repeat constructor; compute_done. Qed.

Lemma X2_witness :
  Forall (λ s, ∃ o cur,
            o ∈ Outputs setupABC ∧ Output.Enabled o = true
            ∧ current_mode o = Some cur
            ∧ Screen.Name s = Output.Name o
            ∧ Screen.Size s = Output.Size o
            ∧ Screen.Position s = Output.Pos o
            ∧ Screen.Scale s = Output.Scale o
            ∧ Screen.RefreshRate s = Mode.RefreshRate cur)
         (Screens profileABC).
Proof.
  apply (X2_saved_screens_describe_current_modes setupABC profileABC).
  vm_compute. reflexivity.
Defined.

Lemma X3_witness :
  SaveProfileCmd_Run setupZ = Err (IntegrityError "Z").
Proof.
  apply (X3_save_rejects_zero_refresh_rate setupZ outZ mZero).
  - simpl. by left.
  - reflexivity.
  - vm_compute. reflexivity.
  - vm_compute. reflexivity.
  - intros x Hx _. simpl in Hx. by apply list_elem_of_singleton in Hx.
Defined.

Lemma X4_witness :
  length (Screens profileABC)
    = length (filter (λ o, Output.Enabled o = true) (Outputs setupABC))
  ∧ screen_names profileABC
      ≡ₚ Output.Name <$>
           filter (λ o, Output.Enabled o = true) (Outputs setupABC)
  ∧ (NoDup (output_names setupABC) → NoDup (screen_names profileABC)).
Proof.
  apply (X4_save_one_screen_per_enabled_output setupABC profileABC).
  vm_compute. reflexivity.
Defined.

Lemma X5_witness :
  SortFunc priority_cmp (Outputs setupABC) = Outputs setupABC
  ∧ ∀ profile, SaveProfileCmd_Run setupABC = Ok profile →
               Screens profile
               = screen_of <$> filter (λ o, Output.Enabled o = true)
                                 (Outputs setupABC).
Proof.
  apply (X5_save_keeps_ascending_inventory setupABC).
  - exact setupABC_in_range.
  - simpl. repeat constructor; simpl; lia.
Defined.

Lemma X6_witness :
  SaveProfileCmd_Run setup312 = SaveProfileCmd_Run setup231.
Proof.
  apply (X6_save_ignores_listing_order setup312 setup231).
  - simpl. symmetry.
    apply (Permutation_cons_append [out "p3" 3; out "p1" 1] (out "p2" 2)).
  - intros a b Ha Hb. unfold in_int.
    assert (∀ o, o ∈ Outputs setup312 → 1 ≤ Output.Priority o ≤ 3)%Z as Hp.
    { intros o Ho. simpl in Ho. rewrite !elem_of_cons, elem_of_nil in Ho.
      repeat (destruct Ho as [->|Ho]; [simpl; lia|]). done. }
    apply Hp in Ha, Hb. lia.
  - simpl. repeat constructor; set_solver.
Defined.

Lemma X8_witness :
  ∃ s o best,
    s ∈ Screens profileA ∧ Screen.Name s = "A"
    ∧ outputByName setupABC !! "A" = Some o
    ∧ o ∈ Outputs setupABC
    ∧ best ∈ Output.Modes o
    ∧ Mode.Size best = Screen.Size s
    ∧ "1920x1080@59.9" = Mode.Name best.
Proof.
  apply (X8_load_selects_an_offered_mode keysABC profileA setupABC argsA).
  - vm_compute. reflexivity.
  - unfold argsA. set_solver.
Defined.

Lemma X9_witness :
  LoadProfileCmd_Run keysABC profileA setupABC
  = LoadProfileCmd_Run keysABC profileA setupABC_elsewhere.
Proof.
  apply (X9_load_reads_only_names_and_modes keysABC profileA setupABC
           setupABC_elsewhere).
  simpl. repeat constructor.
Defined.

Lemma X10_witness :
  (∀ e, LoadProfileCmd_Run keysABC profileA setupABC = Err e ↔
        LoadProfileCmd_Run ["A"; "B"; "C"] profileA setupABC = Err e)
  ∧ ∀ args1, LoadProfileCmd_Run keysABC profileA setupABC = Ok args1 →
      ∃ disabled1 disabled2 groups,
        args1 = (Disable <$> disabled1) ++ groups
        ∧ LoadProfileCmd_Run ["A"; "B"; "C"] profileA setupABC
            = Ok ((Disable <$> disabled2) ++ groups)
        ∧ disabled1 ≡ₚ disabled2
        ∧ Forall (λ d, is_disable d = false) groups.
Proof.
  apply (X10_load_map_order_only_permutes_disables keysABC ["A"; "B"; "C"]
           profileA setupABC).
  - exact keysABC_range_order.
  - unfold range_order. transitivity keysABC; [|exact keysABC_range_order].
    symmetry. apply (Permutation_cons_append ["A"; "B"] "C").
Defined.

Lemma X11_witness :
  outputByName setupAA !! "A" = Some outA2
  ∧ ∀ keys profile args s,
      LoadProfileCmd_Run keys profile setupAA = Ok args →
      s ∈ Screens profile → Screen.Name s = "A" →
      ∃ best, best ∈ [m75] ∧ Mode.Size best = Screen.Size s
              ∧ SetMode (Screen.Name s) (Mode.Name best) ∈ args.
Proof.
  apply (X11_load_resolves_last_output_of_a_name setupAA [outA] outA2 []).
  - reflexivity.
  - simpl. apply not_elem_of_nil.
Defined.

Lemma X12_witness :
  ∃ disabled groups,
    argsA = (Disable <$> disabled) ++ groups
    ∧ NoDup disabled
    ∧ Forall (λ d, is_disable d = false) groups
    ∧ length groups = 4 * length (Screens profileA).
Proof.
  apply (X12_load_disables_once_and_four_per_screen keysABC profileA setupABC).
  - exact keysABC_range_order.
  - vm_compute. reflexivity.
Defined.

Lemma X13_witness :
  SetMode "A" "1920x1080@59.9" ∈ argsA.
Proof.
  apply (X13_load_keeps_first_candidate keysABC profileA setupABC argsA
           screenA outA m599 [m60; m75]).
  - vm_compute. reflexivity.
  - simpl. by left.
  - vm_compute. reflexivity.
  - vm_compute. reflexivity.
  - repeat constructor; vm_compute; discriminate.
Defined.

Lemma X14_witness :
  SetMode "A" "1920x1080@75" ∈ argsA_75.
Proof.
  apply (X14_load_selects_strictly_nearest keysABC profileA_75 setupABC argsA_75
           screenA_75 outA [m599; m60] m75 []).
  - vm_compute. reflexivity.
  - simpl. by left.
  - vm_compute. reflexivity.
  - vm_compute. reflexivity.
  - vm_compute. lia.
  - intros x Hx. simpl in Hx. rewrite !elem_of_cons, elem_of_nil in Hx.
    destruct Hx as [-> | [-> | []]]; vm_compute;
      (split; [reflexivity|intros H; discriminate H]).
Defined.

Lemma X15_witness :
  ∃ best, best ∈ potentialModes outA screenA
          ∧ (∀ x, x ∈ potentialModes outA screenA →
                  (whole_distance_to_60 best ≤ whole_distance_to_60 x)%Z)
          ∧ SetMode (Screen.Name screenA) (Mode.Name best) ∈ argsA.
Proof.
  apply (X15_load_selects_least_score keysABC profileA setupABC argsA
           screenA outA whole_distance_to_60).
  - vm_compute. reflexivity.
  - simpl. by left.
  - vm_compute. reflexivity.
  - intros x y Hx Hy.
    assert (potentialModes outA screenA = [m599; m60; m75]) as Hp
      by (vm_compute; reflexivity).
    rewrite Hp in Hx, Hy. rewrite !elem_of_cons, elem_of_nil in Hx, Hy.
    destruct Hx as [-> | [-> | [-> | []]]];
      destruct Hy as [-> | [-> | [-> | []]]];
      vm_compute; split; (done || discriminate).
Defined.

Lemma X16_witness :
  (∃ args, LoadProfileCmd_Run keysABC profileABC setupABC = Ok args) ↔
  (∀ o, o ∈ Outputs setupABC → Output.Enabled o = true →
        ∃ md, md ∈ Output.Modes o ∧ Mode.Size md = Output.Size o).
Proof.
  apply (X16_round_trip_loads_iff_sizes_are_offered keysABC setupABC profileABC).
  - exact setupABC_NoDup.
  - vm_compute. reflexivity.
Defined.

Lemma X17_witness :
  ∃ args,
    LoadProfileCmd_Run ["t0"; "t1"; "t2"; "t3"] profileTies setupTies
      = Ok args
    ∧ ∃ disabled ts sorted,
        args = (Disable <$> disabled) ++ (ts ≫= enable_args)
        ∧ sorted
            ≡ₚ filter (λ o, Output.Enabled o = true) (Outputs setupTies)
        ∧ StronglySorted
            (λ a b, Output.Priority a ≤ Output.Priority b)%Z sorted
        ∧ Forall2 (λ o t, name t = Output.Name o
                          ∧ position t = Output.Pos o
                          ∧ scale t = fmt.Sprintf_f (Output.Scale o))
                  sorted ts.
Proof.
  eexists. split; [vm_compute; reflexivity|].
  apply (X17_round_trip_enables_by_priority ["t0"; "t1"; "t2"; "t3"]
           setupTies profileTies).
  - intros a b Ha Hb. unfold in_int.
    assert (∀ o, o ∈ Outputs setupTies → 1 ≤ Output.Priority o ≤ 2)%Z as Hp.
    { intros o Ho. simpl in Ho. rewrite !elem_of_cons, elem_of_nil in Ho.
      repeat (destruct Ho as [->|Ho]; [simpl; lia|]). done. }
    apply Hp in Ha, Hb. lia.
  - vm_compute. reflexivity.
  - vm_compute. reflexivity.
Defined.
End more_instances.
